(** * Ranked retrieval search engine: index builder and query engine

    A shallow embedding of [index.py] (class [FileProcess]) and
    [search.py] (class [SearchEngine]), and the properties of the
    inverted index, of the shortest-window search and of the ranking.

    Conventions of the embedding.
    - A Python [str] is a [string]; an [ascii] stands for the code point
      of the same number, so the strings covered are those whose code
      points are below 256 (Latin-1).  On these, [str.lower] maps each
      character by itself, and every property below that speaks of a
      token or a sentence speaks of such a string.
    - A Python [int] is a [Z].  A Python [float] is an IEEE 754
      binary64 number, a [spec_float] of the standard library with 53
      bits of precision; every operation rounds to the nearest double,
      ties to even, as the hardware does.
    - Dictionaries whose iteration order is observed ([match], [unique],
      the result of [dict.fromkeys]) are association lists in insertion
      order; the inverted index, which is only looked up, is a [gmap].
    - Exceptions are values of [exn] in a sum type; [print] appends to
      an explicit output.
    - NLTK (lemmatizer, word and sentence tokenizers) is outside the
      repository: it is an interface, [NLTK].  The iteration order of a
      Python [set] of strings is not fixed by the language (string
      hashing is salted per process): it is an interface too,
      [HashOrder], one instance per process. *)

From Stdlib Require Import ZArith QArith Qround String Ascii Lia SpecFloat.
From stdpp Require Import base option list strings gmap sorting.

Local Open Scope string_scope.
Local Open Scope Z_scope.

(** ** Python built-ins on strings *)

Module Py.

Definition code (c : ascii) : N := N_of_ascii c.

(** [c.isspace()] for a code point below 256. *)
Definition isspace (c : ascii) : bool :=
  let n := code c in
  ((9 <=? n) && (n <=? 13) || (28 <=? n) && (n <=? 32)
   || (n =? 133) || (n =? 160))%N.

(** A decimal digit (Unicode category Nd), which is also [\d] of [re]. *)
Definition isdecimal (c : ascii) : bool :=
  let n := code c in ((48 <=? n) && (n <=? 57))%N.

(** [c.isdigit()]: the decimal digits and the superscripts 1, 2, 3. *)
Definition isdigit_char (c : ascii) : bool :=
  let n := code c in
  (isdecimal c || (n =? 178) || (n =? 179) || (n =? 185))%N.

Definition isalpha_char (c : ascii) : bool :=
  let n := code c in
  ((65 <=? n) && (n <=? 90) || (97 <=? n) && (n <=? 122)
   || (n =? 170) || (n =? 181) || (n =? 186)
   || (192 <=? n) && (n <=? 214) || (216 <=? n) && (n <=? 246)
   || (248 <=? n) && (n <=? 255))%N.

(** [c.isalnum()]: alphabetic, decimal, digit or numeric (the vulgar
    fractions 188..190 are numeric only). *)
Definition isalnum_char (c : ascii) : bool :=
  let n := code c in
  (isalpha_char c || isdigit_char c || (188 <=? n) && (n <=? 190))%N.

Fixpoint all_chars (p : ascii → bool) (s : string) : bool :=
  match s with
  | EmptyString => true
  | String c s' => p c && all_chars p s'
  end.

Definition nonempty (s : string) : bool :=
  match s with EmptyString => false | _ => true end.

(** [s.isdigit()] and [s.isalnum()] are false on the empty string. *)
Definition isdigit (s : string) : bool := nonempty s && all_chars isdigit_char s.
Definition isalnum (s : string) : bool := nonempty s && all_chars isalnum_char s.

(** [c.lower()] for a code point below 256: the result is one character,
    again below 256, and does not depend on the neighbours of [c] (the
    context-sensitive mappings of [str.lower], such as that of the final
    sigma, start above 255). *)
Definition lower_char (c : ascii) : ascii :=
  let n := code c in
  if ((65 <=? n) && (n <=? 90)
      || (192 <=? n) && (n <=? 222) && negb (n =? 215))%N
  then ascii_of_N (n + 32) else c.

Fixpoint lower (s : string) : string :=
  match s with
  | EmptyString => EmptyString
  | String c s' => String (lower_char c) (lower s')
  end.

(** [s.replace(old, new)] for a non-empty [old]: leftmost,
    non-overlapping occurrences.  [skip] counts the characters of an
    occurrence that are still to be passed over. *)
Fixpoint replace_from (skip : nat) (old new s : string) : string :=
  match s with
  | EmptyString => EmptyString
  | String c s' =>
      match skip with
      | S k => replace_from k old new s'
      | O =>
          if String.prefix old s
          then new ++ replace_from (String.length old - 1) old new s'
          else String c (replace_from O old new s')
      end
  end.

Definition replace (old new s : string) : string := replace_from O old new s.

(** [c in s] for a one-character [c]. *)
Fixpoint contains_char (c : ascii) (s : string) : bool :=
  match s with
  | EmptyString => false
  | String d s' => Ascii.eqb c d || contains_char c s'
  end.

(** [s.split(sep)] for a one-character separator; [cur] is the segment
    being read. *)
Fixpoint split_from (sep : ascii) (cur : string) (s : string) : list string :=
  match s with
  | EmptyString => [cur]
  | String c s' =>
      if Ascii.eqb c sep then cur :: split_from sep EmptyString s'
      else split_from sep (cur ++ String c EmptyString) s'
  end.

Definition split (sep : ascii) (s : string) : list string :=
  split_from sep EmptyString s.

Fixpoint lstrip_with (space : ascii → bool) (s : string) : string :=
  match s with
  | EmptyString => EmptyString
  | String c s' => if space c then lstrip_with space s' else s
  end.

(** A character is kept when it is not a space or when something is
    kept after it. *)
Fixpoint rstrip_with (space : ascii → bool) (s : string) : string :=
  match s with
  | EmptyString => EmptyString
  | String c s' =>
      match rstrip_with space s' with
      | EmptyString => if space c then EmptyString else String c EmptyString
      | r => String c r
      end
  end.

Definition lstrip (s : string) : string := lstrip_with isspace s.
Definition rstrip (s : string) : string := rstrip_with isspace s.
Definition strip (s : string) : string := rstrip (lstrip s).

(** [s.startswith(c)] and [s[1:]]. *)
Definition startswith_char (c : ascii) (s : string) : bool :=
  match s with
  | String d _ => Ascii.eqb c d
  | EmptyString => false
  end.

Definition tail (s : string) : string :=
  match s with
  | String _ s' => s'
  | EmptyString => EmptyString
  end.

Fixpoint endswith_char (c : ascii) (s : string) : bool :=
  match s with
  | EmptyString => false
  | String d EmptyString => Ascii.eqb c d
  | String _ s' => endswith_char c s'
  end.

(** [int(s)]: surrounding white space, an optional sign, then decimal
    digits, where single underscores may separate digits.  [None] is
    [ValueError].

    The white space [int] skips is not that of [str.strip]: the
    separators U+001C to U+001F are spaces for [strip] and an error for
    [int]. *)
Definition int_space (c : ascii) : bool :=
  let n := code c in
  ((9 <=? n) && (n <=? 13) || (n =? 32) || (n =? 133) || (n =? 160))%N.

Definition digit_val (c : ascii) : Z := Z.of_N (code c) - 48.

(** The longest digit string [int] converts ([sys.get_int_max_str_digits()],
    4300 unless the process changes it): leading zeros count, underscores
    do not. *)
Definition int_max_str_digits : Z := 4300.

(** [count] is the number of digits read so far. *)
Fixpoint digits_from (acc count : Z) (after_digit : bool) (s : string) : option Z :=
  match s with
  | EmptyString =>
      if after_digit && (count <=? int_max_str_digits) then Some acc else None
  | String c s' =>
      if isdecimal c then digits_from (10 * acc + digit_val c) (count + 1) true s'
      else if Ascii.eqb c "_" && after_digit then
        match s' with
        | String d _ => if isdecimal d then digits_from acc count false s' else None
        | EmptyString => None
        end
      else None
  end.

Definition unsigned_int (s : string) : option Z :=
  match s with
  | String c _ => if isdecimal c then digits_from 0 0 false s else None
  | EmptyString => None
  end.

Definition int (s : string) : option Z :=
  match rstrip_with int_space (lstrip_with int_space s) with
  | String "-" s' => Z.opp <$> unsigned_int s'
  | String "+" s' => unsigned_int s'
  | s' => unsigned_int s'
  end.

End Py.

(** ** The two regular-expression substitutions of [preprocess_sentence] *)

Module Re.

(** [re.sub(r"'s|s'", "", s)]: at each position the first alternative
    is tried before the second; matches do not overlap. *)
Definition possessive (a b : ascii) : bool :=
  Ascii.eqb a "'" && Ascii.eqb b "s" || Ascii.eqb a "s" && Ascii.eqb b "'".

Fixpoint sub_possessive (s : string) : string :=
  match s with
  | EmptyString => EmptyString
  | String a t =>
      match t with
      | String b rest =>
          if possessive a b then sub_possessive rest
          else String a (sub_possessive t)
      | EmptyString => s
      end
  end.

(** [(,\d{3})+], greedy: the digits of the groups read and the number
    of characters they span; no group gives [0]. *)
Fixpoint groups (s : string) : string * nat :=
  match s with
  | String c0 (String a (String b (String c s'))) =>
      if Ascii.eqb c0 "," && Py.isdecimal a && Py.isdecimal b && Py.isdecimal c
      then let '(g, n) := groups s' in
           (String a (String b (String c g)), (4 + n)%nat)
      else (EmptyString, O)
  | _ => (EmptyString, O)
  end.

(** Exactly [k] decimal digits at the head of [s], and what follows. *)
Fixpoint take_digits (k : nat) (s : string) : option (string * string) :=
  match k with
  | O => Some (EmptyString, s)
  | S k' =>
      match s with
      | String c s' =>
          if Py.isdecimal c
          then '(d, r) ← take_digits k' s'; Some (String c d, r)
          else None
      | EmptyString => None
      end
  end.

(** One attempt of [(\d{1,3})(,\d{3})+] at the head of [s] with [k]
    leading digits: the match with its commas removed, and its length. *)
Definition thousands_with (k : nat) (s : string) : option (string * nat) :=
  '(d, r) ← take_digits k s;
  let '(g, n) := groups r in
  if (0 <? n)%nat then Some (d ++ g, (k + n)%nat) else None.

(** [\d{1,3}] is greedy: three digits are tried first, then two, then one. *)
Definition thousands_at (s : string) : option (string * nat) :=
  match thousands_with 3 s with
  | Some m => Some m
  | None =>
      match thousands_with 2 s with
      | Some m => Some m
      | None => thousands_with 1 s
      end
  end.

(** [re.sub(r"(\d{1,3})(,\d{3})+", lambda m: m.group().replace(",", ""), s)];
    [skip] counts the characters of the current match still to pass. *)
Fixpoint sub_thousands_from (skip : nat) (s : string) : string :=
  match s with
  | EmptyString => EmptyString
  | String c s' =>
      match skip with
      | S k => sub_thousands_from k s'
      | O =>
          match thousands_at s with
          | Some (repl, n) => repl ++ sub_thousands_from (n - 1) s'
          | None => String c (sub_thousands_from O s')
          end
      end
  end.

Definition sub_thousands (s : string) : string := sub_thousands_from O s.

(** [re.fullmatch(r"[a-z]\.[a-z]\.", s)] *)
Definition ascii_lower (c : ascii) : bool :=
  let n := Py.code c in ((97 <=? n) && (n <=? 122))%N.

Definition fullmatch_abbreviation (s : string) : bool :=
  match s with
  | String a (String d1 (String b (String d2 EmptyString))) =>
      ascii_lower a && Ascii.eqb d1 "." && ascii_lower b && Ascii.eqb d2 "."
  | _ => false
  end.

End Re.

(** ** Python floats: IEEE 754 binary64 *)

Module Float.

Definition prec : Z := 53.
Definition emax : Z := 1024.

Definition zero : spec_float := S754_zero false.
Definition inf : spec_float := S754_infinity false.

(** The double nearest to the quotient [a / b] of two integers, [0 ≤ a]
    and [0 < b], with sign [s]: ties go to the even neighbour, and a
    quotient beyond the largest double gives an infinity.  These are
    the two steps of the division of the standard library's
    specification, taken on integers: the quotient to enough bits
    together with the place of the remainder, then the rounding. *)
Definition nearest (s : bool) (a b : Z) : spec_float :=
  match a with
  | Zpos _ =>
      let '(mz, ez, lz) := SFdiv_core_binary prec emax a 0 b 0 in
      binary_round_aux prec emax s mz ez lz
  | _ => S754_zero s
  end.

Definition one : spec_float := nearest false 1 1.

Definition add : spec_float → spec_float → spec_float := SFadd prec emax.
Definition mul : spec_float → spec_float → spec_float := SFmul prec emax.
Definition div : spec_float → spec_float → spec_float := SFdiv prec emax.
Definition opp : spec_float → spec_float := SFopp.

(** [x == y] and [x < y] *)
Definition eqb : spec_float → spec_float → bool := SFeqb.
Definition ltb : spec_float → spec_float → bool := SFltb.

Definition is_zero (x : spec_float) : bool :=
  match x with S754_zero _ => true | _ => false end.
Definition is_infinite (x : spec_float) : bool :=
  match x with S754_infinity _ => true | _ => false end.
Definition is_nan (x : spec_float) : bool :=
  match x with S754_nan => true | _ => false end.

(** The integer nearest to [q], halves going to the even neighbour. *)
Definition round_half_even (q : Q) : Z :=
  let f := Qfloor q in
  match ((q - inject_Z f) ?= (1 # 2))%Q with
  | Lt => f
  | Gt => f + 1
  | Eq => if Z.even f then f else f + 1
  end.

(** [round(x, ndigits)] for [0 ≤ ndigits]: the exact value of [x] is
    rounded to [ndigits] decimal digits, halves to the even digit, and
    the decimal number obtained is converted to the nearest double.
    Zeros, infinities and NaN are returned as they are. *)
Definition round_digits (ndigits : Z) (x : spec_float) : spec_float :=
  match x with
  | S754_finite s m e =>
      nearest s
        (round_half_even (inject_Z (Zpos m) * 2 ^ e * inject_Z (10 ^ ndigits))%Q)
        (10 ^ ndigits)
  | _ => x
  end.

End Float.

(** ** External services *)

(** The part of speech passed to [WordNetLemmatizer.lemmatize]. *)
Inductive pos_tag := DefaultPos | NOUN | VERB.

Class NLTK := {
  lemmatize : string → pos_tag → string;
  word_tokenize : string → list string;
  sent_tokenize : string → list string
}.

(** The order in which a process iterates over the set built by adding
    the strings of [l] one after the other.  The language promises the
    elements of [l], each once, and nothing about their order. *)
Class HashOrder := { set_iter : list string → list string }.

Definition set_order_ok (o : HashOrder) : Prop :=
  ∀ l, NoDup (set_iter l) ∧ ∀ x, x ∈ set_iter l ↔ x ∈ l.

(** [sorted] and [list.sort]: a stable sort for a comparison [leb]. *)
Section Sort.
Context {A : Type} (leb : A → A → bool).

Fixpoint insert_sorted (x : A) (l : list A) : list A :=
  match l with
  | [] => [x]
  | y :: l' => if leb x y then x :: l else y :: insert_sorted x l'
  end.

Definition stable_sort (l : list A) : list A := foldr insert_sorted [] l.
End Sort.

(** ** Token normalization (the same text in both classes) *)

Section Normalize.
Context `{NLTK} `{HashOrder}.

(** generate all root for a word *)
Definition find_root (word : string) : list string :=
  set_iter [lemmatize word DefaultPos; lemmatize word NOUN; lemmatize word VERB].

Definition normalize_token (token : string) : list string :=
  let token := Py.lower token in
  let token := Py.replace "s'" "" (Py.replace "'s" "" token) in
  if Re.fullmatch_abbreviation token then [Py.replace "." "" token]
  else if Py.isdigit token then [token]
  else if Py.contains_char "-" token then
    let splited_token := Py.split "-" token in
    if (String.length (hd EmptyString splited_token) <? 3)%nat
    then find_root token
    else flat_map (λ i, if Py.isalnum i then find_root i else []) splited_token
  else if Py.isalnum token then find_root token
  else [].
End Normalize.

(** A posting [[id, position, n]] of the inverted index. *)
Record posting := Posting { p_id : string; p_pos : Z; p_line : Z }.

Global Instance posting_eq_dec : EqDecision posting.
Proof. solve_decision. Defined.

(** ** index.py *)

Module FileProcess.

Record state := State {
  inverted_index : gmap string (list posting);
  unique_words : gset string;
  num_file : nat
}.

(** [FileProcess.__init__] *)
Definition init : state :=
  {| inverted_index := ∅; unique_words := ∅; num_file := 0 |}.

(** What [build_index] reads of a folder: [os.listdir], and for a name
    [None] when it is not a regular file, else the lines
    [f.read().splitlines()] of its decoded text. *)
Record folder := Folder {
  listdir : list string;
  read_lines : string → option (list string)
}.

Section Build.
Context `{NLTK} `{HashOrder}.

Definition preprocess_sentence (sentence : string) : string :=
  Re.sub_thousands (Re.sub_possessive sentence).

Definition tokenize_sentence (sentence : string) : list string :=
  flat_map normalize_token (word_tokenize sentence).

(** The body of the innermost loop of [file_index]. *)
Definition add_posting (id : string) (n : nat)
    (acc : state * Z) (t : string) : state * Z :=
  let '(st, position) := acc in
  let idx := inverted_index st in
  ({| inverted_index :=
        <[t := (default [] (idx !! t) ++ [Posting id position (Z.of_nat n)])%list]> idx;
      unique_words := {[t]} ∪ unique_words st;
      num_file := num_file st |},
   position + 1).

Definition index_sentence (id : string) (n : nat)
    (acc : state * Z) (cur : string) : state * Z :=
  foldl (add_posting id n) acc (tokenize_sentence (preprocess_sentence cur)).

Definition index_line (id : string)
    (acc : state * Z) (nl : nat * string) : state * Z :=
  foldl (index_sentence id nl.1) acc (sent_tokenize nl.2).

Definition enumerate (lines : list string) : list (nat * string) :=
  imap (λ n line, (n, line)) lines.

Definition file_index (id : string) (lines : list string) (st : state) : state :=
  (foldl (index_line id) (st, 0) (enumerate lines)).1.

Definition sorted (names : list string) : list string :=
  stable_sort String.leb names.

(** The loop of [build_index]; the copy of each file into the index
    folder is the text [file_index] reads. *)
Definition build_step (d : folder) (st : state) (name : string) : state :=
  match read_lines d name with
  | None => st
  | Some lines =>
      let st' := file_index name lines st in
      {| inverted_index := inverted_index st';
         unique_words := unique_words st';
         num_file := S (num_file st') |}
  end.

Definition build_index (d : folder) (st : state) : state :=
  foldl (build_step d) st (sorted (listdir d)).

(** The three totals printed at the end of [build_index]. *)
Definition total_tokens (st : state) : nat :=
  map_fold (λ _ v n, (length v + n)%nat) O (inverted_index st).
Definition total_terms (st : state) : nat := size (inverted_index st).
End Build.

End FileProcess.

(** ** search.py *)

(** A dictionary whose iteration order is observed: keys in the order
    of their first insertion. *)
Module Dict.
Section Dict.
Context {V : Type}.

Fixpoint get (d : list (string * V)) (k : string) : option V :=
  match d with
  | [] => None
  | (k', v) :: d' => if decide (k' = k) then Some v else get d' k
  end.

(** [d[k] = f(d[k])] where a missing [k] is first created with [dflt]
    (a [defaultdict]); a new key goes last. *)
Fixpoint update (k : string) (dflt : V) (f : V → V) (d : list (string * V))
    : list (string * V) :=
  match d with
  | [] => [(k, f dflt)]
  | (k', v) :: d' =>
      if decide (k' = k) then (k', f v) :: d'
      else (k', v) :: update k dflt f d'
  end.

Definition keys (d : list (string * V)) : list string := d.*1.
End Dict.
End Dict.

(** [list(dict.fromkeys(terms))] *)
Definition dict_fromkeys (terms : list string) : list string :=
  foldl (λ d k, if decide (k ∈ d) then d else (d ++ [k])%list) [] terms.

Module SearchEngine.

(** The float literals [1.0] and [0.1]: the doubles nearest to the
    decimal numbers written. *)
Definition ALPHA : spec_float := Float.nearest false 1 1.
Definition BETA : spec_float := Float.nearest false 1 1.
Definition GAMMA : spec_float := Float.nearest false 1 10.

Inductive exn :=
  ValueError | ZeroDivisionError | OverflowError | AssertionError
| AttributeError | IndexError.

Inductive result (A : Type) := Ok (a : A) | Raise (e : exn).
Arguments Ok {A} a.
Arguments Raise {A} e.

(** Statements in sequence: the first exception raised ends the run. *)
Global Instance result_bind : MBind result :=
  λ A B (f : A → result B) (r : result A),
    match r with Ok a => f a | Raise e => Raise e end.

(** [a / b] for two [int]s: the nearest double to the quotient. *)
Definition int_truediv (a b : Z) : result spec_float :=
  if decide (b = 0) then Raise ZeroDivisionError
  else
    let f := Float.nearest (xorb (a <? 0) (b <? 0)) (Z.abs a) (Z.abs b) in
    if Float.is_infinite f then Raise OverflowError else Ok f.

(** The conversion of an [int] operand of a float operation. *)
Definition float_of_int (n : Z) : result spec_float :=
  let f := Float.nearest (n <? 0) (Z.abs n) 1 in
  if Float.is_infinite f then Raise OverflowError else Ok f.

(** [x / y] for two [float]s. *)
Definition float_truediv (x y : spec_float) : result spec_float :=
  if Float.is_zero y then Raise ZeroDivisionError else Ok (Float.div x y).

(** The loaded index and the documents of the [doc] sub-folder: for an
    id, [None] when [os.path.isfile] fails, else [f.readlines()]. *)
Record engine := Engine {
  inverted_index : gmap string (list posting);
  doc : string → option (list string)
}.

(** An element of [ranked]: id, score and the chosen position of each
    matched term ([None] is Python's [None]). *)
Definition entry : Type := string * spec_float * option (gmap string Z).

(** [itertools.product] over the lists: the last list varies fastest. *)
Fixpoint product (lists : list (list Z)) : list (list Z) :=
  match lists with
  | [] => [[]]
  | l :: rest => x ← l; c ← product rest; [x :: c]
  end.

(** [dict(zip(match_word, c))]: a later pair replaces an earlier one. *)
Definition dict_zip (match_word : list string) (c : list Z) : gmap string Z :=
  foldl (λ d kv, <[kv.1 := kv.2]> d) ∅ (zip match_word c).

(** [sum(c[i + 1] - c[i] - 1 for i in range(len(c) - 1))] *)
Fixpoint sum_intervals (c : list Z) : Z :=
  match c with
  | a :: (b :: _) as t => (b - a - 1) + sum_intervals t
  | _ => 0
  end.

(** The count of ordered pairs over the original [search_term]. *)
Fixpoint count_pairs (position_dic : gmap string Z) (search_term : list string) : Z :=
  match search_term with
  | term1 :: (term2 :: _) as rest =>
      (match position_dic !! term1, position_dic !! term2 with
       | Some p1, Some p2 => if p1 <? p2 then 1 else 0
       | _, _ => 0
       end) + count_pairs position_dic rest
  | _ => 0
  end.

(** The three variables the loop of [shortest_distance] updates;
    [best_distance = None] is [float("inf")]. *)
Record best := Best {
  best_distance : option Z;
  max_number : Z;
  best_position : option (gmap string Z)
}.

Definition better (sum_int pairs_num : Z) (b : best) : bool :=
  match best_distance b with
  | None => true
  | Some d => (sum_int <? d) || (sum_int =? d) && (max_number b <? pairs_num)
  end.

Definition try_combination (search_term match_word : list string)
    (b : best) (c : list Z) : best :=
  let position_dic := dict_zip match_word c in
  let c := stable_sort Z.leb c in
  let sum_int := sum_intervals c in
  let pairs_num := count_pairs position_dic search_term in
  if better sum_int pairs_num b
  then Best (Some sum_int) pairs_num (Some position_dic)
  else b.

(** [best_distance / max(len(match_word) - 1, 1)]: the division of two
    [int]s, or of [float("inf")] by an [int] when no combination was
    seen. *)
Definition shortest_distance (search_term : list string)
    (position : gmap string (list Z))
    : result (spec_float * Z * option (gmap string Z)) :=
  let match_word := filter (λ t, is_Some (position !! t)) search_term in
  let match_list := (λ t, default [] (position !! t)) <$> match_word in
  match match_word with
  | [] => Ok (Float.inf, 0, Some ∅)
  | _ =>
      let b := foldl (try_combination search_term match_word)
                     (Best None (-1) None) (product match_list) in
      let n := Z.max (Z.of_nat (length match_word) - 1) 1 in
      avg_distance ←
        match best_distance b with
        | None => y ← float_of_int n; float_truediv Float.inf y
        | Some d => int_truediv d n
        end;
      Ok (avg_distance, max_number b, best_position b)
  end.

(** [round(x, 10)] *)
Definition round10 (x : spec_float) : spec_float := Float.round_digits 10 x.

(** [k1 < k2] for two keys [(-round(score, 10), int(id))]: tuples are
    compared at their first components that are not equal. *)
Definition key_lt (k1 k2 : spec_float * Z) : bool :=
  if Float.eqb k1.1 k2.1 then k1.2 <? k2.2 else Float.ltb k1.1 k2.1.

(** [list.sort] is stable and compares with [<] only: an element stays
    before a later one unless the later one is less. *)
Definition key_leb (k1 k2 : spec_float * Z) : bool := negb (key_lt k2 k1).

Definition nl : string := String (ascii_of_nat 10) EmptyString.

Section Search.
Context `{NLTK} `{HashOrder}.

Definition preprocess_sentence (sentence : string) : list string :=
  let sentence := Re.sub_possessive sentence in
  let sentence := Re.sub_thousands sentence in
  let terms := flat_map normalize_token (word_tokenize sentence) in
  dict_fromkeys terms.

(** The lines [print_match] collects for [chosen]. *)
Definition collect_lines (self : engine) (id : string)
    (chosen : gmap string Z) : gset Z :=
  foldl (λ line_id tp,
           foldl (λ line_id (r : posting),
                    if decide (p_id r = id ∧ p_pos r = tp.2)
                    then {[p_line r]} ∪ line_id else line_id)
                 line_id (default [] (inverted_index self !! tp.1)))
        ∅ (map_to_list chosen).

Definition print_line (lines : list string) (i : Z) : list string :=
  if decide (0 ≤ i < Z.of_nat (length lines)) then
    match lines !! Z.to_nat i with
    | Some line => [if Py.endswith_char (ascii_of_nat 10) line then line else line ++ nl]
    | None => []
    end
  else [].

Definition print_match (self : engine) (id : string)
    (chosen : option (gmap string Z)) : result (list string) :=
  match doc self id with
  | None => Ok []
  | Some lines =>
      match chosen with
      | None => Raise AttributeError
      | Some chosen =>
          let line_id := collect_lines self id chosen in
          Ok (flat_map (print_line lines) (stable_sort Z.leb (elements line_id)))
      end
  end.

(** The grouping loop: [match[id][t].append((pos, line))]. *)
Definition match_dict : Type := list (string * list (string * list (Z * Z))).

Definition add_match (t : string) (m : match_dict) (r : posting) : match_dict :=
  Dict.update (p_id r) []
    (Dict.update t [] (λ l, (l ++ [(p_pos r, p_line r)])%list)) m.

Definition group_matches (self : engine) (search_term : list string) : match_dict :=
  foldl (λ m t,
           match inverted_index self !! t with
           | Some rows => foldl (add_match t) m rows
           | None => m
           end) [] search_term.

(** The positions of each matched term of one document. *)
Definition positions_of (pos : list (string * list (Z * Z))) : gmap string (list Z) :=
  foldl (λ d t, <[t := (default [] (Dict.get pos t)).*1]> d) ∅ (Dict.keys pos).

(** [cur_score], [pairs_num] and [chosen] of one document.  With one
    matched term [cur_score] is the [int] 0, which the product by
    [BETA] converts to the float 0.0. *)
Definition window_score (search_term : list string)
    (pos : list (string * list (Z * Z)))
    : result (spec_float * Z * option (gmap string Z)) :=
  if decide (length (Dict.keys pos) = 1%nat) then
    match pos with
    | (t, (p, _) :: _) :: _ => Ok (Float.zero, 0, Some ({[t := p]} : gmap string Z))
    | _ => Raise IndexError
    end
  else
    '(avg_distance, pairs_num, chosen) ←
      shortest_distance search_term (positions_of pos);
    cur_score ← float_truediv Float.one (Float.add Float.one avg_distance);
    Ok (cur_score, pairs_num, chosen).

(** The body of the scoring loop for one document. *)
Definition score_document (search_term : list string)
    (id : string) (pos : list (string * list (Z * Z))) : result entry :=
  let match_term := Dict.keys pos in
  coverage ← int_truediv (Z.of_nat (length match_term))
                         (Z.of_nat (length search_term));
  '(cur_score, pairs_num, chosen) ← window_score search_term pos;
  pairs ← float_of_int pairs_num;
  Ok (id,
      Float.add (Float.add (Float.mul ALPHA coverage) (Float.mul BETA cur_score))
                (Float.mul GAMMA pairs),
      chosen).

Fixpoint score_all (search_term : list string) (m : match_dict)
    : result (list entry) :=
  match m with
  | [] => Ok []
  | (id, pos) :: m' =>
      match score_document search_term id pos with
      | Raise e => Raise e
      | Ok x =>
          match score_all search_term m' with
          | Raise e => Raise e
          | Ok temp_rank => Ok (x :: temp_rank)
          end
      end
  end.

(** remove duplicate keep the highest score *)
Fixpoint unique_put (x : entry) (unique : list entry) : list entry :=
  match unique with
  | [] => [x]
  | y :: unique' =>
      if decide (y.1.1 = x.1.1)
      then (if Float.ltb y.1.2 x.1.2 then x else y) :: unique'
      else y :: unique_put x unique'
  end.

Definition dedup (temp_rank : list entry) : list entry :=
  foldl (λ unique x, unique_put x unique) [] temp_rank.

(** The sort key of each element, or [ValueError] from [int]. *)
Fixpoint sort_keys (ranked : list entry)
    : option (list ((spec_float * Z) * entry)) :=
  match ranked with
  | [] => Some []
  | x :: rest =>
      n ← Py.int x.1.1;
      ks ← sort_keys rest;
      Some (((Float.opp (round10 x.1.2), n), x) :: ks)
  end.

Definition sort_ranked (ranked : list entry) : result (list entry) :=
  match sort_keys ranked with
  | None => Raise ValueError
  | Some ks => Ok (stable_sort (λ a b, key_leb a.1 b.1) ks).*2
  end.

(** The output loop: what is printed, and how the loop ends. *)
Fixpoint output (self : engine) (match_line : bool) (printed : gset string)
    (ranked : list entry) : list string * result unit :=
  match ranked with
  | [] => ([], Ok ())
  | (id, score, chosen) :: rest =>
      if decide (id ∈ printed) then ([], Raise AssertionError)
      else
        let printed := {[id]} ∪ printed in
        if match_line then
          match print_match self id chosen with
          | Raise e => (["> " ++ id ++ nl], Raise e)
          | Ok ls =>
              let '(out, r) := output self match_line printed rest in
              (((("> " ++ id ++ nl)%string :: ls) ++ out)%list, r)
          end
        else
          let '(out, r) := output self match_line printed rest in
          ((id ++ nl) :: out, r)
  end.

(** [search]: the text written to standard output, and the value
    returned or the exception raised. *)
Definition search (self : engine) (origin_query : string)
    : list string * result (list entry) :=
  let match_line := Py.startswith_char ">" origin_query in
  let query := if match_line then Py.strip (Py.tail origin_query)
               else Py.strip origin_query in
  let search_term := preprocess_sentence query in
  match search_term with
  | [] => ([], Ok [])
  | _ =>
      let m := group_matches self search_term in
      match score_all search_term m with
      | Raise e => ([], Raise e)
      | Ok temp_rank =>
          let unique := dedup temp_rank in
          match sort_ranked unique with
          | Raise e => ([], Raise e)
          | Ok ranked =>
              match output self match_line ∅ ranked with
              | (out, Raise e) => (out, Raise e)
              | (out, Ok _) => (out, Ok ranked)
              end
          end
      end
  end.
End Search.

End SearchEngine.

(** ** A small corpus and two processes, for concrete runs *)

Module Example.

(** A lemmatizer that knows one word, and tokenizers that split on
    blanks and take a line as one sentence. *)
Definition toy_lemmatize (w : string) (p : pos_tag) : string :=
  if decide (w = "leaves")
  then match p with VERB => "leave" | _ => "leaf" end
  else w.

Definition toy_words (s : string) : list string :=
  filter (λ w, w ≠ EmptyString) (Py.split " " s).

Definition toy_sents (s : string) : list string :=
  if decide (s = EmptyString) then [] else [s].

Definition toy : NLTK :=
  {| lemmatize := toy_lemmatize; word_tokenize := toy_words;
     sent_tokenize := toy_sents |}.

(** Two processes: one iterates a set in first-insertion order, the
    other in the reverse order. *)
Definition first_seen : HashOrder := {| set_iter := dict_fromkeys |}.
Definition last_seen : HashOrder := {| set_iter := λ l, reverse (dict_fromkeys l) |}.

Definition corpus_files (name : string) : option (list string) :=
  if decide (name = "1") then Some ["leaves fall"; "the quick brown fox"]
  else if decide (name = "2") then Some ["leave leaf"; "fox quick fall"]
  else if decide (name = "10") then Some ["fall"]
  else None.

Definition corpus : FileProcess.folder :=
  FileProcess.Folder ["2"; "10"; "1"; "sub"] corpus_files.

Definition built : FileProcess.state :=
  @FileProcess.build_index toy first_seen corpus FileProcess.init.

Definition engine : SearchEngine.engine :=
  SearchEngine.Engine (FileProcess.inverted_index built) corpus_files.

(** A folder whose only document is named "doc1". *)
Definition named_files (name : string) : option (list string) :=
  if decide (name = "doc1") then Some ["The quick brown fox"] else None.

Definition named_engine : SearchEngine.engine :=
  SearchEngine.Engine
    (FileProcess.inverted_index
       (@FileProcess.build_index toy first_seen
          (FileProcess.Folder ["doc1"] named_files) FileProcess.init))
    named_files.

End Example.

(** * Properties *)

(** ** The stable sort *)

Section SortFacts.
Context {A : Type} (leb : A → A → bool).
Hypothesis leb_total : ∀ x y, leb x y = true ∨ leb y x = true.
Hypothesis leb_trans : ∀ x y z, leb x y = true → leb y z = true → leb x z = true.

Lemma insert_sorted_perm x l : insert_sorted leb x l ≡ₚ x :: l.
Proof.
  induction l as [|y l IH]; simpl; [done|].
  destruct (leb x y); [done|].
  rewrite IH. apply Permutation_swap.
Qed.

Lemma stable_sort_perm l : stable_sort leb l ≡ₚ l.
Proof.
  induction l as [|x l IH]; simpl; [done|].
  fold (stable_sort leb l). by rewrite insert_sorted_perm, IH.
Qed.

Lemma insert_sorted_StronglySorted x l :
  StronglySorted (λ a b, leb a b = true) l →
  StronglySorted (λ a b, leb a b = true) (insert_sorted leb x l).
Proof using leb_total leb_trans.
  induction 1 as [|y l Hl IH Hy]; simpl.
  - repeat constructor.
  - destruct (leb x y) eqn:Hxy.
    + constructor; [by constructor|].
      constructor; [done|].
      eapply Forall_impl; [exact Hy|]. intros z Hz. by eapply leb_trans.
    + constructor; [done|].
      rewrite insert_sorted_perm. constructor; [|done].
      destruct (leb_total x y); congruence.
Qed.

Lemma stable_sort_StronglySorted l :
  StronglySorted (λ a b, leb a b = true) (stable_sort leb l).
Proof using leb_total leb_trans.
  induction l as [|x l IH]; simpl; [constructor|].
  by apply insert_sorted_StronglySorted.
Qed.
End SortFacts.

(** The same for an order that is total and transitive on the elements
    that satisfy [P] only. *)
Section SortOn.
Context {A : Type} (leb : A → A → bool) (P : A → Prop).
Hypothesis leb_total : ∀ x y, P x → P y → leb x y = true ∨ leb y x = true.
Hypothesis leb_trans :
  ∀ x y z, P x → P y → P z → leb x y = true → leb y z = true → leb x z = true.

Lemma insert_sorted_StronglySorted_on x l :
  P x → Forall P l →
  StronglySorted (λ a b, leb a b = true) l →
  StronglySorted (λ a b, leb a b = true) (insert_sorted leb x l).
Proof using leb_total leb_trans.
  intros Hx HP. induction 1 as [|y l Hl IH Hy]; simpl.
  - repeat constructor.
  - apply Forall_cons in HP as [HPy HPl]. destruct (leb x y) eqn:Hxy.
    + constructor; [by constructor|].
      constructor; [done|].
      rewrite Forall_forall in Hy, HPl. apply Forall_forall. intros z Hz.
      eapply leb_trans; [| |apply HPl, Hz|exact Hxy|by apply Hy]; done.
    + constructor; [by apply IH|].
      rewrite insert_sorted_perm. constructor; [|done].
      destruct (leb_total x y); [done..|congruence|done].
Qed.

Lemma stable_sort_StronglySorted_on l :
  Forall P l → StronglySorted (λ a b, leb a b = true) (stable_sort leb l).
Proof using leb_total leb_trans.
  induction 1 as [|x l Hx Hl IH]; simpl; [constructor|].
  apply insert_sorted_StronglySorted_on; [done| |done].
  fold (stable_sort leb l). by rewrite stable_sort_perm.
Qed.
End SortOn.

(** ** [dict.fromkeys] *)

(** The terms of [terms] that do not occur earlier in [terms], in the
    order of [terms]. *)
Definition first_occurrences (terms : list string) : list string :=
  concat (imap (λ i t, if decide (t ∈ take i terms) then [] else [t]) terms).

Definition fromkeys_step (d : list string) (k : string) : list string :=
  if decide (k ∈ d) then d else (d ++ [k])%list.

Lemma fromkeys_foldl (pre l d : list string) :
  (∀ x, x ∈ d ↔ x ∈ pre) →
  foldl fromkeys_step d l =
  (d ++ concat (imap (λ i t, if decide (t ∈ take (length pre + i) (pre ++ l))
                             then [] else [t]) l))%list.
Proof.
  revert pre d. induction l as [|x l IH]; intros pre d Hd; simpl.
  { by rewrite app_nil_r. }
  rewrite Nat.add_0_r, take_app_length.
  assert (Hext : ∀ d', (∀ y, y ∈ d' ↔ y ∈ (pre ++ [x])%list) →
    foldl fromkeys_step d' l =
    (d' ++ concat (imap ((λ i t, if decide (t ∈ take (length pre + i) (pre ++ x :: l))
                                 then [] else [t]) ∘ S) l))%list).
  { intros d' Hd'. rewrite (IH (pre ++ [x])%list d' Hd').
    f_equal. f_equal. apply imap_ext. intros i t _. simpl.
    rewrite length_app. simpl.
    replace (length pre + 1 + i)%nat with (length pre + S i)%nat by lia.
    by rewrite <- app_assoc. }
  unfold fromkeys_step at 2.
  destruct (decide (x ∈ d)) as [Hin|Hin]; destruct (decide (x ∈ pre)) as [Hp|Hp];
    try (apply Hd in Hin; done); try (apply Hd in Hp; done).
  - simpl. apply Hext. intros y. rewrite elem_of_app, list_elem_of_singleton.
    rewrite Hd. naive_solver.
  - rewrite Hext.
    + by rewrite <- app_assoc.
    + intros y. rewrite !elem_of_app, Hd. done.
Qed.

Lemma dict_fromkeys_first_occurrences terms :
  dict_fromkeys terms = first_occurrences terms.
Proof.
  unfold dict_fromkeys, first_occurrences.
  change (foldl fromkeys_step [] terms = concat
    (imap (λ i t, if decide (t ∈ take i terms) then [] else [t]) terms)).
  by rewrite (fromkeys_foldl [] terms []).
Qed.

Lemma fromkeys_foldl_NoDup l d : NoDup d → NoDup (foldl fromkeys_step d l).
Proof.
  revert d. induction l as [|x l IH]; intros d Hd; simpl; [done|].
  apply IH. unfold fromkeys_step. destruct (decide (x ∈ d)); [done|].
  apply NoDup_app. split_and!; [done| |apply NoDup_singleton].
  intros y Hy ->%list_elem_of_singleton. done.
Qed.

Lemma fromkeys_foldl_elem l d x :
  x ∈ foldl fromkeys_step d l ↔ x ∈ d ∨ x ∈ l.
Proof.
  revert d. induction l as [|y l IH]; intros d; simpl.
  { rewrite elem_of_nil. naive_solver. }
  rewrite IH, elem_of_cons. unfold fromkeys_step.
  destruct (decide (y ∈ d)).
  - naive_solver.
  - rewrite elem_of_app, list_elem_of_singleton. naive_solver.
Qed.

Lemma dict_fromkeys_NoDup terms : NoDup (dict_fromkeys terms).
Proof. apply (fromkeys_foldl_NoDup terms []). constructor. Qed.

Lemma dict_fromkeys_elem terms x : x ∈ dict_fromkeys terms ↔ x ∈ terms.
Proof.
  unfold dict_fromkeys. change (x ∈ foldl fromkeys_step [] terms ↔ x ∈ terms).
  rewrite fromkeys_foldl_elem, elem_of_nil. naive_solver.
Qed.

(** C9. The query term list [preprocess_sentence] returns has no
    duplicate; it holds exactly the terms emitted by normalization, and
    each stands where its first occurrence stands among the emitted
    terms: it is the list of first occurrences, in emission order. *)
Theorem query_terms_deduplicated `{NLTK} `{HashOrder} (text : string) :
  let terms := flat_map normalize_token
                 (word_tokenize (Re.sub_thousands (Re.sub_possessive text))) in
  let Q := SearchEngine.preprocess_sentence text in
  NoDup Q ∧ (∀ t, t ∈ Q ↔ t ∈ terms) ∧ Q = first_occurrences terms.
Proof.
  intros terms Q. subst Q. unfold SearchEngine.preprocess_sentence. fold terms.
  split_and!.
  - apply dict_fromkeys_NoDup.
  - intros t. apply dict_fromkeys_elem.
  - apply dict_fromkeys_first_occurrences.
Qed.

(** ** The order of strings *)

Lemma string_leb_trans (s1 s2 s3 : string) :
  String.leb s1 s2 = true → String.leb s2 s3 = true → String.leb s1 s3 = true.
Proof.
  unfold String.leb. revert s2 s3.
  induction s1 as [|a s1 IH]; intros [|b s2] [|c s3]; simpl; try done.
  unfold Ascii.compare.
  destruct (N.compare_spec (N_of_ascii a) (N_of_ascii b)) as [Hab|Hab|Hab];
    destruct (N.compare_spec (N_of_ascii b) (N_of_ascii c)) as [Hbc|Hbc|Hbc];
    try done.
  - rewrite Hab, Hbc, N.compare_refl. apply IH.
  - rewrite Hab. intros _ _. by apply N.compare_lt_iff in Hbc as ->.
  - rewrite <- Hbc. intros _ _. by apply N.compare_lt_iff in Hab as ->.
  - intros _ _. assert (Hac : (N_of_ascii a < N_of_ascii c)%N) by lia.
    by apply N.compare_lt_iff in Hac as ->.
Qed.

(** ** The index builder *)

Section BuildFacts.
Context `{NLTK} `{HashOrder}.
Import FileProcess.

(** The terms a line emits, sentence after sentence. *)
Definition line_terms (line : string) : list string :=
  flat_map (λ cur, tokenize_sentence (preprocess_sentence cur))
           (sent_tokenize line).

(** The terms a document emits, each with its line number. *)
Definition file_terms (lines : list string) : list (string * nat) :=
  flat_map (λ nl, (λ t, (t, nl.1)) <$> line_terms nl.2) (enumerate lines).

(** The postings a document emits, in emission order, when the
    position counter starts at [p]. *)
Definition emitted_from (id : string) (p : Z) (tns : list (string * nat))
    : list (string * posting) :=
  imap (λ i tn, (tn.1, Posting id (p + Z.of_nat i) (Z.of_nat tn.2))) tns.

Definition emitted (id : string) (lines : list string) : list (string * posting) :=
  emitted_from id 0 (file_terms lines).

(** The postings of term [t] in a stream of emitted postings. *)
Definition postings_of (t : string) (stream : list (string * posting)) : list posting :=
  (filter (λ e, e.1 = t) stream).*2.

(** The regular files of a folder, in the order [build_index] takes them. *)
Definition processed (d : folder) : list (string * list string) :=
  omap (λ name, (λ lines, (name, lines)) <$> read_lines d name)
       (sorted (listdir d)).

Lemma foldl_flat_map {A B C} (f : A → B → A) (g : C → list B) (a : A) (l : list C) :
  foldl f a (flat_map g l) = foldl (λ a x, foldl f a (g x)) a l.
Proof.
  revert a. induction l as [|x l IH]; intros a; simpl; [done|].
  by rewrite foldl_app, IH.
Qed.

(** The nested loops of [file_index] are one loop over [file_terms]. *)
Lemma file_index_flat id lines acc :
  foldl (index_line id) acc (enumerate lines) =
  foldl (λ acc tn, add_posting id tn.2 acc tn.1) acc (file_terms lines).
Proof.
  unfold file_terms. rewrite foldl_flat_map.
  generalize (enumerate lines). intros l. revert acc.
  induction l as [|[n line] l IH]; intros acc; simpl; [done|].
  rewrite <- IH. f_equal.
  unfold index_line, line_terms. simpl.
  rewrite foldl_fmap, foldl_flat_map. done.
Qed.

Lemma emitted_from_cons id p tn tns :
  emitted_from id p (tn :: tns) =
  (tn.1, Posting id p (Z.of_nat tn.2)) :: emitted_from id (p + 1) tns.
Proof.
  unfold emitted_from. rewrite imap_cons. f_equal.
  - by rewrite Z.add_0_r.
  - apply imap_ext. intros i x _. simpl. do 2 f_equal. lia.
Qed.

Lemma postings_of_cons t e stream :
  postings_of t (e :: stream) =
  if decide (e.1 = t) then e.2 :: postings_of t stream else postings_of t stream.
Proof.
  unfold postings_of. rewrite filter_cons. by destruct (decide (e.1 = t)).
Qed.

Lemma postings_of_app t s1 s2 :
  postings_of t (s1 ++ s2) = (postings_of t s1 ++ postings_of t s2)%list.
Proof. unfold postings_of. by rewrite filter_app, fmap_app. Qed.

(** One run of the innermost loop: the counter advances by the number
    of terms, and each term's list grows by its postings, in order. *)
Lemma add_postings_spec id tns st p :
  let r := foldl (λ acc tn, add_posting id tn.2 acc tn.1) (st, p) tns in
  r.2 = p + Z.of_nat (length tns) ∧
  num_file r.1 = num_file st ∧
  ∀ t, default [] (inverted_index r.1 !! t) =
       (default [] (inverted_index st !! t)
        ++ postings_of t (emitted_from id p tns))%list.
Proof.
  revert st p. induction tns as [|[t0 n] tns IH]; intros st p; simpl.
  { split_and!; [lia|done|]. intros t. by rewrite app_nil_r. }
  specialize (IH
    {| inverted_index :=
         <[t0 := (default [] (inverted_index st !! t0)
                  ++ [Posting id p (Z.of_nat n)])%list]> (inverted_index st);
       unique_words := {[t0]} ∪ unique_words st;
       num_file := num_file st |} (p + 1)).
  simpl in IH. destruct IH as (Hp & Hn & Hidx).
  split_and!; [lia|done|].
  intros t. rewrite Hidx, emitted_from_cons, postings_of_cons. simpl.
  destruct (decide (t0 = t)) as [->|Hne].
  - rewrite lookup_insert_eq. simpl. by rewrite <- app_assoc.
  - by rewrite lookup_insert_ne.
Qed.

Lemma file_index_spec id lines st t :
  default [] (inverted_index (file_index id lines st) !! t) =
  (default [] (inverted_index st !! t) ++ postings_of t (emitted id lines))%list.
Proof.
  unfold file_index, emitted. rewrite file_index_flat.
  apply (add_postings_spec id (file_terms lines) st 0).
Qed.

(** The positions of the postings a document emits are 0, 1, 2, ... *)
Lemma emitted_positions id lines :
  (λ e, p_pos e.2) <$> emitted id lines =
  Z.of_nat <$> seq 0 (length (file_terms lines)).
Proof.
  unfold emitted, emitted_from. rewrite fmap_imap.
  rewrite <- (imap_seq_0 (file_terms lines) Z.of_nat).
  apply imap_ext. intros i x _. simpl. lia.
Qed.

Lemma emitted_ids id lines :
  Forall (λ e, p_id e.2 = id) (emitted id lines).
Proof.
  apply Forall_forall. intros e (i & y & -> & _)%elem_of_lookup_imap. done.
Qed.

Lemma seq_StronglySorted i n : StronglySorted Z.lt (Z.of_nat <$> seq i n).
Proof.
  revert i. induction n as [|n IH]; intros i; simpl; constructor; [apply IH|].
  apply Forall_forall. intros z (k & -> & Hk)%list_elem_of_fmap.
  apply elem_of_seq in Hk. lia.
Qed.

Lemma StronglySorted_sublist (R : relation Z) (l k : list Z) :
  sublist k l → StronglySorted R l → StronglySorted R k.
Proof.
  intros Hs Hl. revert k Hs. induction Hl as [|x l Hl IH Hx]; intros k Hs.
  - apply sublist_nil_r in Hs as ->. constructor.
  - apply sublist_cons_r in Hs as [Hs|(k' & -> & Hs)]; [by apply IH|].
    constructor; [by apply IH|].
    apply Forall_forall. intros y Hy. rewrite Forall_forall in Hx.
    apply Hx. by eapply elem_of_sublist.
Qed.

(** The postings one document adds to one term have strictly
    increasing positions. *)
Lemma postings_of_emitted_sorted id lines t :
  StronglySorted Z.lt (p_pos <$> postings_of t (emitted id lines)).
Proof.
  apply (StronglySorted_sublist _ ((λ e, p_pos e.2) <$> emitted id lines)).
  - unfold postings_of. rewrite <- list_fmap_compose.
    apply fmap_sublist, sublist_filter.
  - rewrite emitted_positions. apply seq_StronglySorted.
Qed.

(** The stream of postings of the whole corpus. *)
Definition corpus_stream (d : folder) : list (string * posting) :=
  flat_map (λ f, emitted f.1 f.2) (processed d).

Lemma build_index_spec (d : folder) (names : list string) (st : state) (t : string) :
  default [] (inverted_index (foldl (build_step d) st names) !! t) =
  (default [] (inverted_index st !! t)
   ++ postings_of t
        (flat_map (λ f, emitted f.1 f.2)
           (omap (λ name, (λ lines, (name, lines)) <$> read_lines d name) names)))%list.
Proof.
  revert st. induction names as [|name names IH]; intros st; simpl.
  { by rewrite app_nil_r. }
  rewrite IH. unfold build_step.
  destruct (read_lines d name) as [lines|]; simpl; [|done].
  by rewrite file_index_spec, postings_of_app, app_assoc.
Qed.

Lemma sorted_names_StronglySorted names :
  StronglySorted (λ a b, String.leb a b = true) (sorted names).
Proof.
  apply stable_sort_StronglySorted.
  - apply String.leb_total.
  - apply string_leb_trans.
Qed.

Lemma processed_names (d : folder) :
  sublist (processed d).*1 (sorted (listdir d)).
Proof.
  unfold processed. generalize (sorted (listdir d)). intros l.
  induction l as [|name l IH]; simpl; [done|].
  destruct (read_lines d name); simpl.
  - by apply sublist_skip.
  - by apply sublist_cons.
Qed.
End BuildFacts.

Lemma StronglySorted_lt_le (l : list Z) :
  StronglySorted Z.lt l → StronglySorted Z.le l.
Proof.
  induction 1 as [|x l Hl IH Hx]; constructor; [done|].
  eapply Forall_impl; [exact Hx|]. intros y Hy. simpl in Hy. lia.
Qed.

Lemma postings_of_flat_map {A} (g : A → list (string * posting)) t (l : list A) :
  postings_of t (flat_map g l) = concat ((λ x, postings_of t (g x)) <$> l).
Proof.
  induction l as [|x l IH]; simpl; [done|].
  by rewrite postings_of_app, IH.
Qed.

(** C10. Indexing one document emits a stream of postings, and appends
    to each term's list the postings of that term in stream order; the
    position counter ends at the number of emitted postings, and the
    positions along the stream are 0, 1, 2, ...: strictly increasing in
    emission order and pairwise distinct, whatever the terms. *)
Theorem file_positions_strictly_increasing `{NLTK} `{HashOrder}
    (id : string) (lines : list string) (st : FileProcess.state) :
  let run := foldl (FileProcess.index_line id) (st, 0) (FileProcess.enumerate lines) in
  let stream := emitted id lines in
  let positions := (λ e, p_pos e.2) <$> stream in
  FileProcess.file_index id lines st = run.1 ∧
  (∀ t, default [] (FileProcess.inverted_index run.1 !! t) =
        (default [] (FileProcess.inverted_index st !! t) ++ postings_of t stream)%list) ∧
  run.2 = Z.of_nat (length stream) ∧
  positions = Z.of_nat <$> seq 0 (length stream) ∧
  StronglySorted Z.lt positions ∧
  NoDup positions.
Proof.
  intros run stream positions.
  assert (Hlen : length stream = length (file_terms lines)).
  { unfold stream, emitted, emitted_from. apply length_imap. }
  assert (Hpos : positions = Z.of_nat <$> seq 0 (length stream)).
  { unfold positions. rewrite Hlen. apply emitted_positions. }
  split_and!.
  - done.
  - intros t. apply (file_index_spec id lines st t).
  - unfold run. rewrite file_index_flat, Hlen.
    apply (add_postings_spec id (file_terms lines) st 0).
  - done.
  - rewrite Hpos. apply seq_StronglySorted.
  - rewrite Hpos. apply NoDup_fmap_2; [intros x y; apply Nat2Z.inj|apply NoDup_seq].
Qed.

(** C6. For every term of the index [build_index] builds from an empty
    state: the documents are taken in sorted file-name order (the
    regular files of the folder); the term's postings list is the
    concatenation, in that order, of the postings each document emits
    for the term, in occurrence order; within a document the postings
    carry its id and non-decreasing positions.  Across documents the
    list is not sorted by position: the corpus [Example.corpus] gives
    the term "fall" the positions 2, 0 and 4. *)
Theorem postings_order :
  (∀ (N : NLTK) (O : HashOrder) (d : FileProcess.folder) (t : string),
     let idx := FileProcess.inverted_index (FileProcess.build_index d FileProcess.init) in
     let per_doc := λ f : string * list string, postings_of t (emitted f.1 f.2) in
     StronglySorted (λ a b, String.leb a b = true) (processed d).*1 ∧
     (processed d).*1 =
       filter (λ name, is_Some (FileProcess.read_lines d name))
              (FileProcess.sorted (FileProcess.listdir d)) ∧
     default [] (idx !! t) = concat (per_doc <$> processed d) ∧
     Forall (λ f, Forall (λ p, p_id p = f.1) (per_doc f) ∧
                  StronglySorted Z.le (p_pos <$> per_doc f)) (processed d)) ∧
  (p_pos <$> default [] (FileProcess.inverted_index Example.built !! "fall") = [2; 0; 4] ∧
   ¬ Sorted Z.le
       (p_pos <$> default [] (FileProcess.inverted_index Example.built !! "fall"))).
Proof.
  split.
  - intros N O d t idx per_doc. split_and!.
    + assert (Hs : ∀ l k : list string, sublist k l →
        StronglySorted (λ a b, String.leb a b = true) l →
        StronglySorted (λ a b, String.leb a b = true) k).
      { intros l k Hs Hl. revert k Hs.
        induction Hl as [|x l Hl IH Hx]; intros k Hs.
        - apply sublist_nil_r in Hs as ->. constructor.
        - apply sublist_cons_r in Hs as [Hs|(k' & -> & Hs)]; [by apply IH|].
          constructor; [by apply IH|].
          apply Forall_forall. intros y Hy. rewrite Forall_forall in Hx.
          apply Hx. by eapply elem_of_sublist. }
      eapply Hs; [apply processed_names|apply sorted_names_StronglySorted].
    + unfold processed. generalize (FileProcess.sorted (FileProcess.listdir d)).
      intros l. induction l as [|name l IH]; simpl; [done|].
      rewrite filter_cons.
      destruct (FileProcess.read_lines d name) as [lines|] eqn:Hr; simpl.
      * destruct (decide (is_Some (Some lines))) as [_|Hn]; [f_equal; apply IH|].
        destruct Hn. by eexists.
      * destruct (decide (is_Some (@None (list string)))) as [[? Hn]|_]; done.
    + unfold idx, FileProcess.build_index.
      rewrite build_index_spec. unfold FileProcess.init.
      cbn [FileProcess.inverted_index]. rewrite lookup_empty.
      cbn [default app].
      apply (postings_of_flat_map (λ f, emitted f.1 f.2)).
    + apply Forall_forall. intros [name lines] _. unfold per_doc. simpl. split.
      * unfold postings_of. apply Forall_forall.
        intros p (e & -> & He)%list_elem_of_fmap.
        apply list_elem_of_filter in He as [_ He].
        pose proof (emitted_ids name lines) as Hid.
        rewrite Forall_forall in Hid. by apply Hid.
      * apply StronglySorted_lt_le, postings_of_emitted_sorted.
  - assert (Hp : p_pos <$> default []
        (FileProcess.inverted_index Example.built !! "fall") = [2; 0; 4])
      by (vm_compute; reflexivity).
    split; [exact Hp|]. rewrite Hp.
    intros Hs. inversion Hs as [|? ? _ Hhd]. inversion Hhd. lia.
Qed.


(** ** The rounding of floats *)

Lemma digits2_pos_size (p : positive) : digits2_pos p = Pos.size p.
Proof. induction p; simpl; congruence. Qed.

Lemma digits2_pos_bounds (p : positive) :
  2 ^ (Zpos (digits2_pos p) - 1) ≤ Zpos p < 2 ^ Zpos (digits2_pos p).
Proof.
  rewrite digits2_pos_size.
  pose proof (Pos.size_le p) as Hle. pose proof (Pos.size_gt p) as Hgt.
  apply Pos2Z.pos_le_pos in Hle. apply Pos2Z.pos_lt_pos in Hgt.
  rewrite Pos2Z.inj_pow in Hle, Hgt.
  replace (Zpos (Pos.size p)) with (Z.succ (Zpos (Pos.size p) - 1)) in Hle by lia.
  rewrite Z.pow_succ_r in Hle by lia. lia.
Qed.

Lemma Zdigits2_nonneg (m : Z) : 0 ≤ Zdigits2 m.
Proof. destruct m; simpl; lia. Qed.

(** A number below [2 ^ j] has at most [j] digits. *)
Lemma Zdigits2_lt (m j : Z) : 0 ≤ m → 0 ≤ j → m < 2 ^ j → Zdigits2 m ≤ j.
Proof.
  intros Hm Hj Hlt. destruct m as [|p|p]; simpl; [lia| |lia].
  destruct (digits2_pos_bounds p) as [Hlo _].
  destruct (Z_le_gt_dec (Zpos (digits2_pos p)) j) as [|Hgt]; [done|].
  assert (2 ^ j ≤ 2 ^ (Zpos (digits2_pos p) - 1)) by (apply Z.pow_le_mono_r; lia).
  lia.
Qed.

Lemma Zdigits2_le (m j : Z) : 0 ≤ m → 0 ≤ j → m ≤ 2 ^ j → Zdigits2 m ≤ j + 1.
Proof.
  intros Hm Hj Hle. apply Zdigits2_lt; [lia..|].
  rewrite Z.pow_add_r, Z.pow_1_r by lia.
  assert (0 < 2 ^ j) by (apply Z.pow_pos_nonneg; lia). lia.
Qed.

Lemma Zdigits2_mono (a b : Z) : 0 < a → a ≤ b → Zdigits2 a ≤ Zdigits2 b.
Proof.
  intros Ha Hab. destruct a as [|p|p]; [lia| |lia]. destruct b as [|q|q]; [lia| |lia].
  simpl. destruct (digits2_pos_bounds p) as [Hlo _].
  destruct (digits2_pos_bounds q) as [_ Hhi].
  destruct (Z_le_gt_dec (Zpos (digits2_pos p)) (Zpos (digits2_pos q))) as [|Hgt]; [done|].
  assert (2 ^ Zpos (digits2_pos q) ≤ 2 ^ (Zpos (digits2_pos p) - 1))
    by (apply Z.pow_le_mono_r; lia).
  lia.
Qed.

(** [iter_pos f p] applies [f] [p] times. *)
Lemma iter_pos_invariant {A} (f : A → A) (P : Z → A → Prop) :
  (∀ j x, P j x → P (j + 1) (f x)) →
  ∀ p j x, P j x → P (j + Zpos p) (SpecFloat.iter_pos f p x).
Proof.
  intros Hstep. induction p as [p IH|p IH|]; intros j x Hx; simpl.
  - replace (j + Zpos p~1) with (j + 1 + Zpos p + Zpos p) by lia.
    apply IH, IH, Hstep, Hx.
  - replace (j + Zpos p~0) with (j + Zpos p + Zpos p) by lia.
    apply IH, IH, Hx.
  - apply Hstep, Hx.
Qed.

(** One step to the right: the mantissa is halved, the bit that leaves
    it is remembered, and so is whether an earlier one was set. *)
Lemma shr_1_spec (mrs : shr_record) :
  0 ≤ shr_m mrs →
  shr_m (shr_1 mrs) = shr_m mrs / 2 ∧
  shr_r (shr_1 mrs) = Z.odd (shr_m mrs) ∧
  shr_s (shr_1 mrs) = shr_r mrs || shr_s mrs.
Proof.
  destruct mrs as [[|[p|p|]|p] r s]; cbn [shr_m shr_r shr_s shr_1]; intros Hm;
    try lia; (split; [|done]).
  - done.
  - apply (Z.div_unique _ _ _ 1); lia.
  - apply (Z.div_unique _ _ _ 0); lia.
  - done.
Qed.

Lemma shr_m_iter (p : positive) (mrs : shr_record) :
  0 ≤ shr_m mrs →
  shr_m (SpecFloat.iter_pos shr_1 p mrs) = shr_m mrs / 2 ^ Zpos p.
Proof.
  intros Hm.
  pose proof (iter_pos_invariant shr_1
    (λ j x, 0 ≤ j ∧ 0 ≤ shr_m x ∧ shr_m x = shr_m mrs / 2 ^ j)) as Hinv.
  destruct (Hinv) with (p := p) (j := 0) (x := mrs) as (_ & _ & Heq).
  - intros j x (Hj & Hx & Heq). destruct (shr_1_spec x Hx) as (Hdiv & _).
    split; [lia|]. rewrite Hdiv, Heq. split.
    + apply Z.div_pos; [|lia]. apply Z.div_pos; [lia|]. apply Z.pow_pos_nonneg; lia.
    + rewrite Z.pow_add_r, Z.pow_1_r by lia.
      rewrite Z.div_div; [done| |lia].
      assert (0 < 2 ^ j) by (apply Z.pow_pos_nonneg; lia). lia.
  - split; [lia|]. split; [done|]. by rewrite Z.div_1_r.
  - by rewrite Z.add_0_l in Heq.
Qed.

(** The sign of a float that is a number. *)
Definition signed (s : bool) (f : spec_float) : Prop :=
  match f with
  | S754_nan => False
  | S754_zero s' | S754_infinity s' | S754_finite s' _ _ => s' = s
  end.

(** A float that is zero or above. *)
Definition nonneg (f : spec_float) : Prop :=
  match f with
  | S754_nan => False
  | S754_zero _ => True
  | S754_infinity s | S754_finite s _ _ => s = false
  end.

Lemma signed_nonneg (f : spec_float) : signed false f → nonneg f.
Proof. by destruct f. Qed.

Lemma shr_nonneg (mrs : shr_record) (e n : Z) :
  0 ≤ shr_m mrs → 0 ≤ shr_m (shr mrs e n).1.
Proof.
  intros Hm. destruct n as [|p|p]; simpl; [done| |done].
  rewrite shr_m_iter by done. apply Z.div_pos; [done|]. apply Z.pow_pos_nonneg; lia.
Qed.

Lemma shr_record_of_loc_m (m : Z) (l : location) : shr_m (shr_record_of_loc m l) = m.
Proof. by destruct l as [|[]]. Qed.

Lemma round_nearest_even_bounds (m : Z) (l : location) :
  m ≤ round_nearest_even m l ≤ m + 1.
Proof. destruct l as [|[]]; simpl; try lia. destruct (Z.even m); lia. Qed.

(** Rounding a mantissa that is not negative gives a number with the
    sign asked for. *)
Lemma binary_round_aux_signed (s : bool) (m e : Z) (l : location) :
  0 ≤ m → signed s (binary_round_aux Float.prec Float.emax s m e l).
Proof.
  intros Hm. unfold binary_round_aux, shr_fexp.
  set (n1 := fexp Float.prec Float.emax (Zdigits2 m + e) - e).
  pose proof (shr_nonneg (shr_record_of_loc m l) e n1) as H1.
  destruct (shr (shr_record_of_loc m l) e n1) as [mrs1 e1]. simpl in H1.
  rewrite shr_record_of_loc_m in H1. specialize (H1 Hm).
  set (m2 := round_nearest_even (shr_m mrs1) (loc_of_shr_record mrs1)).
  assert (Hm2 : 0 ≤ m2).
  { pose proof (round_nearest_even_bounds (shr_m mrs1) (loc_of_shr_record mrs1)).
    unfold m2. lia. }
  set (n2 := fexp Float.prec Float.emax (Zdigits2 m2 + e1) - e1).
  pose proof (shr_nonneg (shr_record_of_loc m2 loc_Exact) e1 n2) as H2.
  destruct (shr (shr_record_of_loc m2 loc_Exact) e1 n2) as [mrs2 e2]. simpl in H2.
  specialize (H2 Hm2).
  destruct (shr_m mrs2) as [|p|p]; [done| |lia].
  by destruct (e2 <=? Float.emax - Float.prec).
Qed.

(** The mantissa of [mrs], read with exponent [e], is at most [2 ^ k];
    when it is [2 ^ k] nothing was left out to its right. *)
Definition under (k e : Z) (mrs : shr_record) : Prop :=
  0 ≤ shr_m mrs ∧
  (shr_m mrs < 2 ^ (k - e) ∨
   (shr_m mrs = 2 ^ (k - e) ∧ shr_r mrs = false ∧ shr_s mrs = false)).

Lemma shr_1_under (k e : Z) (mrs : shr_record) :
  e < k → under k e mrs → under k (e + 1) (shr_1 mrs).
Proof.
  intros He (Hm & Hb). destruct (shr_1_spec mrs Hm) as (Hdiv & Hr & Hs).
  assert (Hpow : 2 ^ (k - e) = 2 * 2 ^ (k - (e + 1))).
  { replace (k - e) with (Z.succ (k - (e + 1))) by lia.
    by rewrite Z.pow_succ_r by lia. }
  assert (0 < 2 ^ (k - (e + 1))) by (apply Z.pow_pos_nonneg; lia).
  split; [rewrite Hdiv; apply Z.div_pos; lia|].
  destruct Hb as [Hlt|(Heq & Hr0 & Hs0)].
  - left. rewrite Hdiv. apply Z.div_lt_upper_bound; lia.
  - right. rewrite Hdiv, Hr, Hs, Hr0, Hs0, Heq, Hpow. split_and!.
    + by rewrite Z.mul_comm, Z.div_mul by lia.
    + by rewrite Z.odd_mul.
    + done.
Qed.

Lemma shr_under (k e n : Z) (mrs : shr_record) :
  under k e mrs → (0 < n → e + n ≤ k) →
  under k (shr mrs e n).2 (shr mrs e n).1 ∧ (shr mrs e n).2 = e + Z.max n 0.
Proof.
  intros Hu Hn. destruct n as [|p|p]; simpl.
  - split; [done|lia].
  - split; [|lia].
    pose proof (iter_pos_invariant shr_1
      (λ j x, e + j ≤ k → under k (e + j) x)) as Hinv.
    apply (Hinv) with (p := p) (j := 0) (x := mrs).
    + intros j x Hx Hj. replace (e + (j + 1)) with (e + j + 1) by lia.
      apply shr_1_under; [lia|]. apply Hx. lia.
    + intros _. by rewrite Z.add_0_r.
    + apply Hn. lia.
  - split; [done|lia].
Qed.

(** A float of sign [s] and of magnitude at most [2 ^ k]. *)
Definition below (k : Z) (s : bool) (f : spec_float) : Prop :=
  match f with
  | S754_zero s' => s' = s
  | S754_finite s' m e => s' = s ∧ e ≤ k - 52 ∧ Zpos m ≤ 2 ^ (k - e)
  | _ => False
  end.

Lemma fexp_le (k d : Z) :
  -1022 ≤ k → d ≤ k + 1 → fexp Float.prec Float.emax d ≤ k - 52.
Proof. unfold fexp, emin, Float.prec, Float.emax. lia. Qed.

Lemma under_le (k e : Z) (mrs : shr_record) :
  under k e mrs → 0 ≤ shr_m mrs ≤ 2 ^ (k - e).
Proof. intros (Hm & [?|(? & _)]); lia. Qed.

(** Rounding does not go beyond a power of two: what is at most
    [2 ^ k] is rounded to at most [2 ^ k], and no infinity arises below
    [2 ^ 1024]. *)
Lemma binary_round_aux_below (k : Z) (s : bool) (m e : Z) (l : location) :
  -1022 ≤ k ≤ 1023 → e ≤ k - 52 → under k e (shr_record_of_loc m l) →
  below k s (binary_round_aux Float.prec Float.emax s m e l).
Proof.
  intros Hk He Hu. unfold binary_round_aux, shr_fexp.
  set (n1 := fexp Float.prec Float.emax (Zdigits2 m + e) - e).
  assert (Hn1 : e + n1 ≤ k - 52).
  { unfold n1. apply under_le in Hu. rewrite shr_record_of_loc_m in Hu.
    pose proof (Zdigits2_le m (k - e)) as Hd.
    pose proof (fexp_le k (Zdigits2 m + e)). lia. }
  destruct (shr_under k e n1 (shr_record_of_loc m l) Hu) as [Hu1 He1]; [lia|].
  destruct (shr (shr_record_of_loc m l) e n1) as [mrs1 e1]. simpl in Hu1, He1.
  set (m2 := round_nearest_even (shr_m mrs1) (loc_of_shr_record mrs1)).
  assert (Hu2 : under k e1 (shr_record_of_loc m2 loc_Exact)).
  { unfold under. cbn [shr_record_of_loc shr_m shr_r shr_s].
    pose proof (round_nearest_even_bounds (shr_m mrs1) (loc_of_shr_record mrs1)) as Hb.
    fold m2 in Hb. destruct Hu1 as (Hm1 & [Hlt|(Heq & Hr & Hs)]).
    - split; [lia|]. destruct (Z_lt_le_dec m2 (2 ^ (k - e1))); [by left|right].
      split; [lia|done].
    - split; [lia|]. right. split; [|done].
      unfold m2. destruct mrs1 as [m1 r1 s1]. simpl in *. by subst. }
  set (n2 := fexp Float.prec Float.emax (Zdigits2 m2 + e1) - e1).
  assert (Hn2 : e1 + n2 ≤ k - 52).
  { unfold n2. apply under_le in Hu2. cbn [shr_record_of_loc shr_m] in Hu2.
    pose proof (Zdigits2_le m2 (k - e1)) as Hd.
    pose proof (fexp_le k (Zdigits2 m2 + e1)). lia. }
  destruct (shr_under k e1 n2 (shr_record_of_loc m2 loc_Exact) Hu2) as [Hu3 He3]; [lia|].
  destruct (shr (shr_record_of_loc m2 loc_Exact) e1 n2) as [mrs3 e3].
  simpl in Hu3, He3. apply under_le in Hu3.
  destruct (shr_m mrs3) as [|p|p]; [done| |lia].
  assert (Hfin : (e3 <=? Float.emax - Float.prec) = true).
  { apply Z.leb_le. unfold Float.emax, Float.prec. lia. }
  rewrite Hfin. simpl. split; [done|]. split; lia.
Qed.

Lemma new_location_exact (b : Z) : new_location b 0 = loc_Exact.
Proof. unfold new_location. by destruct (Z.even b). Qed.

(** The quotient step of [Float.nearest], in arithmetic. *)
Lemma div_core_spec (a b : positive) :
  ∃ q r e,
    SFdiv_core_binary Float.prec Float.emax (Zpos a) 0 (Zpos b) 0
      = (q, e, new_location (Zpos b) r) ∧
    e = Z.min (fexp Float.prec Float.emax
                 (Zpos (digits2_pos a) - Zpos (digits2_pos b))) 0 ∧
    Zpos a * 2 ^ (- e) = Zpos b * q + r ∧ 0 ≤ r < Zpos b ∧ 0 ≤ q.
Proof.
  unfold SFdiv_core_binary. cbn [Zdigits2].
  rewrite !Z.add_0_r. change (0 - 0) with 0.
  set (e := Z.min (fexp Float.prec Float.emax
                     (Zpos (digits2_pos a) - Zpos (digits2_pos b))) 0).
  rewrite !Z.sub_0_l.
  set (m' := match - e with
             | Zpos _ => Z.shiftl (Zpos a) (- e)
             | Z0 => Zpos a
             | Zneg _ => 0
             end).
  assert (He : e ≤ 0) by (unfold e; lia).
  assert (Hm' : m' = Zpos a * 2 ^ (- e)).
  { unfold m'. destruct (- e) as [|p|p] eqn:Hs; [lia| |lia].
    rewrite Z.shiftl_mul_pow2 by lia. done. }
  pose proof (Z_div_mod m' (Zpos b)) as Hdiv.
  destruct (Z.div_eucl m' (Zpos b)) as [q r].
  destruct Hdiv as [Heq Hr]; [lia|].
  exists q, r, e. split; [done|]. split; [done|]. split; [lia|]. split; [done|].
  assert (0 ≤ m') by (rewrite Hm'; apply Z.mul_nonneg_nonneg; [lia|];
                      apply Z.pow_nonneg; lia).
  nia.
Qed.

(** [Float.nearest s a b] is a number of sign [s]. *)
Lemma nearest_signed (s : bool) (a b : Z) : 0 < b → signed s (Float.nearest s a b).
Proof.
  intros Hb. destruct a as [|a|a]; [done| |done]. destruct b as [|b|b]; [lia| |lia].
  unfold Float.nearest.
  destruct (div_core_spec a b) as (q & r & e & -> & _ & _ & _ & Hq).
  by apply binary_round_aux_signed.
Qed.

(** A quotient of at most [2 ^ k] is rounded to at most [2 ^ k]; in
    particular it is not rounded to an infinity. *)
Lemma nearest_below (k : Z) (s : bool) (a b : Z) :
  0 ≤ k ≤ 1023 → 0 ≤ a → 0 < b → a ≤ b * 2 ^ k →
  below k s (Float.nearest s a b).
Proof.
  intros Hk Ha Hb Hab. destruct a as [|a|a]; [done| |lia].
  destruct b as [|b|b]; [lia| |lia]. unfold Float.nearest.
  destruct (div_core_spec a b) as (q & r & e & -> & He & Heq & Hr & Hq).
  assert (Hpk : 0 < 2 ^ k) by (apply Z.pow_pos_nonneg; lia).
  assert (Hd : Zpos (digits2_pos a) - Zpos (digits2_pos b) ≤ k).
  { destruct (digits2_pos_bounds a) as [Hlo _].
    destruct (digits2_pos_bounds b) as [_ Hhi].
    assert (Hlt : 2 ^ (Zpos (digits2_pos a) - 1) < 2 ^ (Zpos (digits2_pos b) + k)).
    { rewrite (Z.pow_add_r 2 (Zpos (digits2_pos b)) k) by lia. nia. }
    destruct (Z_le_gt_dec (Zpos (digits2_pos a) - Zpos (digits2_pos b)) k); [done|].
    assert (2 ^ (Zpos (digits2_pos b) + k) ≤ 2 ^ (Zpos (digits2_pos a) - 1))
      by (apply Z.pow_le_mono_r; lia).
    lia. }
  assert (He' : e ≤ k - 52).
  { pose proof (fexp_le k (Zpos (digits2_pos a) - Zpos (digits2_pos b))). lia. }
  assert (He0 : e ≤ 0) by lia.
  assert (Hpe : 0 < 2 ^ (- e)) by (apply Z.pow_pos_nonneg; lia).
  assert (Hpow : 2 ^ (k - e) = 2 ^ k * 2 ^ (- e)).
  { by rewrite <- Z.pow_add_r by lia. }
  apply binary_round_aux_below; [lia|done|].
  unfold under. rewrite shr_record_of_loc_m. split; [done|].
  assert (Hle : Zpos b * q + r ≤ Zpos b * 2 ^ (k - e)).
  { rewrite <- Heq, Hpow. nia. }
  destruct (Z_lt_le_dec q (2 ^ (k - e))) as [Hlt|Hge]; [by left|right].
  assert (Hq' : q = 2 ^ (k - e)) by nia.
  assert (Hr0 : r = 0) by nia.
  subst r. by rewrite new_location_exact.
Qed.

(** A float of sign [s] that is not zero. *)
Definition nonzero (s : bool) (f : spec_float) : Prop :=
  match f with
  | S754_infinity s' | S754_finite s' _ _ => s' = s
  | _ => False
  end.

Lemma fexp_ge_emin (d : Z) :
  emin Float.prec Float.emax ≤ fexp Float.prec Float.emax d.
Proof. unfold fexp. lia. Qed.

Lemma Zdigits2_pos (m : Z) : 0 < m → 1 ≤ Zdigits2 m.
Proof. destruct m; simpl; lia. Qed.

(** A mantissa whose value is above the least exponent is not shifted
    away. *)
Lemma shr_fexp_positive (m e : Z) (l : location) :
  0 < m → emin Float.prec Float.emax < Zdigits2 m + e →
  0 < shr_m (shr_fexp Float.prec Float.emax m e l).1 ∧
  emin Float.prec Float.emax <
    Zdigits2 (shr_m (shr_fexp Float.prec Float.emax m e l).1)
    + (shr_fexp Float.prec Float.emax m e l).2.
Proof.
  intros Hm Hd. unfold shr_fexp.
  pose proof (fexp_ge_emin (Zdigits2 m + e)) as Hf.
  set (f := fexp Float.prec Float.emax (Zdigits2 m + e)) in *.
  destruct (f - e) as [|p|p] eqn:Hn; simpl; rewrite ?shr_record_of_loc_m; [done| |done].
  rewrite shr_m_iter by (rewrite shr_record_of_loc_m; lia).
  rewrite shr_record_of_loc_m.
  assert (Hpos : 0 < m / 2 ^ Zpos p).
  { apply Z.div_str_pos. split; [apply Z.pow_pos_nonneg; lia|].
    destruct m as [|q|q]; [lia| |lia]. simpl in Hd, f.
    destruct (digits2_pos_bounds q) as [Hlo _].
    assert (2 ^ Zpos p ≤ 2 ^ (Zpos (digits2_pos q) - 1)); [|lia].
    apply Z.pow_le_mono_r; [lia|].
    unfold f, fexp, emin, Float.prec, Float.emax in *. lia. }
  split; [done|]. pose proof (Zdigits2_pos _ Hpos). lia.
Qed.

(** What is above the least exponent is not rounded to zero. *)
Lemma binary_round_aux_nonzero (s : bool) (m e : Z) (l : location) :
  0 < m → emin Float.prec Float.emax < Zdigits2 m + e →
  nonzero s (binary_round_aux Float.prec Float.emax s m e l).
Proof.
  intros Hm Hd. unfold binary_round_aux.
  destruct (shr_fexp_positive m e l Hm Hd) as [Hm1 Hd1].
  destruct (shr_fexp Float.prec Float.emax m e l) as [mrs1 e1]. simpl in Hm1, Hd1.
  set (m2 := round_nearest_even (shr_m mrs1) (loc_of_shr_record mrs1)).
  pose proof (round_nearest_even_bounds (shr_m mrs1) (loc_of_shr_record mrs1)) as Hb.
  fold m2 in Hb.
  assert (Hm2 : 0 < m2) by lia.
  assert (Hd2 : emin Float.prec Float.emax < Zdigits2 m2 + e1).
  { pose proof (Zdigits2_mono (shr_m mrs1) m2). lia. }
  destruct (shr_fexp_positive m2 e1 loc_Exact Hm2 Hd2) as [Hm3 _].
  destruct (shr_fexp Float.prec Float.emax m2 e1 loc_Exact) as [mrs3 e3]. simpl in Hm3.
  destruct (shr_m mrs3) as [|p|p]; [lia| |lia].
  by destruct (e3 <=? Float.emax - Float.prec).
Qed.

Lemma pos_iter_xO (m d : positive) : Zpos (Pos.iter xO m d) = Zpos m * 2 ^ Zpos d.
Proof.
  induction d as [|d IH] using Pos.peano_ind.
  - simpl. lia.
  - rewrite Pos.iter_succ, Pos2Z.inj_xO, IH, Pos2Z.inj_succ, Z.pow_succ_r by lia. lia.
Qed.

(** [shl_align] lowers the exponent to [e'] without changing the value. *)
Lemma shl_align_spec (m : positive) (e e' : Z) :
  (shl_align m e e').2 = Z.min e e' ∧
  Zpos (shl_align m e e').1 = Zpos m * 2 ^ (e - Z.min e e').
Proof.
  unfold shl_align. destruct (e' - e) as [|d|d] eqn:Hd; simpl.
  - split; [lia|]. replace (e - Z.min e e') with 0 by lia. lia.
  - split; [lia|]. replace (e - Z.min e e') with 0 by lia. lia.
  - split; [lia|]. rewrite pos_iter_xO. f_equal. f_equal. lia.
Qed.

Lemma binary_round_signed (s : bool) (m : positive) (e : Z) :
  signed s (binary_round Float.prec Float.emax s m e).
Proof.
  unfold binary_round. destruct (shl_align m e _) as [mz ez].
  by apply binary_round_aux_signed.
Qed.

Lemma binary_round_nonzero (s : bool) (m : positive) (e : Z) :
  emin Float.prec Float.emax < Zpos (digits2_pos m) + e →
  nonzero s (binary_round Float.prec Float.emax s m e).
Proof.
  intros Hd. unfold binary_round.
  set (f := fexp Float.prec Float.emax (Zpos (digits2_pos m) + e)).
  destruct (shl_align_spec m e f) as [He Hm].
  pose proof (fexp_ge_emin (Zpos (digits2_pos m) + e)) as Hf. fold f in Hf.
  destruct (shl_align m e f) as [mz ez]. simpl in He, Hm.
  apply binary_round_aux_nonzero; [lia|].
  destruct (Z_le_gt_dec e f) as [Hle|Hgt].
  - replace (e - Z.min e f) with 0 in Hm by lia.
    assert (mz = m) by lia. subst mz. simpl. lia.
  - pose proof (Zdigits2_pos (Zpos mz)). lia.
Qed.

Lemma one_eq : Float.one = S754_finite false 4503599627370496 (-52).
Proof. vm_compute. reflexivity. Qed.

(** The sum of two floats that are zero or above is zero or above. *)
Lemma add_nonneg (x y : spec_float) :
  nonneg x → nonneg y → nonneg (Float.add x y).
Proof.
  destruct x as [sx|sx| |sx mx ex], y as [sy|sy| |sy my ey]; simpl; try done.
  - intros _ _. by destruct sx, sy.
  - intros -> ->. done.
  - intros -> ->. cbn [cond_Zopp Z.add].
    apply signed_nonneg, binary_round_signed.
Qed.

(** [1.0 + x] is at least 1 when [x] is zero or above: it is not zero. *)
Lemma add_one_nonzero (x : spec_float) :
  nonneg x → nonzero false (Float.add Float.one x).
Proof.
  rewrite one_eq. destruct x as [sx|sx| |sx mx ex]; simpl; try done.
  intros ->. cbn [cond_Zopp].
  set (ez := Z.min (-52) ex).
  destruct (shl_align_spec 4503599627370496 (-52) ez) as [_ H1].
  replace (Z.min (-52) ez) with ez in H1 by lia.
  set (a := (shl_align 4503599627370496 (-52) ez).1) in *.
  set (b := (shl_align mx ex ez).1).
  cbn [Z.add binary_normalize].
  apply binary_round_nonzero.
  assert (Hpow : 4503599627370496 * 2 ^ (-52 - ez) = 2 ^ (- ez)).
  { change 4503599627370496 with (2 ^ 52). rewrite <- Z.pow_add_r by lia.
    f_equal. lia. }
  assert (Hlt : 2 ^ (- ez) < 2 ^ Zpos (digits2_pos (a + b))).
  { destruct (digits2_pos_bounds (a + b)) as [_ Hhi]. lia. }
  destruct (Z_le_gt_dec (Zpos (digits2_pos (a + b))) (- ez)) as [Hle|Hgt].
  - assert (2 ^ Zpos (digits2_pos (a + b)) ≤ 2 ^ (- ez))
      by (apply Z.pow_le_mono_r; lia). lia.
  - unfold emin, Float.prec, Float.emax. lia.
Qed.

(** [1.0 + x] is zero or above when [x] is at least -1. *)
Lemma add_one_nonneg (x : spec_float) :
  nonneg x ∨ below 0 true x → nonneg (Float.add Float.one x).
Proof.
  intros [Hx|Hx].
  { apply add_nonneg; [|done]. by rewrite one_eq. }
  rewrite one_eq. destruct x as [sx|sx| |sx mx ex]; simpl in *; try done.
  destruct Hx as (-> & He & Hm). cbn [cond_Zopp].
  replace (Z.min (-52) ex) with ex by lia.
  destruct (shl_align_spec 4503599627370496 (-52) ex) as [_ H1].
  destruct (shl_align_spec mx ex ex) as [_ H2].
  replace (Z.min (-52) ex) with ex in H1 by lia.
  replace (ex - Z.min ex ex) with 0 in H2 by lia.
  set (a := (shl_align 4503599627370496 (-52) ex).1) in *.
  set (b := (shl_align mx ex ex).1) in *.
  assert (Hpow : 4503599627370496 * 2 ^ (-52 - ex) = 2 ^ (0 - ex)).
  { change 4503599627370496 with (2 ^ 52). rewrite <- Z.pow_add_r by lia.
    f_equal. lia. }
  assert (Hab : 0 ≤ Zpos a + - Zpos b) by lia.
  destruct (Zpos a + - Zpos b) as [|p|p] eqn:Hsum; [done| |lia].
  apply signed_nonneg, binary_round_signed.
Qed.

(** The product of a positive number and a float that is zero or
    above. *)
Lemma mul_nonneg (m : positive) (e : Z) (y : spec_float) :
  nonneg y → nonneg (Float.mul (S754_finite false m e) y).
Proof.
  destruct y as [sy|sy| |sy my ey]; simpl; try done.
  intros ->. by apply signed_nonneg, binary_round_aux_signed.
Qed.

(** The quotient of a positive number by a positive float. *)
Lemma div_nonneg (m : positive) (e : Z) (y : spec_float) :
  nonzero false y → nonneg (Float.div (S754_finite false m e) y).
Proof.
  destruct y as [sy|sy| |sy my ey]; simpl; try done.
  intros ->. unfold SFdiv_core_binary.
  match goal with |- context [Z.div_eucl ?a ?b] =>
    pose proof (Z_div_mod a b) as Hdiv; set (m' := a) in *;
    assert (Hm' : 0 ≤ m') end.
  { unfold m'. destruct (_ - _ - _) as [|p|p]; [lia| |lia].
    apply Z.shiftl_nonneg. lia. }
  destruct (Z.div_eucl m' (Zpos my)) as [q r].
  destruct Hdiv as [Heq Hr]; [lia|].
  apply signed_nonneg, binary_round_aux_signed. nia.
Qed.

(** [round(x, ndigits)] of a number is a number of the same sign. *)
Lemma round_digits_nonneg (n : Z) (x : spec_float) :
  0 ≤ n → nonneg x → nonneg (Float.round_digits n x).
Proof.
  intros Hn. destruct x as [sx|sx| |sx mx ex]; simpl; try done.
  intros ->. apply signed_nonneg, nearest_signed. apply Z.pow_pos_nonneg; lia.
Qed.

(** ** The order of floats *)

(** The place of a number among the floats: its class (negative
    infinity, negative, zero, positive, positive infinity), then its
    exponent and its mantissa, which order the floats of one class.
    The two zeros have one place. *)
Definition float_rank (f : spec_float) : Z * Z * Z :=
  match f with
  | S754_nan => (0, 0, 0)
  | S754_zero _ => (0, 0, 0)
  | S754_infinity true => (-2, 0, 0)
  | S754_infinity false => (2, 0, 0)
  | S754_finite true m e => (-1, - e, - Zpos m)
  | S754_finite false m e => (1, e, Zpos m)
  end.

Definition rank_lt (a b : Z * Z * Z) : Prop :=
  a.1.1 < b.1.1 ∨
  (a.1.1 = b.1.1 ∧ (a.1.2 < b.1.2 ∨ (a.1.2 = b.1.2 ∧ a.2 < b.2))).

Lemma float_ltb_rank (x y : spec_float) :
  x ≠ S754_nan → y ≠ S754_nan →
  (Float.ltb x y = true ↔ rank_lt (float_rank x) (float_rank y)).
Proof.
  intros Hx Hy. unfold Float.ltb, SFltb, SFcompare, rank_lt.
  destruct x as [sx|[]| |[] mx ex], y as [sy|[]| |[] my ey]; try done; simpl;
    try (split; [done|lia]); try (split; [lia|done]);
    change (Pos.compare_cont Eq mx my) with (Pos.compare mx my);
    destruct (Z.compare_spec ex ey); try (split; [done|lia]);
    try (split; [lia|done]);
    destruct (Pos.compare_spec mx my); simpl;
    try (split; [done|lia]); try (split; [lia|done]).
Qed.

Lemma float_eqb_rank (x y : spec_float) :
  x ≠ S754_nan → y ≠ S754_nan →
  (Float.eqb x y = true ↔ float_rank x = float_rank y).
Proof.
  intros Hx Hy. unfold Float.eqb, SFeqb, SFcompare.
  destruct x as [sx|[]| |[] mx ex], y as [sy|[]| |[] my ey]; try done; simpl;
    try (split; [done|intros [=]; lia]); try (split; [intros [=]; lia|done]);
    change (Pos.compare_cont Eq mx my) with (Pos.compare mx my);
    destruct (Z.compare_spec ex ey);
    try (split; [done|intros [=]; lia]);
    destruct (Pos.compare_spec mx my); simpl;
    try (split; [done|intros [=]; lia]); split; intros _; f_equal; try f_equal; lia.
Qed.

Lemma float_rank_opp (x : spec_float) :
  float_rank (Float.opp x) =
  (- (float_rank x).1.1, - (float_rank x).1.2, - (float_rank x).2).
Proof. destruct x as [s|[]| |[] m e]; simpl; try done; f_equal; try f_equal; lia. Qed.

Lemma float_opp_nan (x : spec_float) : x ≠ S754_nan → Float.opp x ≠ S754_nan.
Proof. by destruct x. Qed.

Lemma nonneg_not_nan (x : spec_float) : nonneg x → x ≠ S754_nan.
Proof. by destruct x. Qed.

(** The order of two sort keys whose scores are numbers. *)
Definition key_rank_lt (k1 k2 : spec_float * Z) : Prop :=
  rank_lt (float_rank k1.1) (float_rank k2.1) ∨
  (float_rank k1.1 = float_rank k2.1 ∧ k1.2 < k2.2).

Lemma key_lt_rank (k1 k2 : spec_float * Z) :
  k1.1 ≠ S754_nan → k2.1 ≠ S754_nan →
  (SearchEngine.key_lt k1 k2 = true ↔ key_rank_lt k1 k2).
Proof.
  intros H1 H2. unfold SearchEngine.key_lt, key_rank_lt.
  pose proof (float_eqb_rank k1.1 k2.1 H1 H2) as Heq.
  pose proof (float_ltb_rank k1.1 k2.1 H1 H2) as Hlt.
  destruct (Float.eqb k1.1 k2.1).
  - rewrite Z.ltb_lt. destruct Heq as [Heq _]. specialize (Heq eq_refl).
    split; [by right|]. intros [Hr|[_ ?]]; [|done].
    rewrite Heq in Hr. unfold rank_lt in Hr. lia.
  - rewrite Hlt. split; [by left|]. intros [?|[Heq' _]]; [done|].
    destruct Heq as [_ Heq]. by specialize (Heq Heq').
Qed.

Lemma rank_lt_cases (a b : Z * Z * Z) : rank_lt a b ∨ a = b ∨ rank_lt b a.
Proof.
  destruct a as [[a1 a2] a3], b as [[b1 b2] b3]. unfold rank_lt. simpl.
  destruct (Z.lt_trichotomy a1 b1) as [?|[->|?]]; [lia| |lia].
  destruct (Z.lt_trichotomy a2 b2) as [?|[->|?]]; [lia| |lia].
  destruct (Z.lt_trichotomy a3 b3) as [?|[->|?]]; [lia| |lia].
  right. by left.
Qed.

Lemma key_leb_total (k1 k2 : spec_float * Z) :
  k1.1 ≠ S754_nan → k2.1 ≠ S754_nan →
  SearchEngine.key_leb k1 k2 = true ∨ SearchEngine.key_leb k2 k1 = true.
Proof.
  intros H1 H2. unfold SearchEngine.key_leb.
  destruct (SearchEngine.key_lt k2 k1) eqn:H21; [|by left]. right.
  destruct (SearchEngine.key_lt k1 k2) eqn:H12; [|done].
  apply key_lt_rank in H21, H12; try done.
  unfold key_rank_lt, rank_lt in *.
  destruct (float_rank k1.1) as [[a1 a2] a3], (float_rank k2.1) as [[b1 b2] b3].
  simpl in *.
  destruct H21 as [?|[[=] ?]], H12 as [?|[[=] ?]]; lia.
Qed.

Lemma key_leb_trans (k1 k2 k3 : spec_float * Z) :
  k1.1 ≠ S754_nan → k2.1 ≠ S754_nan → k3.1 ≠ S754_nan →
  SearchEngine.key_leb k1 k2 = true → SearchEngine.key_leb k2 k3 = true →
  SearchEngine.key_leb k1 k3 = true.
Proof.
  intros H1 H2 H3. unfold SearchEngine.key_leb. rewrite !negb_true_iff.
  intros H21 H32. destruct (SearchEngine.key_lt k3 k1) eqn:H31; [|done].
  apply key_lt_rank in H31; [|done..].
  assert (N21 : ¬ key_rank_lt k2 k1) by (rewrite <- key_lt_rank by done; congruence).
  assert (N32 : ¬ key_rank_lt k3 k2) by (rewrite <- key_lt_rank by done; congruence).
  exfalso. unfold key_rank_lt in *.
  destruct (rank_lt_cases (float_rank k1.1) (float_rank k2.1)) as [L12|[E12|L21]];
    destruct (rank_lt_cases (float_rank k2.1) (float_rank k3.1)) as [L23|[E23|L32]];
    try (apply N21; by left); try (apply N32; by left);
    unfold rank_lt in *;
    destruct (float_rank k1.1) as [[a1 a2] a3], (float_rank k2.1) as [[b1 b2] b3],
             (float_rank k3.1) as [[c1 c2] c3]; simpl in *;
    try injection E12 as -> -> ->; try injection E23 as -> -> ->;
    try (destruct H31 as [?|[[=] ?]]; subst; lia).
  destruct H31 as [?|[_ ?]]; [lia|].
  destruct (Z_lt_le_dec k2.2 k1.2); [apply N21; by right|].
  destruct (Z_lt_le_dec k3.2 k2.2); [apply N32; by right|]. lia.
Qed.

(** What [key_leb] says of the scores themselves. *)
Lemma key_leb_opp (x y : spec_float) (n m : Z) :
  x ≠ S754_nan → y ≠ S754_nan →
  SearchEngine.key_leb (Float.opp x, n) (Float.opp y, m) = true →
  Float.ltb y x = true ∨ (Float.eqb x y = true ∧ n ≤ m).
Proof.
  intros Hx Hy. unfold SearchEngine.key_leb. rewrite negb_true_iff. intros Hlt.
  assert (Hn : ¬ key_rank_lt (Float.opp y, m) (Float.opp x, n)).
  { rewrite <- key_lt_rank by (by apply float_opp_nan). congruence. }
  unfold key_rank_lt in Hn. cbn [fst snd] in Hn. rewrite !float_rank_opp in Hn.
  rewrite float_ltb_rank, float_eqb_rank by done.
  destruct (rank_lt_cases (float_rank x) (float_rank y)) as [L|[E|L]].
  - destruct Hn. left. unfold rank_lt in *.
    destruct (float_rank x) as [[a1 a2] a3], (float_rank y) as [[b1 b2] b3].
    simpl in *. lia.
  - right. split; [done|]. destruct (Z_lt_le_dec m n); [|done].
    destruct Hn. right. split; [by rewrite E|done].
  - by left.
Qed.

(** ** The arithmetic of [int] and [float] operands *)

Lemma below_finite (k : Z) (s : bool) (f : spec_float) :
  below k s f → Float.is_infinite f = false.
Proof. by destruct f. Qed.

Lemma below_nonneg (k : Z) (f : spec_float) : below k false f → nonneg f.
Proof. destruct f; simpl; try done. by intros (-> & _). Qed.

Lemma nonneg_nonzero (f : spec_float) :
  nonneg f → Float.is_zero f = false → nonzero false f.
Proof. by destruct f. Qed.

Lemma nonzero_is_zero (s : bool) (f : spec_float) :
  nonzero s f → Float.is_zero f = false.
Proof. by destruct f. Qed.

Lemma int_truediv_sign (a b : Z) :
  0 < b → xorb (a <? 0) (b <? 0) = (a <? 0).
Proof.
  intros Hb. destruct (Z.ltb_spec b 0); [lia|]. by rewrite xorb_false_r.
Qed.

(** The quotient of two [int]s, the divisor positive, is a number of
    the sign of the dividend. *)
Lemma int_truediv_Ok (a b : Z) (f : spec_float) :
  0 < b → SearchEngine.int_truediv a b = SearchEngine.Ok f →
  f = Float.nearest (a <? 0) (Z.abs a) b.
Proof.
  intros Hb. unfold SearchEngine.int_truediv.
  destruct (decide (b = 0)); [lia|].
  rewrite int_truediv_sign, (Z.abs_eq b) by lia.
  destruct (Float.is_infinite _); [done|]. by intros [= <-].
Qed.

Lemma int_truediv_nonneg (a b : Z) (f : spec_float) :
  0 ≤ a → 0 < b → SearchEngine.int_truediv a b = SearchEngine.Ok f → nonneg f.
Proof.
  intros Ha Hb ->%int_truediv_Ok; [|done].
  destruct (Z.ltb_spec a 0); [lia|]. by apply signed_nonneg, nearest_signed.
Qed.

(** A quotient of at least -1 is rounded to at least -1. *)
Lemma int_truediv_above (a b : Z) (f : spec_float) :
  0 < b → - b ≤ a → SearchEngine.int_truediv a b = SearchEngine.Ok f →
  nonneg f ∨ below 0 true f.
Proof.
  intros Hb Ha ->%int_truediv_Ok; [|done].
  destruct (Z.ltb_spec a 0).
  - right. apply nearest_below; lia.
  - left. by apply signed_nonneg, nearest_signed.
Qed.

(** A quotient of at most [2 ^ 1023] is in the range of the doubles. *)
Lemma int_truediv_total (k a b : Z) :
  0 ≤ k ≤ 1023 → 0 ≤ a → 0 < b → a ≤ b * 2 ^ k →
  ∃ f, SearchEngine.int_truediv a b = SearchEngine.Ok f ∧ below k false f.
Proof.
  intros Hk Ha Hb Hab. unfold SearchEngine.int_truediv.
  destruct (decide (b = 0)); [lia|].
  rewrite int_truediv_sign, (Z.abs_eq b), (Z.abs_eq a) by lia.
  destruct (Z.ltb_spec a 0); [lia|].
  pose proof (nearest_below k false a b Hk Ha Hb Hab) as Hbelow.
  rewrite (below_finite _ _ _ Hbelow). by eexists.
Qed.

Lemma int_truediv_Raise (a b : Z) (e : SearchEngine.exn) :
  b ≠ 0 → SearchEngine.int_truediv a b = SearchEngine.Raise e →
  e = SearchEngine.OverflowError.
Proof.
  intros Hb. unfold SearchEngine.int_truediv. destruct (decide (b = 0)); [done|].
  destruct (Float.is_infinite _); [|done]. by intros [= <-].
Qed.

Lemma float_of_int_nonneg (n : Z) (f : spec_float) :
  0 ≤ n → SearchEngine.float_of_int n = SearchEngine.Ok f → nonneg f.
Proof.
  intros Hn. unfold SearchEngine.float_of_int.
  destruct (Float.is_infinite _); [done|]. intros [= <-].
  destruct (Z.ltb_spec n 0); [lia|]. by apply signed_nonneg, nearest_signed.
Qed.

Lemma float_of_int_total (n : Z) :
  0 ≤ n ≤ 2 ^ 1023 →
  ∃ f, SearchEngine.float_of_int n = SearchEngine.Ok f ∧ nonneg f.
Proof.
  intros Hn. unfold SearchEngine.float_of_int.
  destruct (Z.ltb_spec n 0); [lia|]. rewrite (Z.abs_eq n) by lia.
  assert (Hbelow : below 1023 false (Float.nearest false n 1))
    by (apply nearest_below; lia).
  rewrite (below_finite _ _ _ Hbelow). eexists. split; [done|].
  by eapply below_nonneg.
Qed.

Lemma float_of_int_Raise (n : Z) (e : SearchEngine.exn) :
  SearchEngine.float_of_int n = SearchEngine.Raise e → e = SearchEngine.OverflowError.
Proof.
  unfold SearchEngine.float_of_int. destruct (Float.is_infinite _); [|done].
  by intros [= <-].
Qed.

(** Dividing by one is converting to [float]. *)
Lemma int_truediv_one (a : Z) :
  SearchEngine.int_truediv a 1 = SearchEngine.float_of_int a.
Proof.
  unfold SearchEngine.int_truediv, SearchEngine.float_of_int.
  destruct (decide (1 = 0)); [done|]. by rewrite int_truediv_sign by lia.
Qed.
(** ** The shortest-window search *)

Section ShortestDistance.
Import SearchEngine.

(** The consecutive pairs of a list. *)
Definition adjacent_pairs (Q : list string) : list (string * string) :=
  zip Q (drop 1 Q).

(** Both terms have a position in [d], the first below the second. *)
Definition ordered (d : gmap string Z) (tt : string * string) : bool :=
  match d !! tt.1, d !! tt.2 with
  | Some p1, Some p2 => p1 <? p2
  | _, _ => false
  end.

Lemma count_pairs_spec (d : gmap string Z) (Q : list string) :
  count_pairs d Q =
  Z.of_nat (length (filter (λ tt, ordered d tt = true) (adjacent_pairs Q))).
Proof.
  induction Q as [|t1 [|t2 Q] IH]; [done..|].
  change (count_pairs d (t1 :: t2 :: Q)) with
    ((match d !! t1, d !! t2 with
      | Some p1, Some p2 => if p1 <? p2 then 1 else 0
      | _, _ => 0
      end) + count_pairs d (t2 :: Q)).
  rewrite IH.
  change (adjacent_pairs (t1 :: t2 :: Q)) with ((t1, t2) :: adjacent_pairs (t2 :: Q)).
  rewrite filter_cons.
  destruct (decide (ordered d (t1, t2) = true)) as [Ho|Ho];
    unfold ordered in Ho; simpl in Ho;
    destruct (d !! t1) as [p1|], (d !! t2) as [p2|]; try done;
    try (cbn [length]; lia);
    destruct (p1 <? p2); try done; cbn [length]; lia.
Qed.

Lemma elem_of_product (lists : list (list Z)) (c : list Z) :
  c ∈ product lists ↔ Forall2 (λ x l, x ∈ l) c lists.
Proof.
  revert c. induction lists as [|l lists IH]; intros c; simpl.
  - rewrite list_elem_of_singleton. split; [intros ->; constructor|].
    by intros ->%Forall2_nil_inv_r.
  - rewrite list_elem_of_bind. split.
    + intros (x & Hc & Hx). apply list_elem_of_bind in Hc as (c' & Hc & Hc').
      apply list_elem_of_singleton in Hc as ->. constructor; [done|by apply IH].
    + intros (x & c' & Hx & Hc' & ->)%Forall2_cons_inv_r.
      exists x. split; [|done]. apply list_elem_of_bind. exists c'.
      split; [apply list_elem_of_singleton; done|by apply IH].
Qed.

Lemma product_singletons (ps : list Z) : product ((λ p, [p]) <$> ps) = [ps].
Proof.
  induction ps as [|p ps IH]; [done|].
  rewrite fmap_cons. cbn [product]. by rewrite IH.
Qed.

Lemma dict_zip_foldl (f : string → Z) (l : list string) (d : gmap string Z) t :
  foldl (λ d kv, <[kv.1 := kv.2]> d) d (zip l (f <$> l)) !! t =
  if decide (t ∈ l) then Some (f t) else d !! t.
Proof.
  revert d. induction l as [|k l IH]; intros d; simpl.
  { destruct (decide (t ∈ [])) as [Hin|_]; [by apply elem_of_nil in Hin|done]. }
  rewrite IH. destruct (decide (t ∈ l)) as [Hl|Hl].
  - destruct (decide (t ∈ k :: l)) as [_|Hn]; [done|].
    destruct Hn. by apply list_elem_of_further.
  - destruct (decide (t = k)) as [->|Hne].
    + rewrite lookup_insert_eq.
      destruct (decide (k ∈ k :: l)) as [_|Hn]; [done|].
      destruct Hn. apply list_elem_of_here.
    + rewrite lookup_insert_ne by done.
      destruct (decide (t ∈ k :: l)) as [Hin|_]; [|done].
      apply elem_of_cons in Hin as [?|?]; done.
Qed.

Lemma dict_zip_fmap (f : string → Z) (l : list string) t :
  dict_zip l (f <$> l) !! t = if decide (t ∈ l) then Some (f t) else None.
Proof. unfold dict_zip. rewrite dict_zip_foldl. by rewrite lookup_empty. Qed.

Context (search_term : list string) (position : gmap string (list Z)).

Definition match_word : list string :=
  filter (λ t, is_Some (position !! t)) search_term.
Definition match_list : list (list Z) :=
  (λ t, default [] (position !! t)) <$> match_word.

(** The two quantities the loop computes for a combination [c]. *)
Definition spread (c : list Z) : Z := sum_intervals (stable_sort Z.leb c).
Definition pairs (c : list Z) : Z := count_pairs (dict_zip match_word c) search_term.

Definition of_combination (c : list Z) : best :=
  Best (Some (spread c)) (pairs c) (Some (dict_zip match_word c)).

(** [c] is a best combination among [seen]: least spread, and most
    ordered pairs among those of least spread. *)
Definition optimal (c : list Z) (seen : list (list Z)) : Prop :=
  c ∈ seen ∧
  ∀ c', c' ∈ seen → spread c ≤ spread c' ∧ (spread c' = spread c → pairs c' ≤ pairs c).

Definition loop_invariant (b : best) (seen : list (list Z)) : Prop :=
  (seen = [] ∧ b = Best None (-1) None) ∨
  (∃ c, optimal c seen ∧ b = of_combination c).

Lemma try_combination_invariant b seen c :
  loop_invariant b seen →
  loop_invariant (try_combination search_term match_word b c) (seen ++ [c]).
Proof.
  intros [[-> ->]|(c0 & [Hin Hopt] & ->)]; right.
  - exists c. split; [|done]. split; [apply list_elem_of_here|].
    intros c' ->%list_elem_of_singleton. lia.
  - unfold try_combination, better, of_combination. simpl.
    fold (spread c) (pairs c).
    destruct ((spread c <? spread c0) || (spread c =? spread c0) && (pairs c0 <? pairs c))
      eqn:Hb.
    + exists c. split; [|done]. split; [apply elem_of_app; right; apply list_elem_of_here|].
      intros c' [Hc' | ->%list_elem_of_singleton]%elem_of_app; [|lia].
      destruct (Hopt c' Hc') as [Hle Heq].
      apply orb_true_iff in Hb as [Hb|Hb].
      * apply Z.ltb_lt in Hb. lia.
      * apply andb_true_iff in Hb as [Hb1 Hb2].
        apply Z.eqb_eq in Hb1. apply Z.ltb_lt in Hb2. lia.
    + exists c0. split; [|done]. split; [apply elem_of_app; by left|].
      intros c' [Hc' | ->%list_elem_of_singleton]%elem_of_app; [by apply Hopt|].
      apply orb_false_iff in Hb as [Hb1 Hb2]. apply Z.ltb_ge in Hb1.
      apply andb_false_iff in Hb2 as [Hb2|Hb2].
      * apply Z.eqb_neq in Hb2. lia.
      * apply Z.ltb_ge in Hb2. lia.
Qed.

Lemma loop_keeps_invariant cs b seen :
  loop_invariant b seen →
  loop_invariant (foldl (try_combination search_term match_word) b cs) (seen ++ cs).
Proof.
  revert b seen. induction cs as [|c cs IH]; intros b seen Hinv; simpl.
  { by rewrite app_nil_r. }
  replace (seen ++ c :: cs)%list with ((seen ++ [c]) ++ cs)%list
    by (by rewrite <- app_assoc).
  by apply IH, try_combination_invariant.
Qed.

Lemma product_nonempty (lists : list (list Z)) :
  Forall (λ l, l ≠ []) lists → product lists ≠ [].
Proof.
  induction 1 as [|l lists Hl _ IH]; simpl; [done|].
  destruct l as [|x l]; [done|]. destruct (product lists) as [|c cs]; [done|].
  done.
Qed.
End ShortestDistance.

Lemma filter_ext_elem {A} (P Q : A → Prop)
    `{∀ x, Decision (P x)} `{∀ x, Decision (Q x)} (l : list A) :
  (∀ x, x ∈ l → P x ↔ Q x) → filter P l = filter Q l.
Proof.
  induction l as [|x l IH]; intros Hext; [done|].
  rewrite !filter_cons, IH by (intros y Hy; apply Hext; by right).
  destruct (decide (P x)) as [HP|HP], (decide (Q x)) as [HQ|HQ]; try done.
  - destruct HQ. apply Hext; [left|done].
  - destruct HP. apply Hext; [left|done].
Qed.

Lemma adjacent_pairs_elem (Q : list string) (t1 t2 : string) :
  (t1, t2) ∈ adjacent_pairs Q → t1 ∈ Q ∧ t2 ∈ Q.
Proof.
  intros Hin. split.
  - by eapply elem_of_zip_l.
  - apply elem_of_zip_r in Hin. eapply elem_of_sublist; [done|apply sublist_drop].
Qed.

Lemma Z_leb_total (x y : Z) : (x <=? y) = true ∨ (y <=? x) = true.
Proof. destruct (Z.leb_spec x y); [by left|right; apply Z.leb_le; lia]. Qed.

Lemma Z_leb_trans (x y z : Z) :
  (x <=? y) = true → (y <=? z) = true → (x <=? z) = true.
Proof. rewrite !Z.leb_le. lia. Qed.

Lemma StronglySorted_weaken {A} (R S : relation A) (l : list A) :
  (∀ x y, R x y → S x y) → StronglySorted R l → StronglySorted S l.
Proof.
  intros HRS. induction 1 as [|x l Hl IH Hx]; constructor; [done|].
  eapply Forall_impl; [exact Hx|]. intros y. apply HRS.
Qed.

(** [sorted(c)] is [c] in ascending order. *)
Lemma sorted_positions (c : list Z) :
  StronglySorted Z.le (stable_sort Z.leb c) ∧ stable_sort Z.leb c ≡ₚ c.
Proof.
  split; [|apply stable_sort_perm].
  eapply StronglySorted_weaken;
    [|apply (stable_sort_StronglySorted Z.leb Z_leb_total Z_leb_trans)].
  intros x y Hxy. by apply Z.leb_le.
Qed.

Lemma shortest_distance_matched
    (search_term : list string) (position : gmap string (list Z)) :
  match_word search_term position ≠ [] →
  SearchEngine.shortest_distance search_term position =
  let b := foldl (SearchEngine.try_combination search_term
                    (match_word search_term position))
                 (SearchEngine.Best None (-1) None)
                 (SearchEngine.product (match_list search_term position)) in
  let n := Z.max (Z.of_nat (length (match_word search_term position)) - 1) 1 in
  avg_distance ←
    match SearchEngine.best_distance b with
    | None =>
        y ← SearchEngine.float_of_int n;
        SearchEngine.float_truediv Float.inf y
    | Some d => SearchEngine.int_truediv d n
    end;
  SearchEngine.Ok (avg_distance, SearchEngine.max_number b,
                   SearchEngine.best_position b).
Proof.
  unfold SearchEngine.shortest_distance, match_list, match_word.
  destruct (filter _ search_term); [done|reflexivity].
Qed.

(** What [shortest_distance] returns when every matched term has an
    occurrence: the result of a best combination. *)
Lemma shortest_distance_best
    (search_term : list string) (position : gmap string (list Z)) :
  match_word search_term position ≠ [] →
  Forall (λ l, l ≠ []) (match_list search_term position) →
  ∃ c, optimal search_term position c
         (SearchEngine.product (match_list search_term position)) ∧
       SearchEngine.shortest_distance search_term position =
         (avg ← SearchEngine.int_truediv (spread c)
                  (Z.max (Z.of_nat (length (match_word search_term position)) - 1) 1);
          SearchEngine.Ok (avg, pairs search_term position c,
                           Some (SearchEngine.dict_zip
                                   (match_word search_term position) c))).
Proof.
  intros Hmw Hocc.
  destruct (loop_keeps_invariant search_term position
              (SearchEngine.product (match_list search_term position))
              (SearchEngine.Best None (-1) None) []) as [[Hnil _]|(c & Hopt & Hb)].
  { by left. }
  { simpl in Hnil. by apply product_nonempty in Hocc. }
  simpl in Hopt, Hb. exists c. split; [done|].
  rewrite shortest_distance_matched by done. cbv zeta. by rewrite Hb.
Qed.

(** ** The shortest window, in the words of the specification *)











Lemma product_length (lists : list (list Z)) (c : list Z) :
  c ∈ SearchEngine.product lists → length c = length lists.
Proof. intros Hc%elem_of_product. by eapply Forall2_length. Qed.

Section Assignments.
Context (Q : list string) (position : gmap string (list Z)).
Hypothesis HQ : NoDup Q.




End Assignments.



(** The position of a term that occurs once. *)
Definition fixed_position (position : gmap string (list Z)) (t : string) : option Z :=
  position !! t ≫= head.

(** Both terms occur, the first below the second. *)
Definition increasing (position : gmap string (list Z)) (tt : string * string) : bool :=
  match fixed_position position tt.1, fixed_position position tt.2 with
  | Some p1, Some p2 => p1 <? p2
  | _, _ => false
  end.

(** C2, as stated, fails: three query terms at the single positions
    0, 5 and 10 have spread 8, and the average distance returned is
    8 / 2 = 4.0, not 8.0. *)
Lemma single_occurrence_avg_is_not_spread :
  let Q := ["a"; "b"; "c"] in
  let position : gmap string (list Z) :=
    {[ "a" := [0]; "b" := [5]; "c" := [10] ]} in
  SearchEngine.sum_intervals (stable_sort Z.leb [0; 5; 10]) = 8 ∧
  SearchEngine.shortest_distance Q position
    = SearchEngine.Ok (Float.nearest false 4 1, 2,
        Some ({[ "a" := 0; "b" := 5; "c" := 10 ]} : gmap string Z)) ∧
  SearchEngine.float_of_int 8 = SearchEngine.Ok (Float.nearest false 8 1) ∧
  Float.eqb (Float.nearest false 4 1) (Float.nearest false 8 1) = false.
Proof.
  intros Q position. split_and!; vm_compute; reflexivity.
Qed.

Lemma omap_total {A B} (g : A → option B) (f : A → B) (l : list A) :
  (∀ x, x ∈ l → g x = Some (f x)) → omap g l = f <$> l.
Proof.
  induction l as [|x l IH]; intros Hg; [done|].
  cbn [omap list_omap]. rewrite (Hg x) by left. rewrite fmap_cons.
  f_equal. apply IH. intros y Hy. apply Hg. by right.
Qed.

Section SingleOccurrence.
Context (Q : list string) (position : gmap string (list Z)).
Hypothesis Hone : ∀ t l, t ∈ Q → position !! t = Some l → ∃ p, l = [p].

(** The position of a matched term, and 0 for the others. *)
Definition the_position (t : string) : Z := default 0 (fixed_position position t).

Lemma matched_fixed t :
  t ∈ match_word Q position →
  position !! t = Some [the_position t] ∧
  fixed_position position t = Some (the_position t).
Proof using Hone.
  intros [[l Hl] HQ]%list_elem_of_filter.
  destruct (Hone t l HQ Hl) as [p ->].
  unfold the_position, fixed_position. rewrite Hl. done.
Qed.

Lemma unmatched_fixed t :
  t ∈ Q → t ∉ match_word Q position → fixed_position position t = None.
Proof.
  intros HQ Hn. unfold fixed_position.
  destruct (position !! t) as [l|] eqn:Hl; [|done].
  destruct Hn. apply list_elem_of_filter. split; [by eexists|done].
Qed.

Lemma single_match_list :
  match_list Q position = (λ p, [p]) <$> (the_position <$> match_word Q position).
Proof using Hone.
  unfold match_list. rewrite <- list_fmap_compose.
  apply list_fmap_ext. intros i t Ht. simpl.
  apply list_elem_of_lookup_2 in Ht.
  destruct (matched_fixed t Ht) as [-> _]. done.
Qed.

Lemma single_occurrence_result :
  match_word Q position ≠ [] →
  let c := the_position <$> match_word Q position in
  SearchEngine.shortest_distance Q position =
  (avg ← SearchEngine.int_truediv
            (SearchEngine.sum_intervals (stable_sort Z.leb c))
            (Z.max (Z.of_nat (length (match_word Q position)) - 1) 1);
   SearchEngine.Ok
     (avg,
      SearchEngine.count_pairs (SearchEngine.dict_zip (match_word Q position) c) Q,
      Some (SearchEngine.dict_zip (match_word Q position) c))).
Proof using Hone.
  intros Hmw c. rewrite shortest_distance_matched by done.
  rewrite single_match_list, product_singletons. reflexivity.
Qed.

Lemma single_chosen t :
  t ∈ Q →
  SearchEngine.dict_zip (match_word Q position)
    (the_position <$> match_word Q position) !! t = fixed_position position t.
Proof using Hone.
  intros HQ. rewrite dict_zip_fmap.
  destruct (decide (t ∈ match_word Q position)) as [Ht|Ht].
  - by destruct (matched_fixed t Ht) as [_ ->].
  - by rewrite unmatched_fixed.
Qed.
End SingleOccurrence.

(** C2, amended.  When every matched query term occurs at exactly one
    position: if no term matches the result is [(inf, 0, {})];
    otherwise the average distance is the quotient, as a float, of the
    spread of the fixed positions by [max(matched terms - 1, 1)] (so it
    is the spread itself, as a float, for one or two matched terms),
    the ordered pairs are the adjacent pairs of the query whose two
    terms occur with increasing positions, and each matched term is
    given its position. *)
Theorem single_occurrence_window
    (Q : list string) (position : gmap string (list Z)) :
  (∀ t l, t ∈ Q → position !! t = Some l → ∃ p, l = [p]) →
  let mw := match_word Q position in
  let fixed := omap (fixed_position position) mw in
  let spread := SearchEngine.sum_intervals (stable_sort Z.leb fixed) in
  let n := Z.max (Z.of_nat (length mw) - 1) 1 in
  let pairs_in_order :=
    Z.of_nat (length (filter (λ tt, increasing position tt = true) (adjacent_pairs Q))) in
  match mw with
  | [] =>
      SearchEngine.shortest_distance Q position
        = SearchEngine.Ok (Float.inf, 0, Some ∅)
  | _ =>
      ∃ chosen,
        SearchEngine.shortest_distance Q position =
          (avg ← SearchEngine.int_truediv spread n;
           SearchEngine.Ok (avg, pairs_in_order, Some chosen)) ∧
        (∀ t, t ∈ Q → chosen !! t = fixed_position position t) ∧
        ((length mw ≤ 2)%nat →
         SearchEngine.int_truediv spread n = SearchEngine.float_of_int spread)
  end.
Proof.
  intros Hone mw fixed spread n pairs_in_order.
  assert (Hfixed : fixed = the_position position <$> match_word Q position).
  { apply omap_total. intros t Ht. by destruct (matched_fixed Q position Hone t Ht). }
  destruct (decide (match_word Q position = [])) as [Hnil|Hmw].
  { subst mw. rewrite Hnil. unfold SearchEngine.shortest_distance.
    fold (match_word Q position). by rewrite Hnil. }
  assert (Hres : ∃ chosen,
    SearchEngine.shortest_distance Q position =
      (avg ← SearchEngine.int_truediv spread n;
       SearchEngine.Ok (avg, pairs_in_order, Some chosen)) ∧
    (∀ t, t ∈ Q → chosen !! t = fixed_position position t) ∧
    ((length mw ≤ 2)%nat →
     SearchEngine.int_truediv spread n = SearchEngine.float_of_int spread)).
  { set (c := the_position position <$> match_word Q position) in *.
    assert (Hpairs :
      SearchEngine.count_pairs (SearchEngine.dict_zip (match_word Q position) c) Q
      = pairs_in_order).
    { rewrite count_pairs_spec. unfold pairs_in_order. do 2 f_equal.
      apply filter_ext_elem. intros [t1 t2] [H1 H2]%adjacent_pairs_elem.
      unfold ordered, increasing. cbn [fst snd].
      by rewrite !(single_chosen Q position Hone). }
    exists (SearchEngine.dict_zip (match_word Q position) c). split_and!.
    - rewrite (single_occurrence_result Q position Hone Hmw). cbv zeta.
      fold c. rewrite Hpairs. unfold spread. by rewrite Hfixed.
    - intros t Ht. by apply single_chosen.
    - intros Hlen. replace n with 1 by (unfold n, mw in *; lia).
      apply int_truediv_one. }
  subst mw. destruct (match_word Q position); [done|exact Hres].
Qed.

Lemma single_occurrence_window_witness :
  let Q := ["quick"; "fox"; "dog"] in
  let position : gmap string (list Z) := {[ "quick" := [1]; "fox" := [3] ]} in
  ∃ chosen,
    SearchEngine.shortest_distance Q position =
      SearchEngine.Ok (Float.one, 1, Some chosen) ∧
    ∀ t, t ∈ Q → chosen !! t = fixed_position position t.
Proof.
  intros Q position.
  assert (Hone : ∀ t l, t ∈ Q → position !! t = Some l → ∃ p, l = [p]).
  { intros t l Hin Hl.
    repeat (apply elem_of_cons in Hin as [->|Hin]);
      [..|by apply elem_of_nil in Hin];
      vm_compute in Hl; inversion Hl; eauto. }
  pose proof (single_occurrence_window Q position Hone) as Hw.
  cbv zeta in Hw.
  change (match_word Q position) with ["quick"; "fox"] in Hw.
  destruct Hw as (chosen & Heq & Hch & _).
  exists chosen. split; [|exact Hch].
  rewrite Heq. vm_compute. reflexivity.
Defined.
(** ** The query engine *)

Section DictFacts.
Context {V : Type}.

Lemma update_Forall (P : V → Prop) k dflt (f : V → V) (d : list (string * V)) :
  (∀ v, P (f v)) →
  Forall (λ kv, P kv.2) d → Forall (λ kv, P kv.2) (Dict.update k dflt f d).
Proof.
  intros Hf. induction 1 as [|[k' v] d Hv Hd IH]; simpl.
  - constructor; [apply Hf|constructor].
  - destruct (decide (k' = k)); constructor; try done. apply Hf.
Qed.

Lemma update_Forall_keep (P : V → Prop) k dflt (f : V → V) (d : list (string * V)) :
  P (f dflt) → (∀ v, P v → P (f v)) →
  Forall (λ kv, P kv.2) d → Forall (λ kv, P kv.2) (Dict.update k dflt f d).
Proof.
  intros Hd Hf. induction 1 as [|[k' v] d Hv Htl IH]; simpl.
  - constructor; [done|constructor].
  - destruct (decide (k' = k)); constructor; try done. by apply Hf.
Qed.

Lemma get_elem (d : list (string * V)) k :
  k ∈ Dict.keys d → ∃ v, Dict.get d k = Some v ∧ (k, v) ∈ d.
Proof.
  unfold Dict.keys. induction d as [|[k' v] d IH]; simpl.
  { by intros ?%elem_of_nil. }
  intros Hin. destruct (decide (k' = k)) as [->|Hne].
  - exists v. split; [done|left].
  - apply elem_of_cons in Hin as [?|Hin]; [done|].
    destruct (IH Hin) as (v' & Hg & Hv'). exists v'. split; [done|by right].
Qed.

Lemma foldl_insert_lookup (g : string → V) (l : list string)
    (d : gmap string V) (t : string) :
  foldl (λ d t, <[t := g t]> d) d l !! t =
  if decide (t ∈ l) then Some (g t) else d !! t.
Proof.
  revert d. induction l as [|k l IH]; intros d; simpl.
  { destruct (decide (t ∈ [])) as [Hin|_]; [by apply elem_of_nil in Hin|done]. }
  rewrite IH. destruct (decide (t ∈ l)) as [Hl|Hl].
  - destruct (decide (t ∈ k :: l)) as [_|Hn]; [done|].
    destruct Hn. by apply list_elem_of_further.
  - destruct (decide (t = k)) as [->|Hne].
    + rewrite lookup_insert_eq.
      destruct (decide (k ∈ k :: l)) as [_|Hn]; [done|].
      destruct Hn. apply list_elem_of_here.
    + rewrite lookup_insert_ne by done.
      destruct (decide (t ∈ k :: l)) as [Hin|_]; [|done].
      apply elem_of_cons in Hin as [?|?]; done.
Qed.
End DictFacts.

Section SearchFacts.
Context `{NLTK} `{HashOrder}.
Import SearchEngine.

(** Every list of occurrences in [match] has an element. *)
Definition occurrences_ok (pos : list (string * list (Z * Z))) : Prop :=
  Forall (λ kv, kv.2 ≠ []) pos.

Lemma group_matches_ok (self : engine) (search_term : list string) :
  Forall (λ kv, occurrences_ok kv.2) (group_matches self search_term).
Proof.
  unfold group_matches.
  assert (Hgen : ∀ l (m : match_dict),
    Forall (λ kv, occurrences_ok kv.2) m →
    Forall (λ kv, occurrences_ok kv.2)
      (foldl (λ m t, match inverted_index self !! t with
                     | Some rows => foldl (add_match t) m rows
                     | None => m
                     end) m l)).
  { induction l as [|t l IH]; intros m Hm; simpl; [done|].
    apply IH. destruct (inverted_index self !! t) as [rows|]; [|done].
    clear IH. revert m Hm. induction rows as [|r rows IHr]; intros m Hm; simpl; [done|].
    apply IHr. unfold add_match.
    apply (update_Forall_keep occurrences_ok); [| |done].
    - simpl. constructor; [done|constructor].
    - intros pos Hpos. apply (update_Forall (λ l, l ≠ [])); [|done].
      intros occ Hocc. by apply app_eq_nil in Hocc as [_ ?]. }
  apply Hgen. constructor.
Qed.

Lemma positions_of_lookup (pos : list (string * list (Z * Z))) (t : string) :
  positions_of pos !! t =
  if decide (t ∈ Dict.keys pos) then Some (default [] (Dict.get pos t)).*1 else None.
Proof. unfold positions_of. by rewrite foldl_insert_lookup, lookup_empty. Qed.

(** The positions [search] passes to [shortest_distance]: every
    matched term has an occurrence. *)
Lemma positions_of_ok (search_term : list string)
    (pos : list (string * list (Z * Z))) :
  occurrences_ok pos →
  Forall (λ l, l ≠ []) (match_list search_term (positions_of pos)).
Proof.
  intros Hpos. apply Forall_forall. intros l0 (t & -> & Ht)%list_elem_of_fmap.
  apply list_elem_of_filter in Ht as [[l Hl] _]. rewrite Hl. simpl.
  rewrite positions_of_lookup in Hl.
  destruct (decide (t ∈ Dict.keys pos)) as [Hin|_]; [|done].
  injection Hl as <-.
  destruct (get_elem pos t Hin) as (occ & -> & Hocc). simpl.
  unfold occurrences_ok in Hpos. rewrite Forall_forall in Hpos.
  specialize (Hpos _ Hocc). simpl in Hpos.
  destruct occ; [done|]. done.
Qed.

(** Each gap of a sorted list, less one, is at least -1. *)
Lemma sum_intervals_lower (s : list Z) :
  StronglySorted Z.le s →
  - Z.max (Z.of_nat (length s) - 1) 0 ≤ sum_intervals s.
Proof.
  induction 1 as [|a s Hs IH Ha]; [done|].
  destruct s as [|b s]; [done|].
  change (sum_intervals (a :: b :: s)) with (b - a - 1 + sum_intervals (b :: s)).
  apply Forall_cons in Ha as [Hab _]. cbn [length] in *. lia.
Qed.

Lemma spread_lower (c : list Z) :
  - Z.max (Z.of_nat (length c) - 1) 0 ≤ spread c.
Proof.
  destruct (sorted_positions c) as [Hs Hp]. unfold spread.
  rewrite <- (Permutation_length Hp). by apply sum_intervals_lower.
Qed.

(** What [shortest_distance] returns on such positions: a dictionary,
    a count of pairs that is not negative, and an average distance of
    at least -1. *)
Lemma shortest_distance_Ok (search_term : list string)
    (position : gmap string (list Z))
    (r : spec_float * Z * option (gmap string Z)) :
  Forall (λ l, l ≠ []) (match_list search_term position) →
  shortest_distance search_term position = Ok r →
  is_Some r.2 ∧ 0 ≤ r.1.2 ∧ (nonneg r.1.1 ∨ below 0 true r.1.1).
Proof.
  intros Hocc.
  destruct (decide (match_word search_term position = [])) as [Hnil|Hmw].
  { unfold shortest_distance. fold (match_word search_term position).
    rewrite Hnil. intros [= <-]. split; [by eexists|]. split; [done|by left]. }
  destruct (shortest_distance_best search_term position Hmw Hocc)
    as (c & [Hin _] & ->).
  destruct (int_truediv _ _) as [avg|e] eqn:Hdiv; [|done].
  intros [= <-]. cbn [fst snd]. split; [by eexists|]. split.
  - unfold pairs. rewrite count_pairs_spec. lia.
  - eapply int_truediv_above; [| |exact Hdiv]; [lia|].
    pose proof (spread_lower c) as Hlow.
    rewrite (product_length _ _ Hin) in Hlow. unfold match_list in Hlow.
    rewrite length_fmap in Hlow. lia.
Qed.

Lemma shortest_distance_Raise (search_term : list string)
    (position : gmap string (list Z)) (e : exn) :
  Forall (λ l, l ≠ []) (match_list search_term position) →
  shortest_distance search_term position = Raise e → e = OverflowError.
Proof.
  intros Hocc.
  destruct (decide (match_word search_term position = [])) as [Hnil|Hmw].
  { unfold shortest_distance. fold (match_word search_term position).
    by rewrite Hnil. }
  destruct (shortest_distance_best search_term position Hmw Hocc)
    as (c & _ & ->).
  destruct (int_truediv _ _) as [avg|e'] eqn:Hdiv; [done|].
  intros [= <-]. eapply int_truediv_Raise; [|exact Hdiv]. lia.
Qed.

Lemma ALPHA_eq : ALPHA = S754_finite false 4503599627370496 (-52).
Proof. vm_compute. reflexivity. Qed.

Lemma BETA_eq : BETA = S754_finite false 4503599627370496 (-52).
Proof. vm_compute. reflexivity. Qed.

Lemma GAMMA_eq : GAMMA = S754_finite false 7205759403792794 (-56).
Proof. vm_compute. reflexivity. Qed.

Lemma mul_ALPHA_nonneg (y : spec_float) : nonneg y → nonneg (Float.mul ALPHA y).
Proof. rewrite ALPHA_eq. apply mul_nonneg. Qed.

Lemma mul_BETA_nonneg (y : spec_float) : nonneg y → nonneg (Float.mul BETA y).
Proof. rewrite BETA_eq. apply mul_nonneg. Qed.

Lemma mul_GAMMA_nonneg (y : spec_float) : nonneg y → nonneg (Float.mul GAMMA y).
Proof. rewrite GAMMA_eq. apply mul_nonneg. Qed.

Lemma div_one_nonneg (y : spec_float) :
  nonzero false y → nonneg (Float.div Float.one y).
Proof. rewrite one_eq. apply div_nonneg. Qed.

(** The score of the window is a number, zero or above. *)
Lemma window_score_Ok (search_term : list string)
    (pos : list (string * list (Z * Z)))
    (r : spec_float * Z * option (gmap string Z)) :
  occurrences_ok pos →
  window_score search_term pos = Ok r →
  nonneg r.1.1 ∧ 0 ≤ r.1.2 ∧ is_Some r.2.
Proof.
  intros Hpos. unfold window_score.
  destruct (decide (length (Dict.keys pos) = 1%nat)) as [Hlen|Hlen].
  { destruct pos as [|[t [|[p ln] l]] pos']; try done.
    intros [= <-]. split; [done|]. split; [done|by eexists]. }
  pose proof (shortest_distance_Ok search_term (positions_of pos)) as Hsd.
  destruct (shortest_distance search_term (positions_of pos))
    as [[[avg pn] ch]|e]; [|done].
  destruct (Hsd _ (positions_of_ok search_term pos Hpos) eq_refl)
    as (Hch & Hpn & Havg).
  cbn [fst snd] in *. cbn [mbind result_bind]. unfold float_truediv.
  pose proof (add_one_nonneg avg Havg) as Hsum.
  destruct (Float.is_zero (Float.add Float.one avg)) eqn:Hz; [done|].
  intros [= <-]. cbn [fst snd]. split; [|done].
  apply div_one_nonneg. by apply nonneg_nonzero.
Qed.

Lemma window_score_Raise (search_term : list string)
    (pos : list (string * list (Z * Z))) (e : exn) :
  occurrences_ok pos →
  window_score search_term pos = Raise e →
  e = ZeroDivisionError ∨ e = OverflowError.
Proof.
  intros Hpos. unfold window_score.
  destruct (decide (length (Dict.keys pos) = 1%nat)) as [Hlen|Hlen].
  { destruct pos as [|[t [|[p ln] l]] pos']; try done.
    inversion Hpos as [|? ? Hne]. done. }
  pose proof (shortest_distance_Raise search_term (positions_of pos)) as Hsd.
  destruct (shortest_distance search_term (positions_of pos))
    as [[[avg pn] ch]|e'].
  - cbn [mbind result_bind]. unfold float_truediv.
    destruct (Float.is_zero _); [|done]. intros [= <-]. by left.
  - intros [= <-]. right. by apply Hsd; [apply positions_of_ok|].
Qed.

Lemma score_document_ok (search_term : list string) (id : string)
    (pos : list (string * list (Z * Z))) (x : entry) :
  occurrences_ok pos →
  score_document search_term id pos = Ok x →
  x.1.1 = id ∧ is_Some x.2 ∧ nonneg x.1.2.
Proof.
  intros Hpos. unfold score_document.
  destruct (int_truediv _ _) as [coverage|e] eqn:Hcov; [|done].
  assert (Hc : nonneg coverage).
  { destruct (decide (Z.of_nat (length search_term) = 0)) as [Hz|Hnz].
    - unfold int_truediv in Hcov. by rewrite decide_True in Hcov by done.
    - eapply int_truediv_nonneg; [| |exact Hcov]; lia. }
  cbn [mbind result_bind].
  pose proof (window_score_Ok search_term pos) as Hw.
  destruct (window_score search_term pos) as [[[cur pn] ch]|e]; [|done].
  destruct (Hw _ Hpos eq_refl) as (Hcur & Hpn & Hch). cbn [fst snd] in *.
  cbn [mbind result_bind].
  destruct (float_of_int pn) as [pairs|e] eqn:Hpairs; [|done].
  cbn [mbind result_bind].
  intros Hx. injection Hx as <-. split; [reflexivity|]. split; [exact Hch|].
  apply float_of_int_nonneg in Hpairs; [|done].
  apply add_nonneg; [apply add_nonneg|];
    [by apply mul_ALPHA_nonneg|by apply mul_BETA_nonneg|by apply mul_GAMMA_nonneg].
Qed.

Lemma score_document_Raise (search_term : list string) (id : string)
    (pos : list (string * list (Z * Z))) (e : exn) :
  occurrences_ok pos →
  score_document search_term id pos = Raise e →
  e = ZeroDivisionError ∨ e = OverflowError.
Proof.
  intros Hpos. unfold score_document.
  destruct (int_truediv _ _) as [coverage|e'] eqn:Hcov.
  - cbn [mbind result_bind].
    pose proof (window_score_Raise search_term pos) as Hw.
    destruct (window_score search_term pos) as [[[cur pn] ch]|e'']; cbn [mbind result_bind].
    + destruct (float_of_int pn) as [pairs|e''] eqn:Hpairs; [done|].
      intros [= <-]. right. by eapply float_of_int_Raise.
    + intros [= <-]. by apply Hw.
  - intros [= <-]. revert Hcov. unfold int_truediv.
    destruct (decide _); [intros [= <-]; by left|].
    destruct (Float.is_infinite _); [|done]. intros [= <-]. by right.
Qed.

(** What [score_all] returns, or the exception it raises. *)
Lemma score_all_ok (search_term : list string) (m : match_dict) :
  Forall (λ kv, occurrences_ok kv.2) m →
  match score_all search_term m with
  | Ok temp_rank => Forall (λ x : entry, is_Some x.2 ∧ nonneg x.1.2) temp_rank
  | Raise e => e = ZeroDivisionError ∨ e = OverflowError
  end.
Proof.
  induction 1 as [|[id pos] m Hpos Hm IH]; simpl; [constructor|].
  destruct (score_document search_term id pos) as [x|e] eqn:Hx.
  - destruct (score_all search_term m) as [temp_rank|e]; [|done].
    constructor; [|done]. by destruct (score_document_ok _ _ _ _ Hpos Hx) as (_ & ? & ?).
  - by eapply score_document_Raise.
Qed.
End SearchFacts.

(** The order [ranked.sort] sorts by: higher rounded score first, and
    for equal rounded scores the smaller [int(id)] first. *)
Definition ranked_before (x y : SearchEngine.entry) : Prop :=
  ∃ n m, Py.int x.1.1 = Some n ∧ Py.int y.1.1 = Some m ∧
         (Float.ltb (SearchEngine.round10 y.1.2) (SearchEngine.round10 x.1.2) = true ∨
          (Float.eqb (SearchEngine.round10 x.1.2) (SearchEngine.round10 y.1.2) = true ∧
           n ≤ m)).

(** Following the spec's words: descending rounded score, ties by
    ascending document id, the ids being the strings they are. *)
Definition sorted_by_score_then_id (ranked : list SearchEngine.entry) : Prop :=
  StronglySorted
    (λ x y, Float.ltb (SearchEngine.round10 y.1.2) (SearchEngine.round10 x.1.2) = true ∨
            (Float.eqb (SearchEngine.round10 x.1.2) (SearchEngine.round10 y.1.2) = true ∧
             String.leb x.1.1 y.1.1 = true))
    ranked.

Section RankFacts.
Context `{NLTK} `{HashOrder}.
Import SearchEngine.

Definition ids (r : list entry) : list string := (λ x : entry, x.1.1) <$> r.

Lemma unique_put_ids (x : entry) (unique : list entry) :
  ids (unique_put x unique) =
  if decide (x.1.1 ∈ ids unique) then ids unique else (ids unique ++ [x.1.1])%list.
Proof.
  induction unique as [|y unique IH].
  { cbn. destruct (decide (x.1.1 ∈ [])) as [Hin|_]; [by apply elem_of_nil in Hin|done]. }
  cbn [unique_put].
  destruct (decide (y.1.1 = x.1.1)) as [Heq|Hne].
  - unfold ids. rewrite !fmap_cons.
    destruct (decide (x.1.1 ∈ y.1.1 :: _)) as [_|Hn].
    + destruct (Float.ltb y.1.2 x.1.2); [by rewrite Heq|done].
    + destruct Hn. rewrite Heq. left.
  - unfold ids in *. rewrite !fmap_cons. rewrite IH.
    destruct (decide (x.1.1 ∈ _ <$> unique)) as [Hin|Hin];
      destruct (decide (x.1.1 ∈ y.1.1 :: _)) as [Hin'|Hin']; try done.
    + destruct Hin'. by right.
    + apply elem_of_cons in Hin' as [?|?]; [congruence|done].
Qed.

Lemma dedup_NoDup (temp_rank : list entry) : NoDup (ids (dedup temp_rank)).
Proof.
  unfold dedup.
  assert (Hgen : ∀ l unique, NoDup (ids unique) →
    NoDup (ids (foldl (λ unique x, unique_put x unique) unique l))).
  { induction l as [|x l IH]; intros unique Hu; simpl; [done|].
    apply IH. rewrite unique_put_ids.
    destruct (decide (x.1.1 ∈ ids unique)); [done|].
    apply NoDup_app. split_and!; [done| |apply NoDup_singleton].
    intros y Hy ->%list_elem_of_singleton. done. }
  apply Hgen. constructor.
Qed.

Lemma unique_put_Forall (P : entry → Prop) x unique :
  P x → Forall P unique → Forall P (unique_put x unique).
Proof.
  intros Hx. induction 1 as [|y unique Hy Hu IH]; simpl.
  - by constructor.
  - destruct (decide (y.1.1 = x.1.1)); constructor; try done.
    by destruct (Float.ltb y.1.2 x.1.2).
Qed.

Lemma dedup_Forall (P : entry → Prop) temp_rank :
  Forall P temp_rank → Forall P (dedup temp_rank).
Proof.
  unfold dedup.
  assert (Hgen : ∀ l unique, Forall P l → Forall P unique →
    Forall P (foldl (λ unique x, unique_put x unique) unique l)).
  { induction l as [|x l IH]; intros unique Hl Hu; simpl; [done|].
    inversion Hl; subst. apply IH; [done|]. by apply unique_put_Forall. }
  intros Hl. apply Hgen; [done|constructor].
Qed.

(** A key and the element it was computed from. *)
Definition key_of (kx : (spec_float * Z) * entry) : Prop :=
  Py.int kx.2.1.1 = Some kx.1.2 ∧ kx.1.1 = Float.opp (round10 kx.2.1.2).

Lemma sort_keys_spec (ranked : list entry) ks :
  sort_keys ranked = Some ks → ks.*2 = ranked ∧ Forall key_of ks.
Proof.
  revert ks. induction ranked as [|x ranked IH]; intros ks; simpl.
  { intros [= <-]. split; [done|constructor]. }
  destruct (Py.int x.1.1) as [n|] eqn:Hn; [|done]. simpl.
  destruct (sort_keys ranked) as [ks'|]; [|done]. simpl.
  intros [= <-]. destruct (IH ks' eq_refl) as [Heq Hks].
  split; [by rewrite fmap_cons, Heq|]. constructor; [|done]. by split.
Qed.

Lemma sort_keys_None (ranked : list entry) :
  sort_keys ranked = None ↔ ∃ x, x ∈ ranked ∧ Py.int x.1.1 = None.
Proof.
  induction ranked as [|x ranked IH]; simpl.
  { split; [done|]. by intros (x & ?%elem_of_nil & _). }
  destruct (Py.int x.1.1) as [n|] eqn:Hn; simpl.
  - destruct (sort_keys ranked) as [ks'|]; simpl.
    + split; [done|]. intros (y & [->|Hy]%elem_of_cons & Hnone); [congruence|].
      destruct IH as [_ IH]. discriminate IH. by exists y.
    + split; [|done]. intros _. destruct IH as [IH _].
      destruct (IH eq_refl) as (y & Hy & Hnone). exists y. split; [by right|done].
  - split; [|done]. intros _. exists x. split; [left|done].
Qed.

Lemma sort_ranked_perm (unique ranked : list entry) :
  sort_ranked unique = Ok ranked →
  ranked ≡ₚ unique ∧ Forall (λ x : entry, is_Some (Py.int x.1.1)) ranked.
Proof.
  unfold sort_ranked. destruct (sort_keys unique) as [ks|] eqn:Hks; [|done].
  intros [= <-]. apply sort_keys_spec in Hks as [Heq Hkeys]. split.
  - by rewrite <- Heq, stable_sort_perm.
  - apply Forall_fmap. rewrite stable_sort_perm.
    eapply Forall_impl; [exact Hkeys|]. intros kx [Hint _]. simpl. by eexists.
Qed.

(** When every score is a number, zero or above, the keys are
    comparable and the sort puts them in order. *)
Lemma sort_ranked_Ok (unique ranked : list entry) :
  Forall (λ x : entry, nonneg x.1.2) unique →
  sort_ranked unique = Ok ranked →
  StronglySorted ranked_before ranked.
Proof.
  intros Hnum. unfold sort_ranked.
  destruct (sort_keys unique) as [ks|] eqn:Hks; [|done].
  intros [= <-]. apply sort_keys_spec in Hks as [Heq Hkeys].
  assert (Hnan : Forall (λ kx : spec_float * Z * entry,
                           kx.1.1 ≠ S754_nan ∧ round10 kx.2.1.2 ≠ S754_nan) ks).
  { rewrite <- Heq in Hnum.
    apply Forall_forall. intros kx Hkx.
    rewrite Forall_forall in Hnum. rewrite Forall_forall in Hkeys.
    destruct (Hkeys kx Hkx) as [_ ->].
    assert (round10 kx.2.1.2 ≠ S754_nan).
    { apply nonneg_not_nan, round_digits_nonneg; [done|].
      apply Hnum. by apply list_elem_of_fmap_2. }
    split; [by apply float_opp_nan|done]. }
  set (sorted := stable_sort (λ a b : spec_float * Z * entry, key_leb a.1 b.1) ks).
  assert (Hperm : sorted ≡ₚ ks) by apply stable_sort_perm.
  assert (Hsorted : StronglySorted
    (λ a b : spec_float * Z * entry, key_leb a.1 b.1 = true) sorted).
  { apply (stable_sort_StronglySorted_on _ (λ kx : spec_float * Z * entry,
             kx.1.1 ≠ S754_nan ∧ round10 kx.2.1.2 ≠ S754_nan)); [..|done].
    - intros a b [Ha _] [Hb _]. by apply key_leb_total.
    - intros a b c [Ha _] [Hb _] [Hc _]. by apply key_leb_trans. }
  assert (Hk : Forall key_of sorted) by (by rewrite Hperm).
  assert (Hn : Forall (λ kx : spec_float * Z * entry,
                         kx.1.1 ≠ S754_nan ∧ round10 kx.2.1.2 ≠ S754_nan) sorted)
    by (by rewrite Hperm).
  clear Hperm. induction Hsorted as [|kx l Hl IH Hall]; [constructor|].
  inversion Hk as [|? ? [Hint Hscore] Hk']; subst.
  inversion Hn as [|? ? [_ Hx] Hn']; subst.
  rewrite fmap_cons. constructor; [by apply IH|].
  apply Forall_fmap, Forall_forall. intros ky Hky.
  rewrite Forall_forall in Hall. rewrite Forall_forall in Hk'.
  rewrite Forall_forall in Hn'.
  destruct (Hk' ky Hky) as [Hint' Hscore']. destruct (Hn' ky Hky) as [_ Hy].
  specialize (Hall ky Hky). simpl in Hall.
  exists kx.1.2, ky.1.2. split_and!; [done..|].
  apply key_leb_opp; [done..|].
  rewrite <- Hscore, <- Hscore'. by destruct kx.1, ky.1.
Qed.

Lemma sort_ranked_Raise (unique : list entry) e :
  sort_ranked unique = Raise e → e = ValueError.
Proof.
  unfold sort_ranked. destruct (sort_keys unique); [done|]. by intros [= <-].
Qed.

(** With every [chosen] a dictionary and no id twice, the output
    loop runs to its end. *)
Lemma output_ok (self : engine) (match_line : bool) (ranked : list entry) :
  ∀ printed : gset string,
  Forall (λ x : entry, is_Some x.2) ranked →
  NoDup (ids ranked) →
  (∀ id, id ∈ ids ranked → id ∉ printed) →
  (output self match_line printed ranked).2 = Ok ().
Proof.
  induction ranked as [|[[id score] chosen] ranked IH]; intros printed Hch Hnd Hpr;
    [done|].
  inversion Hch as [|? ? [ch Hsome] Hch']; subst. simpl in Hsome. subst chosen.
  unfold ids in Hnd. rewrite fmap_cons in Hnd. simpl in Hnd.
  apply NoDup_cons in Hnd as [Hid Hnd].
  assert (Hrest : (output self match_line ({[id]} ∪ printed) ranked).2 = Ok ()).
  { apply IH; [done..|]. intros id' Hin.
    apply not_elem_of_union. split.
    - intros ->%elem_of_singleton. done.
    - apply Hpr. unfold ids. rewrite fmap_cons. by right. }
  cbn [output].
  destruct (decide (id ∈ printed)) as [Hin|_].
  { destruct (Hpr id); [|done]. unfold ids. rewrite fmap_cons. left. }
  destruct match_line.
  - unfold print_match. destruct (doc self id) as [lines|];
      destruct (output self true ({[id]} ∪ printed) ranked) as [out r]; exact Hrest.
  - destruct (output self false ({[id]} ∪ printed) ranked) as [out r]. exact Hrest.
Qed.

(** The ranking of [search], which reads the index only. *)
Definition rank (idx : gmap string (list posting)) (search_term : list string)
    : result (list entry) :=
  match score_all search_term (group_matches (Engine idx (λ _, None)) search_term) with
  | Raise e => Raise e
  | Ok temp_rank => sort_ranked (dedup temp_rank)
  end.

Definition query_of (origin_query : string) : string :=
  if Py.startswith_char ">" origin_query
  then Py.strip (Py.tail origin_query) else Py.strip origin_query.

Lemma group_matches_index (self self' : engine) search_term :
  inverted_index self = inverted_index self' →
  group_matches self search_term = group_matches self' search_term.
Proof. unfold group_matches. by intros ->. Qed.

Lemma search_result (self : engine) (origin_query : string) :
  (search self origin_query).2 =
  match preprocess_sentence (query_of origin_query) with
  | [] => Ok []
  | search_term => rank (inverted_index self) search_term
  end.
Proof.
  unfold search. fold (query_of origin_query).
  destruct (preprocess_sentence (query_of origin_query)) as [|t Q] eqn:HQ; [done|].
  unfold rank.
  rewrite (group_matches_index (Engine (inverted_index self) (λ _, None)) self) by done.
  pose proof (score_all_ok (t :: Q) (group_matches self (t :: Q))
                (group_matches_ok self (t :: Q))) as Hscore.
  destruct (score_all (t :: Q) (group_matches self (t :: Q))) as [temp_rank|e];
    [|done].
  destruct (sort_ranked (dedup temp_rank)) as [ranked|e] eqn:Hsort; [|done].
  apply sort_ranked_perm in Hsort as (Hperm & _).
  pose proof (output_ok self (Py.startswith_char ">" origin_query) ranked ∅) as Hout.
  destruct (output self (Py.startswith_char ">" origin_query) ∅ ranked) as [out r].
  simpl in Hout. rewrite Hout; [done|..].
  - rewrite Hperm. apply dedup_Forall.
    eapply Forall_impl; [exact Hscore|]. by intros x [? _].
  - unfold ids. rewrite Hperm. apply dedup_NoDup.
  - intros id _. apply not_elem_of_empty.
Qed.
End RankFacts.

(** C5. The sequence [search] returns holds each document id at most
    once, and [search] never raises the [AssertionError] of the output
    loop, whatever the index and the query. *)
Theorem ranked_ids_unique `{NLTK} `{HashOrder}
    (self : SearchEngine.engine) (origin_query : string) :
  match SearchEngine.search self origin_query with
  | (_, SearchEngine.Ok ranked) => NoDup (ids ranked)
  | (_, SearchEngine.Raise e) => e ≠ SearchEngine.AssertionError
  end.
Proof.
  pose proof (search_result self origin_query) as Hres.
  destruct (SearchEngine.search self origin_query) as [out res].
  simpl in Hres. subst res.
  destruct (SearchEngine.preprocess_sentence (query_of origin_query)) as [|t Q];
    [constructor|].
  unfold rank.
  pose proof (score_all_ok (t :: Q)
    (SearchEngine.group_matches
       (SearchEngine.Engine (SearchEngine.inverted_index self) (λ _, None)) (t :: Q))
    (group_matches_ok _ (t :: Q))) as Hscore.
  destruct (SearchEngine.score_all _ _) as [temp_rank|e];
    [|by destruct Hscore as [-> | ->]].
  destruct (SearchEngine.sort_ranked (SearchEngine.dedup temp_rank))
    as [ranked|e] eqn:Hsort.
  - apply sort_ranked_perm in Hsort as (Hperm & _).
    unfold ids. rewrite Hperm. apply dedup_NoDup.
  - by apply sort_ranked_Raise in Hsort as ->.
Qed.

(** C1, as stated, fails.  On the index of [Example.corpus] the query
    "fall" gives documents "1", "2" and "10" the same rounded score, and
    [search] returns them in that order, although the id "10" is below
    the id "2"; and on an index whose document is named "doc1" the
    query "quick fox" raises [ValueError] and returns no sequence. *)
Lemma ranked_ties_by_integer_value :
  (∃ ranked,
     (@SearchEngine.search Example.toy Example.first_seen Example.engine "fall").2
       = SearchEngine.Ok ranked ∧
     (λ x : SearchEngine.entry, (x.1.1, SearchEngine.round10 x.1.2)) <$> ranked
       = [("1", Float.one); ("2", Float.one); ("10", Float.one)] ∧
     String.ltb "10" "2" = true ∧
     ¬ sorted_by_score_then_id ranked) ∧
  @SearchEngine.search Example.toy Example.first_seen Example.named_engine "quick fox"
    = ([], SearchEngine.Raise SearchEngine.ValueError).
Proof.
  split; [|vm_compute; reflexivity].
  exists (match (@SearchEngine.search Example.toy Example.first_seen
                   Example.engine "fall").2 with
          | SearchEngine.Ok ranked => ranked
          | SearchEngine.Raise _ => []
          end).
  assert (Hmap : (λ x : SearchEngine.entry, (x.1.1, SearchEngine.round10 x.1.2)) <$>
    (match (@SearchEngine.search Example.toy Example.first_seen
              Example.engine "fall").2 with
     | SearchEngine.Ok ranked => ranked
     | SearchEngine.Raise _ => []
     end) = [("1", Float.one); ("2", Float.one); ("10", Float.one)])
    by (vm_compute; reflexivity).
  split; [vm_compute; reflexivity|].
  split; [exact Hmap|]. split; [reflexivity|].
  revert Hmap. generalize (match (@SearchEngine.search Example.toy Example.first_seen
                   Example.engine "fall").2 with
          | SearchEngine.Ok ranked => ranked
          | SearchEngine.Raise _ => []
          end).
  intros [|x1 [|x2 [|x3 [|x4 r]]]] Hmap Hs; try discriminate Hmap.
  injection Hmap as _ _ Hid2 Hs2 Hid3 Hs3.
  apply StronglySorted_inv in Hs as [Hs1 _].
  apply StronglySorted_inv in Hs1 as [_ Hall].
  apply Forall_cons in Hall as [Hr _].
  rewrite Hid2, Hs2, Hid3, Hs3 in Hr.
  destruct Hr as [Hr|[_ Hr]]; vm_compute in Hr; discriminate.
Qed.

(** C1, amended.  Whenever [search] returns a sequence, every id in it
    is a string that [int] converts, the sequence is in descending
    order of [round(score, 10)], and any two documents whose rounded
    scores are equal appear in ascending order of [int(id)].  The
    scores are the doubles the code computes, and they are compared as
    doubles. *)
Theorem ranked_sorted `{NLTK} `{HashOrder}
    (self : SearchEngine.engine) (origin_query : string)
    (out : list string) (ranked : list SearchEngine.entry) :
  SearchEngine.search self origin_query = (out, SearchEngine.Ok ranked) →
  StronglySorted ranked_before ranked ∧
  Forall (λ x : SearchEngine.entry, is_Some (Py.int x.1.1)) ranked.
Proof.
  intros Hsearch.
  pose proof (search_result self origin_query) as Hres.
  rewrite Hsearch in Hres. simpl in Hres.
  destruct (SearchEngine.preprocess_sentence (query_of origin_query)) as [|t Q].
  { injection Hres as ->. split; constructor. }
  unfold rank in Hres.
  pose proof (score_all_ok (t :: Q)
    (SearchEngine.group_matches
       (SearchEngine.Engine (SearchEngine.inverted_index self) (λ _, None)) (t :: Q))
    (group_matches_ok _ (t :: Q))) as Hscore.
  destruct (SearchEngine.score_all _ _) as [temp_rank|e]; [|done].
  symmetry in Hres. split.
  - eapply sort_ranked_Ok; [|exact Hres]. apply dedup_Forall.
    eapply Forall_impl; [exact Hscore|]. by intros x [_ ?].
  - by apply sort_ranked_perm in Hres as [_ ?].
Qed.

Lemma ranked_sorted_witness :
  ∃ out ranked,
    @SearchEngine.search Example.toy Example.first_seen Example.engine "leaves fall"
      = (out, SearchEngine.Ok ranked) ∧
    ids ranked = ["1"; "2"; "10"] ∧
    StronglySorted ranked_before ranked.
Proof.
  assert (Hids : ids (match (@SearchEngine.search Example.toy Example.first_seen
        Example.engine "leaves fall").2 with SearchEngine.Ok r => r | _ => [] end)
        = ["1"; "2"; "10"]) by (vm_compute; reflexivity).
  destruct (@SearchEngine.search Example.toy Example.first_seen Example.engine
              "leaves fall") as [out [ranked|e]] eqn:Hsearch;
    [|discriminate Hids].
  exists out, ranked. split; [reflexivity|]. split; [exact Hids|].
  exact (proj1 (@ranked_sorted Example.toy Example.first_seen Example.engine
                  "leaves fall" out ranked Hsearch)).
Defined.

(** C8. A query line whose normalized term list is empty makes
    [search] return the empty list, print nothing and raise nothing. *)
Theorem empty_query_no_output `{NLTK} `{HashOrder}
    (self : SearchEngine.engine) (origin_query : string) :
  SearchEngine.preprocess_sentence (query_of origin_query) = [] →
  SearchEngine.search self origin_query = ([], SearchEngine.Ok []).
Proof.
  intros Hempty. unfold SearchEngine.search. fold (query_of origin_query).
  by rewrite Hempty.
Qed.

Lemma empty_query_no_output_witness :
  @SearchEngine.search Example.toy Example.first_seen Example.engine "> ?! "
    = ([], SearchEngine.Ok []).
Proof.
  apply (@empty_query_no_output Example.toy Example.first_seen).
  vm_compute. reflexivity.
Defined.


(** Two documents whose scores differ in the eleventh decimal: the
    doubles 0.5 + 1/256000 and 0.5 + 1/255999 both round to
    0.5000039063, so the documents tie and come out in the order of
    their ids, although the second score is the greater. *)
Lemma rounded_scores_tie :
  let idx : gmap string (list posting) :=
    {[ "a" := [Posting "1" 0 0; Posting "2" 0 0];
       "b" := [Posting "1" 256000 0; Posting "2" 255999 0] ]} in
  ∃ s1 s2 ch1 ch2,
    (@SearchEngine.search Example.toy Example.first_seen
       (SearchEngine.Engine idx (λ _, None)) "b a c d").2
      = SearchEngine.Ok [("1", s1, ch1); ("2", s2, ch2)] ∧
    Float.ltb s1 s2 = true ∧
    SearchEngine.round10 s1 = SearchEngine.round10 s2 ∧
    SearchEngine.round10 s1 = Float.nearest false 5000039063 10000000000.
Proof.
  intros idx. do 4 eexists. split_and!; [vm_compute; reflexivity|..];
    vm_compute; reflexivity.
Qed.

(** What [int] converts and what it does not: blanks around the digits
    and single underscores between them are accepted; the separators
    U+001C to U+001F, which [str.strip] removes, are not. *)
Lemma int_examples :
  Py.int " 12_3 " = Some 123 ∧ Py.int "-007" = Some (-7) ∧
  Py.int ("5" ++ String (ascii_of_nat 31) EmptyString) = None ∧
  Py.strip ("5" ++ String (ascii_of_nat 31) EmptyString) = "5" ∧
  Py.int "1__2" = None ∧ Py.int "doc1" = None ∧ Py.int "" = None.
Proof. split_and!; vm_compute; reflexivity. Qed.
(** ** The preview *)

Section PreviewFacts.
Context `{NLTK} `{HashOrder}.
Import SearchEngine.

(** Line [i] is recorded for a chosen term of document [id] at its
    chosen position. *)
Definition matched_line (self : engine) (id : string)
    (chosen : gmap string Z) (i : Z) : Prop :=
  ∃ term pos r, chosen !! term = Some pos ∧
                r ∈ default [] (inverted_index self !! term) ∧
                p_id r = id ∧ p_pos r = pos ∧ p_line r = i.

Lemma collect_rows (id : string) (pos : Z) (rows : list posting)
    (line_id : gset Z) (i : Z) :
  i ∈ foldl (λ line_id (r : posting),
               if decide (p_id r = id ∧ p_pos r = pos)
               then {[p_line r]} ∪ line_id else line_id) line_id rows ↔
  i ∈ line_id ∨ ∃ r, r ∈ rows ∧ p_id r = id ∧ p_pos r = pos ∧ p_line r = i.
Proof.
  revert line_id. induction rows as [|r rows IH]; intros line_id; simpl.
  { split; [by left|]. intros [?|(r & ?%elem_of_nil & _)]; done. }
  rewrite IH. split.
  - intros [Hin|(r' & Hr' & Hrest)].
    + destruct (decide (p_id r = id ∧ p_pos r = pos)) as [[Hid Hpos]|_];
        [|by left].
      apply elem_of_union in Hin as [->%elem_of_singleton|Hin]; [|by left].
      right. exists r. split; [left|done].
    + right. exists r'. split; [by right|done].
  - intros [Hin|(r' & [->|Hr']%elem_of_cons & Hid & Hpos & Hline)].
    + left. destruct (decide (p_id r = id ∧ p_pos r = pos)); [|done].
      apply elem_of_union. by right.
    + left. destruct (decide (p_id r = id ∧ p_pos r = pos)) as [_|Hn];
        [|by destruct Hn].
      apply elem_of_union. left. by apply elem_of_singleton.
    + right. by exists r'.
Qed.

Lemma collect_lines_spec (self : engine) (id : string)
    (chosen : gmap string Z) (i : Z) :
  i ∈ collect_lines self id chosen ↔ matched_line self id chosen i.
Proof.
  unfold collect_lines, matched_line.
  assert (Hgen : ∀ (tps : list (string * Z)) (line_id : gset Z),
    i ∈ foldl (λ line_id tp,
                 foldl (λ line_id (r : posting),
                          if decide (p_id r = id ∧ p_pos r = tp.2)
                          then {[p_line r]} ∪ line_id else line_id)
                       line_id (default [] (inverted_index self !! tp.1)))
              line_id tps ↔
    i ∈ line_id ∨
    ∃ term pos r, (term, pos) ∈ tps ∧
                  r ∈ default [] (inverted_index self !! term) ∧
                  p_id r = id ∧ p_pos r = pos ∧ p_line r = i).
  { induction tps as [|[term pos] tps IH]; intros line_id; simpl.
    { split; [by left|]. intros [?|(? & ? & ? & ?%elem_of_nil & _)]; done. }
    rewrite IH, collect_rows. split.
    - intros [[Hin|(r & Hr & Hrest)]|(term' & pos' & r & Htp & Hrest)].
      + by left.
      + right. exists term, pos, r. split; [left|done].
      + right. exists term', pos', r. split; [by right|done].
    - intros [Hin|(term' & pos' & r & [[= -> ->]|Htp]%elem_of_cons & Hrest)].
      + left. by left.
      + left. right. by exists r.
      + right. by exists term', pos', r. }
  rewrite Hgen. split.
  - intros [?%not_elem_of_empty|(term & pos & r & Htp & Hrest)]; [done|].
    exists term, pos, r. split; [by apply elem_of_map_to_list|done].
  - intros (term & pos & r & Hch & Hrest). right.
    exists term, pos, r. split; [by apply elem_of_map_to_list|done].
Qed.

Lemma StronglySorted_le_NoDup (l : list Z) :
  StronglySorted Z.le l → NoDup l → StronglySorted Z.lt l.
Proof.
  induction 1 as [|x l Hl IH Hx]; intros Hnd; [constructor|].
  apply NoDup_cons in Hnd as [Hin Hnd]. constructor; [by apply IH|].
  apply Forall_forall. intros y Hy. rewrite Forall_forall in Hx.
  specialize (Hx y Hy). assert (x ≠ y) by (by intros ->). lia.
Qed.

Lemma endswith_char_snoc (c : ascii) (s : string) :
  Py.endswith_char c (s ++ String c EmptyString) = true.
Proof.
  induction s as [|d s IH]; simpl.
  - apply Ascii.eqb_refl.
  - destruct (s ++ String c EmptyString)%string eqn:Hs; [|exact IH].
    by destruct s.
Qed.

Lemma print_line_spec (lines : list string) (i : Z) :
  (0 ≤ i < Z.of_nat (length lines) →
   ∃ line, lines !! Z.to_nat i = Some line ∧
           print_line lines i =
           [if Py.endswith_char (ascii_of_nat 10) line then line
            else (line ++ nl)%string]) ∧
  (¬ (0 ≤ i < Z.of_nat (length lines)) → print_line lines i = []) ∧
  Forall (λ s, Py.endswith_char (ascii_of_nat 10) s = true) (print_line lines i).
Proof.
  unfold print_line. split_and!.
  - intros Hi. destruct (decide (0 ≤ i < Z.of_nat (length lines))); [|done].
    destruct (lookup_lt_is_Some_2 lines (Z.to_nat i)) as [line Hline]; [lia|].
    exists line. by rewrite Hline.
  - intros Hi. by destruct (decide (0 ≤ i < Z.of_nat (length lines))).
  - destruct (decide (0 ≤ i < Z.of_nat (length lines))); [|constructor].
    destruct (lines !! Z.to_nat i) as [line|]; [|constructor].
    constructor; [|constructor].
    destruct (Py.endswith_char (ascii_of_nat 10) line) eqn:He; [done|].
    apply endswith_char_snoc.
Qed.
End PreviewFacts.
(** ** The order of root expansion *)

Lemma first_seen_ok : set_order_ok Example.first_seen.
Proof.
  intros l. split; [apply dict_fromkeys_NoDup|]. intros x. apply dict_fromkeys_elem.
Qed.

Lemma last_seen_ok : set_order_ok Example.last_seen.
Proof.
  intros l. simpl. split.
  - rewrite reverse_Permutation. apply dict_fromkeys_NoDup.
  - intros x. rewrite elem_of_reverse. apply dict_fromkeys_elem.
Qed.

(** C3, as stated, fails.  Two processes that iterate a set of strings
    in different orders, both within what the language promises, emit
    the roots of "leaves" in different orders; indexing the same corpus
    they build different posting lists for "leaf"; and on the same
    index the query "leaves" prints the documents in different orders. *)
Lemma root_order_differs_between_runs :
  set_order_ok Example.first_seen ∧ set_order_ok Example.last_seen ∧
  @find_root Example.toy Example.first_seen "leaves" = ["leaf"; "leave"] ∧
  @find_root Example.toy Example.last_seen "leaves" = ["leave"; "leaf"] ∧
  default [] (FileProcess.inverted_index
    (@FileProcess.build_index Example.toy Example.first_seen
       Example.corpus FileProcess.init) !! "leaf")
  ≠ default [] (FileProcess.inverted_index
    (@FileProcess.build_index Example.toy Example.last_seen
       Example.corpus FileProcess.init) !! "leaf") ∧
  (@SearchEngine.search Example.toy Example.first_seen Example.engine "leaves").1
  ≠ (@SearchEngine.search Example.toy Example.last_seen Example.engine "leaves").1.
Proof.
  split_and!.
  - apply first_seen_ok.
  - apply last_seen_ok.
  - vm_compute. reflexivity.
  - vm_compute. reflexivity.
  - intros Heq. vm_compute in Heq. discriminate.
  - intros Heq. vm_compute in Heq. discriminate.
Qed.

(** C3, amended.  For every word, the root-expansion terms are the
    results of the three lemmatizer calls, each emitted once; two runs
    emit the same terms, one sequence being a permutation of the other
    (the order is the iteration order of a set of strings, which the
    language leaves open between runs). *)
Theorem root_expansion_same_terms (N : NLTK) (O1 O2 : HashOrder) (word : string) :
  set_order_ok O1 → set_order_ok O2 →
  NoDup (@find_root N O1 word) ∧
  (∀ t, t ∈ @find_root N O1 word ↔
        t ∈ [lemmatize word DefaultPos; lemmatize word NOUN; lemmatize word VERB]) ∧
  @find_root N O1 word ≡ₚ @find_root N O2 word.
Proof.
  intros H1 H2. unfold find_root.
  set (roots := [lemmatize word DefaultPos; lemmatize word NOUN; lemmatize word VERB]).
  destruct (H1 roots) as [Hnd1 Hel1], (H2 roots) as [Hnd2 Hel2].
  split_and!; [done|done|].
  apply NoDup_Permutation; [done..|]. intros t. by rewrite Hel1, Hel2.
Qed.

Lemma root_expansion_same_terms_witness :
  NoDup (@find_root Example.toy Example.first_seen "leaves") ∧
  @find_root Example.toy Example.first_seen "leaves"
    ≡ₚ @find_root Example.toy Example.last_seen "leaves".
Proof.
  destruct (root_expansion_same_terms Example.toy Example.first_seen
              Example.last_seen "leaves" first_seen_ok last_seen_ok)
    as (Hnd & _ & Hperm).
  split; [exact Hnd|exact Hperm].
Defined.

(** * Further properties of the code *)

(** ** Normalization of tokens *)

Ltac each_char c := destruct c as [[] [] [] [] [] [] [] []].

Lemma lower_char_quote (c : ascii) :
  Ascii.eqb "'" (Py.lower_char c) = Ascii.eqb "'" c.
Proof. each_char c; vm_compute; reflexivity. Qed.

Lemma lower_app (s1 s2 : string) :
  Py.lower (s1 ++ s2) = (Py.lower s1 ++ Py.lower s2)%string.
Proof. induction s1 as [|c s1 IH]; simpl; [done|]. by rewrite IH. Qed.

Lemma lower_quote (s : string) :
  Py.contains_char "'" (Py.lower s) = Py.contains_char "'" s.
Proof.
  induction s as [|c s IH]; [done|].
  cbn [Py.lower Py.contains_char]. by rewrite lower_char_quote, IH.
Qed.

(** What the characters of a string that [isdigit] accepts are not. *)
Lemma isdigit_char_facts (c : ascii) :
  Py.isdigit_char c = true →
  Py.lower_char c = c ∧ Ascii.eqb "s" c = false ∧ Ascii.eqb "'" c = false ∧
  Re.ascii_lower c = false.
Proof.
  each_char c; intros Hc; vm_compute in Hc; try discriminate Hc;
    vm_compute; repeat split; reflexivity.
Qed.

(** What a character that is neither alphanumeric nor a hyphen is not. *)
Definition symbol_char (c : ascii) : bool :=
  negb (Py.isalnum_char c) && negb (Ascii.eqb "-" c).

Lemma symbol_char_facts (c : ascii) :
  symbol_char c = true →
  Py.lower_char c = c ∧ Ascii.eqb "s" c = false ∧ Ascii.eqb "-" c = false ∧
  Re.ascii_lower c = false ∧ Py.isdigit_char c = false ∧
  Py.isalnum_char c = false.
Proof.
  each_char c; intros Hc; vm_compute in Hc; try discriminate Hc;
    vm_compute; repeat split; reflexivity.
Qed.

Lemma all_chars_absent (p : ascii → bool) (c : ascii) (s : string) :
  (∀ d, p d = true → Ascii.eqb c d = false) →
  Py.all_chars p s = true → Py.contains_char c s = false.
Proof.
  intros Hp. induction s as [|d s IH]; simpl; [done|].
  intros [Hd Hs]%andb_true_iff. by rewrite (Hp d Hd), IH.
Qed.

Lemma all_chars_lower (p : ascii → bool) (s : string) :
  (∀ d, p d = true → Py.lower_char d = d) →
  Py.all_chars p s = true → Py.lower s = s.
Proof.
  intros Hp. induction s as [|d s IH]; simpl; [done|].
  intros [Hd Hs]%andb_true_iff. by rewrite (Hp d Hd), IH.
Qed.

(** A two-character pattern one of whose characters is absent from [s]
    does not occur in [s]. *)
Lemma replace_two_absent (a b c : ascii) (new s : string) :
  c = a ∨ c = b →
  Py.contains_char c s = false →
  Py.replace (String a (String b EmptyString)) new s = s.
Proof.
  intros Hc. unfold Py.replace. induction s as [|d s IH]; [done|].
  cbn [Py.contains_char]. intros [Hd Hs]%orb_false_iff.
  cbn [Py.replace_from].
  assert (Hprefix : String.prefix (String a (String b EmptyString)) (String d s) = false).
  { cbn [String.prefix].
    destruct (ascii_dec a d) as [<- | Hne]; [|reflexivity].
    destruct s as [|e s2]; [reflexivity|]. cbn [String.prefix].
    destruct (ascii_dec b e) as [<- | Hne']; [|reflexivity].
    destruct Hc as [-> | ->].
    - by rewrite Ascii.eqb_refl in Hd.
    - cbn [Py.contains_char] in Hs. by rewrite Ascii.eqb_refl in Hs. }
  rewrite Hprefix. by rewrite IH.
Qed.

Section NormalizeFacts.
Context `{NLTK} `{HashOrder}.

(** X1. A token that [isdigit] accepts is emitted unchanged, as its
    only term, whatever the lemmatizer. *)
Theorem normalize_token_digits (token : string) :
  Py.isdigit token = true → normalize_token token = [token].
Proof.
  unfold Py.isdigit. intros [Hne Hall]%andb_true_iff.
  assert (Hlower : Py.lower token = token).
  { eapply all_chars_lower; [|exact Hall]. intros d Hd.
    by destruct (isdigit_char_facts d Hd). }
  assert (Hs : Py.contains_char "s" token = false).
  { eapply all_chars_absent; [|exact Hall]. intros d Hd.
    by destruct (isdigit_char_facts d Hd) as (_ & ? & _). }
  unfold normalize_token. rewrite Hlower.
  rewrite (replace_two_absent "'" "s" "s" _ _ (or_intror eq_refl) Hs).
  rewrite (replace_two_absent "s" "'" "s" _ _ (or_introl eq_refl) Hs).
  assert (Habbr : Re.fullmatch_abbreviation token = false).
  { destruct token as [|a [|d1 [|b [|d2 [|]]]]]; try reflexivity.
    cbn [Py.all_chars] in Hall. apply andb_true_iff in Hall as [Ha _].
    destruct (isdigit_char_facts a Ha) as (_ & _ & _ & Hl).
    cbn [Re.fullmatch_abbreviation]. by rewrite Hl. }
  rewrite Habbr. unfold Py.isdigit. by rewrite Hne, Hall.
Qed.

(** X2. A token none of whose characters is alphanumeric or a hyphen
    emits no term. *)
Theorem normalize_token_symbols (token : string) :
  Py.all_chars symbol_char token = true → normalize_token token = [].
Proof.
  intros Hall.
  assert (Hlower : Py.lower token = token).
  { eapply all_chars_lower; [|exact Hall]. intros d Hd.
    by destruct (symbol_char_facts d Hd). }
  assert (Hs : Py.contains_char "s" token = false).
  { eapply all_chars_absent; [|exact Hall]. intros d Hd.
    by destruct (symbol_char_facts d Hd) as (_ & ? & _). }
  assert (Hhyphen : Py.contains_char "-" token = false).
  { eapply all_chars_absent; [|exact Hall]. intros d Hd.
    by destruct (symbol_char_facts d Hd) as (_ & _ & ? & _). }
  unfold normalize_token. rewrite Hlower.
  rewrite (replace_two_absent "'" "s" "s" _ _ (or_intror eq_refl) Hs).
  rewrite (replace_two_absent "s" "'" "s" _ _ (or_introl eq_refl) Hs).
  rewrite Hhyphen.
  destruct token as [|a token]; [reflexivity|].
  cbn [Py.all_chars] in Hall. apply andb_true_iff in Hall as [Ha Hall].
  destruct (symbol_char_facts a Ha) as (_ & _ & _ & Hl & Hdig & Haln).
  assert (Habbr : Re.fullmatch_abbreviation (String a token) = false).
  { destruct token as [|d1 [|b [|d2 [|]]]]; try reflexivity.
    cbn [Re.fullmatch_abbreviation]. by rewrite Hl. }
  rewrite Habbr. unfold Py.isdigit, Py.isalnum. cbn [Py.nonempty Py.all_chars].
  by rewrite Hdig, Haln.
Qed.

(** X3. When the set order lists each element once, a word has one,
    two or three roots. *)
Theorem find_root_size (word : string) :
  set_order_ok _ →
  (1 ≤ length (find_root word) ≤ 3)%nat.
Proof.
  intros Hok. unfold find_root.
  set (roots := [lemmatize word DefaultPos; lemmatize word NOUN; lemmatize word VERB]).
  destruct (Hok roots) as [Hnd Hel]. split.
  - assert (Hin : lemmatize word DefaultPos ∈ set_iter roots) by (apply Hel; left).
    destruct (set_iter roots); [by apply elem_of_nil in Hin|simpl; lia].
  - change 3%nat with (length roots). apply submseteq_length.
    apply NoDup_submseteq; [done|]. intros x. apply Hel.
Qed.

Lemma replace_possessive_suffix (u : string) :
  Py.contains_char "'" u = false →
  Py.replace "'s" "" (u ++ "'s") = u.
Proof.
  unfold Py.replace. induction u as [|d u IH]; [intros _; vm_compute; reflexivity|].
  cbn [Py.contains_char]. intros [Hd Hu]%orb_false_iff.
  change (String d u ++ "'s")%string with (String d (u ++ "'s")).
  cbn [Py.replace_from String.prefix].
  destruct (ascii_dec "'" d) as [<- | _]; [by rewrite Ascii.eqb_refl in Hd|].
  by rewrite IH.
Qed.

(** X4. For a token whose code points are all below 256 and that has
    no apostrophe, adding the possessive ending does not change the
    terms emitted.  (Above 255 [str.lower] depends on the position of a
    character in the token, and the property does not extend.) *)
Theorem normalize_token_possessive (token : string) :
  Py.contains_char "'" token = false →
  normalize_token (token ++ "'s") = normalize_token token.
Proof.
  intros Hq. unfold normalize_token.
  rewrite lower_app. change (Py.lower "'s") with "'s".
  assert (Hq' : Py.contains_char "'" (Py.lower token) = false)
    by (by rewrite lower_quote).
  rewrite (replace_possessive_suffix _ Hq').
  by rewrite (replace_two_absent "'" "s" "'" _ _ (or_introl eq_refl) Hq').
Qed.
End NormalizeFacts.

(** ** The substitutions of [preprocess_sentence] *)

Lemma sub_possessive_absent (s : string) :
  Py.contains_char "'" s = false → Re.sub_possessive s = s.
Proof.
  induction s as [|a t IH]; [done|].
  cbn [Py.contains_char]. intros [Ha Ht]%orb_false_iff.
  destruct t as [|b rest]; [done|].
  change (Re.sub_possessive (String a (String b rest))) with
    (if Re.possessive a b then Re.sub_possessive rest
     else String a (Re.sub_possessive (String b rest))).
  assert (Hp : Re.possessive a b = false).
  { unfold Re.possessive. cbn [Py.contains_char] in Ht.
    apply orb_false_iff in Ht as [Hb _].
    rewrite (Ascii.eqb_sym a), (Ascii.eqb_sym b "'"), Ha, Hb.
    by rewrite andb_false_r. }
  rewrite Hp. by rewrite IH.
Qed.

Lemma groups_absent (r : string) :
  Py.contains_char "," r = false → Re.groups r = (EmptyString, O).
Proof.
  destruct r as [|c0 [|a [|b [|c s']]]]; try done.
  cbn [Py.contains_char]. intros [Hc _]%orb_false_iff.
  cbn [Re.groups]. by rewrite (Ascii.eqb_sym c0), Hc.
Qed.

Lemma take_digits_rest (c : ascii) (k : nat) (s d r : string) :
  Re.take_digits k s = Some (d, r) →
  Py.contains_char c s = false → Py.contains_char c r = false.
Proof.
  revert s d r. induction k as [|k IH]; intros s d r; simpl.
  { by intros [= _ <-]. }
  destruct s as [|e s']; [done|].
  destruct (Py.isdecimal e); [|done].
  destruct (Re.take_digits k s') as [[d' r']|] eqn:Hk; [|done]. simpl.
  intros [= _ <-] [_ Hs']%orb_false_iff. by eapply IH.
Qed.

Lemma thousands_with_absent (k : nat) (s : string) :
  Py.contains_char "," s = false → Re.thousands_with k s = None.
Proof.
  intros Hs. unfold Re.thousands_with.
  destruct (Re.take_digits k s) as [[d r]|] eqn:Hk; [|done]. simpl.
  by rewrite (groups_absent r (take_digits_rest _ _ _ _ _ Hk Hs)).
Qed.

Lemma sub_thousands_absent (s : string) :
  Py.contains_char "," s = false → Re.sub_thousands s = s.
Proof.
  unfold Re.sub_thousands. induction s as [|c s IH]; [done|].
  intros Hs. cbn [Re.sub_thousands_from]. unfold Re.thousands_at.
  rewrite !thousands_with_absent by done.
  cbn [Py.contains_char] in Hs. apply orb_false_iff in Hs as [_ Hs].
  by rewrite IH.
Qed.

(** X5. A sentence with no apostrophe and no comma is indexed as it
    is: both substitutions leave it unchanged. *)
Theorem preprocess_sentence_plain (sentence : string) :
  Py.contains_char "'" sentence = false →
  Py.contains_char "," sentence = false →
  FileProcess.preprocess_sentence sentence = sentence.
Proof.
  intros Hq Hc. unfold FileProcess.preprocess_sentence.
  by rewrite (sub_possessive_absent _ Hq), (sub_thousands_absent _ Hc).
Qed.

(** ** The index builder, as a whole *)

Section IndexFacts.
Context `{NLTK} `{HashOrder}.
Import FileProcess.

Lemma file_index_num_file id lines st :
  num_file (file_index id lines st) = num_file st.
Proof.
  unfold file_index. rewrite file_index_flat.
  by destruct (add_postings_spec id (file_terms lines) st 0) as (_ & ? & _).
Qed.

Lemma processed_length (d : folder) (names : list string) :
  length (omap (λ name, (λ lines, (name, lines)) <$> read_lines d name) names) =
  length (filter (λ name, is_Some (read_lines d name)) names).
Proof.
  induction names as [|name names IH]; [done|].
  cbn [omap list_omap]. rewrite filter_cons.
  destruct (read_lines d name) as [lines|]; cbn [fmap option_fmap option_map].
  - destruct (decide (is_Some (Some lines))) as [_|Hn]; [cbn [length]; by rewrite IH|].
    destruct Hn. by eexists.
  - destruct (decide (is_Some (@None (list string)))) as [[? ?]|_]; done.
Qed.

Lemma build_num_file (d : folder) (names : list string) (st : state) :
  num_file (foldl (build_step d) st names) =
  (num_file st +
   length (omap (λ name, (λ lines, (name, lines)) <$> read_lines d name) names))%nat.
Proof.
  revert st. induction names as [|name names IH]; intros st.
  { cbn. lia. }
  cbn [foldl omap list_omap]. rewrite IH. unfold build_step.
  destruct (read_lines d name) as [lines|]; cbn [fmap option_fmap option_map].
  - cbn [num_file length]. rewrite file_index_num_file. lia.
  - lia.
Qed.

(** X6. The number of documents [build_index] reports is the number
    of regular files of the folder; other entries are not counted. *)
Theorem documents_counted (d : folder) (st : state) :
  num_file (build_index d st) =
  (num_file st +
   length (filter (λ name, is_Some (read_lines d name)) (listdir d)))%nat.
Proof.
  unfold build_index. rewrite build_num_file, processed_length. f_equal.
  apply Permutation_length.
  unfold sorted. by rewrite stable_sort_perm.
Qed.

(** The terms of the index are the recorded words, and no term has an
    empty list. *)
Definition index_ok (st : state) : Prop :=
  dom (inverted_index st) = unique_words st ∧
  map_Forall (λ _ (l : list posting), l ≠ []) (inverted_index st).

Lemma add_posting_ok id n st p t :
  index_ok st → index_ok (add_posting id n (st, p) t).1.
Proof.
  intros [Hdom Hne]. unfold add_posting. cbn [fst]. split; cbn [inverted_index unique_words].
  - by rewrite dom_insert_L, Hdom.
  - apply map_Forall_insert_2; [|done].
    intros Hnil. by apply app_eq_nil in Hnil as [_ ?].
Qed.

Lemma add_postings_ok id (tns : list (string * nat)) st p :
  index_ok st →
  index_ok (foldl (λ acc tn, add_posting id tn.2 acc tn.1) (st, p) tns).1.
Proof.
  revert st p. induction tns as [|[t n] tns IH]; intros st p Hok; [done|].
  cbn [foldl]. pose proof (add_posting_ok id n st p t Hok) as Hok'.
  destruct (add_posting id (t, n).2 (st, p) (t, n).1) as [st' p'] eqn:Hadd.
  cbn [fst snd] in Hadd. rewrite Hadd in Hok'. by apply IH.
Qed.

Lemma build_ok (d : folder) (names : list string) (st : state) :
  index_ok st → index_ok (foldl (build_step d) st names).
Proof.
  revert st. induction names as [|name names IH]; intros st Hok; [done|].
  cbn [foldl]. apply IH. unfold build_step.
  destruct (read_lines d name) as [lines|]; [|done].
  assert (Hf : index_ok (file_index name lines st)).
  { unfold file_index. rewrite file_index_flat. by apply add_postings_ok. }
  destruct Hf as [Hdom Hne]. by split.
Qed.

(** X7. In the index built from an empty state, the indexed terms are
    exactly the recorded unique words, no term has an empty postings
    list, and the number of terms reported is the number of unique
    words. *)
Theorem terms_are_unique_words (d : folder) :
  let st := build_index d init in
  dom (inverted_index st) = unique_words st ∧
  map_Forall (λ _ (l : list posting), l ≠ []) (inverted_index st) ∧
  total_terms st = size (unique_words st).
Proof.
  intros st.
  assert (Hok : index_ok st).
  { apply build_ok. split; [|apply map_Forall_empty].
    cbn [init inverted_index unique_words]. apply dom_empty_L. }
  destruct Hok as [Hdom Hne]. split_and!; [done..|].
  unfold total_terms. by rewrite <- Hdom, size_dom.
Qed.

Lemma postings_count_insert (m : gmap string (list posting)) t v :
  m !! t = None →
  map_fold (λ _ (l : list posting) n, (length l + n)%nat) O (<[t:=v]> m) =
  (length v + map_fold (λ _ (l : list posting) n, (length l + n)%nat) O m)%nat.
Proof.
  intros Hm. apply (map_fold_insert_L (λ _ (l : list posting) n, (length l + n)%nat));
    [intros; lia|done].
Qed.

Lemma postings_count_update (m : gmap string (list posting)) t v :
  (map_fold (λ _ (l : list posting) n, (length l + n)%nat) O (<[t:=v]> m)
   + length (default [] (m !! t)))%nat =
  (length v + map_fold (λ _ (l : list posting) n, (length l + n)%nat) O m)%nat.
Proof.
  destruct (m !! t) as [old|] eqn:Hm; cbn [default].
  - rewrite <- (insert_delete_eq m t v).
    rewrite <- (insert_delete_id m t old Hm) at 2.
    rewrite !postings_count_insert by apply lookup_delete_eq. unfold id. lia.
  - rewrite postings_count_insert by done. cbn [length]. lia.
Qed.

Lemma add_postings_total id (tns : list (string * nat)) st p :
  total_tokens (foldl (λ acc tn, add_posting id tn.2 acc tn.1) (st, p) tns).1 =
  (total_tokens st + length tns)%nat.
Proof.
  revert st p. induction tns as [|[t n] tns IH]; intros st p.
  { cbn. lia. }
  cbn [foldl]. unfold add_posting at 2. cbn [fst snd]. rewrite IH.
  unfold total_tokens. cbn [inverted_index length].
  pose proof (postings_count_update (inverted_index st) t
    (default [] (inverted_index st !! t) ++ [Posting id p (Z.of_nat n)])%list) as Hc.
  rewrite length_app in Hc. cbn [length] in Hc. lia.
Qed.

Lemma build_total (d : folder) (names : list string) (st : state) :
  total_tokens (foldl (build_step d) st names) =
  (total_tokens st +
   length (flat_map (λ f, emitted f.1 f.2)
     (omap (λ name, (λ lines, (name, lines)) <$> read_lines d name) names)))%nat.
Proof.
  revert st. induction names as [|name names IH]; intros st.
  { cbn. lia. }
  cbn [foldl omap list_omap]. rewrite IH. unfold build_step.
  destruct (read_lines d name) as [lines|]; cbn [fmap option_fmap option_map].
  - cbn [flat_map]. rewrite length_app.
    change (total_tokens {| inverted_index := inverted_index (file_index name lines st);
                            unique_words := unique_words (file_index name lines st);
                            num_file := S (num_file (file_index name lines st)) |})
      with (total_tokens (file_index name lines st)).
    unfold file_index. rewrite file_index_flat, add_postings_total.
    unfold emitted, emitted_from. rewrite length_imap. cbn [fst snd]. lia.
  - lia.
Qed.

(** X8. The number of tokens [build_index] reports, the sum of the
    lengths of all postings lists, is the number of term instances the
    documents emitted. *)
Theorem tokens_counted (d : folder) :
  total_tokens (build_index d init) = length (corpus_stream d).
Proof.
  unfold build_index. rewrite build_total. unfold corpus_stream, processed.
  unfold total_tokens. cbn [init inverted_index]. by rewrite map_fold_empty.
Qed.
End IndexFacts.

Section PostingFacts.
Context `{NLTK} `{HashOrder}.
Import FileProcess.

Lemma enumerate_elem (lines : list string) (n : nat) (line : string) :
  (n, line) ∈ enumerate lines ↔ lines !! n = Some line.
Proof.
  unfold enumerate. rewrite elem_of_lookup_imap. split.
  - by intros (i & y & [= -> ->] & Hy).
  - intros Hl. by exists n, line.
Qed.

Lemma file_terms_elem (lines : list string) (t : string) (n : nat) :
  (t, n) ∈ file_terms lines ↔
  ∃ line, lines !! n = Some line ∧ t ∈ line_terms line.
Proof.
  unfold file_terms. rewrite list_elem_of_In, in_flat_map. split.
  - intros ([n' line] & Hnl%list_elem_of_In & Ht%list_elem_of_In).
    apply list_elem_of_fmap in Ht as (t' & [= -> ->] & Ht'). cbn [fst snd] in *.
    exists line. split; [by apply enumerate_elem|done].
  - intros (line & Hl & Ht). exists (n, line). split.
    + by apply list_elem_of_In, enumerate_elem.
    + apply list_elem_of_In, list_elem_of_fmap. by exists t.
Qed.

Lemma postings_of_elem (t : string) (stream : list (string * posting)) (r : posting) :
  r ∈ postings_of t stream ↔ (t, r) ∈ stream.
Proof.
  unfold postings_of. rewrite list_elem_of_fmap. split.
  - intros ([t' r'] & -> & [Ht Hin]%list_elem_of_filter). cbn [fst snd] in *. by subst.
  - intros Hin. exists (t, r). split; [done|]. by apply list_elem_of_filter.
Qed.

Lemma processed_elem (d : folder) (name : string) (lines : list string) :
  (name, lines) ∈ processed d ↔ name ∈ listdir d ∧ read_lines d name = Some lines.
Proof.
  unfold processed, sorted. rewrite list_elem_of_omap. split.
  - intros (name' & Hin & Hr). rewrite stable_sort_perm in Hin.
    destruct (read_lines d name') as [lines'|] eqn:Hl; [|done].
    cbn in Hr. injection Hr as -> ->. done.
  - intros [Hin Hr]. exists name. rewrite stable_sort_perm. split; [done|].
    by rewrite Hr.
Qed.

Lemma emitted_elem (name : string) (lines : list string) (t : string) (r : posting) :
  (t, r) ∈ emitted name lines ↔
  ∃ i n, file_terms lines !! i = Some (t, n) ∧
         r = Posting name (Z.of_nat i) (Z.of_nat n).
Proof.
  unfold emitted, emitted_from. rewrite elem_of_lookup_imap. split.
  - intros (i & [t' n] & [= -> ->] & Hi). exists i, n. split; [done|].
    cbn [snd]. by rewrite Z.add_0_l.
  - intros (i & n & Hi & ->). exists i, (t, n). split; [|done].
    cbn [fst snd]. by rewrite Z.add_0_l.
Qed.

Lemma corpus_stream_elem (d : folder) (t : string) (r : posting) :
  (t, r) ∈ corpus_stream d ↔
  ∃ name lines i n,
    name ∈ listdir d ∧ read_lines d name = Some lines ∧
    file_terms lines !! i = Some (t, n) ∧
    r = Posting name (Z.of_nat i) (Z.of_nat n).
Proof.
  unfold corpus_stream. rewrite list_elem_of_In, in_flat_map. split.
  - intros ([name lines] & [Hin Hr]%list_elem_of_In%processed_elem & He%list_elem_of_In).
    apply emitted_elem in He as (i & n & Hi & ->). by exists name, lines, i, n.
  - intros (name & lines & i & n & Hin & Hr & Hi & ->).
    exists (name, lines). split.
    + by apply list_elem_of_In, processed_elem.
    + apply list_elem_of_In, emitted_elem. by exists i, n.
Qed.

(** The postings of a term in the built index, one by one. *)
Lemma built_posting_iff (d : folder) (t : string) (r : posting) :
  r ∈ default [] (inverted_index (build_index d init) !! t) ↔
  ∃ name lines i n,
    name ∈ listdir d ∧ read_lines d name = Some lines ∧
    file_terms lines !! i = Some (t, n) ∧
    r = Posting name (Z.of_nat i) (Z.of_nat n).
Proof.
  unfold build_index. rewrite build_index_spec.
  cbn [init inverted_index]. rewrite lookup_empty. cbn [default app].
  rewrite postings_of_elem. apply corpus_stream_elem.
Qed.

(** X9. In the built index a term has a posting for line [n] of
    document [name] exactly when [name] is a regular file of the folder
    and the normalization of its line [n] emits the term. *)
Theorem index_sound_and_complete (d : folder) (t name : string) (n : nat) :
  (∃ r, r ∈ default [] (inverted_index (build_index d init) !! t) ∧
        p_id r = name ∧ p_line r = Z.of_nat n) ↔
  (name ∈ listdir d ∧
   ∃ lines line, read_lines d name = Some lines ∧ lines !! n = Some line ∧
                 t ∈ line_terms line).
Proof.
  split.
  - intros (r & Hr & <- & Hline).
    apply built_posting_iff in Hr as (name & lines & i & n' & Hin & Hread & Hi & ->).
    cbn [p_id p_line] in *. apply Nat2Z.inj in Hline as ->.
    split; [done|]. apply list_elem_of_lookup_2, file_terms_elem in Hi as (line & Hl & Ht).
    by exists lines, line.
  - intros (Hin & lines & line & Hread & Hl & Ht).
    assert (Hterm : (t, n) ∈ file_terms lines) by (apply file_terms_elem; by exists line).
    apply list_elem_of_lookup in Hterm as [i Hi].
    exists (Posting name (Z.of_nat i) (Z.of_nat n)). split; [|done].
    apply built_posting_iff. by exists name, lines, i, n.
Qed.

(** X10. Every posting of the built index names a regular file of the
    folder, a line number below the number of its lines and a position
    below the number of terms it emitted. *)
Theorem postings_in_range (d : folder) (t : string) (r : posting) :
  r ∈ default [] (inverted_index (build_index d init) !! t) →
  ∃ lines, read_lines d (p_id r) = Some lines ∧
           0 ≤ p_line r < Z.of_nat (length lines) ∧
           0 ≤ p_pos r < Z.of_nat (length (file_terms lines)).
Proof.
  intros (name & lines & i & n & Hin & Hread & Hi & ->)%built_posting_iff.
  exists lines. cbn [p_id p_line p_pos]. split; [done|].
  pose proof (lookup_lt_Some _ _ _ Hi) as Hlt.
  apply list_elem_of_lookup_2, file_terms_elem in Hi as (line & Hl & _).
  apply lookup_lt_Some in Hl. lia.
Qed.

Lemma built_position_unique (d : folder) (t1 t2 : string) (r1 r2 : posting) :
  r1 ∈ default [] (inverted_index (build_index d init) !! t1) →
  r2 ∈ default [] (inverted_index (build_index d init) !! t2) →
  p_id r1 = p_id r2 → p_pos r1 = p_pos r2 →
  t1 = t2 ∧ r1 = r2.
Proof.
  intros (name1 & lines1 & i1 & n1 & _ & Hread1 & Hi1 & ->)%built_posting_iff
         (name2 & lines2 & i2 & n2 & _ & Hread2 & Hi2 & ->)%built_posting_iff.
  cbn [p_id p_pos]. intros <- Hpos. apply Nat2Z.inj in Hpos as <-.
  rewrite Hread1 in Hread2. injection Hread2 as <-.
  rewrite Hi1 in Hi2. by injection Hi2 as <- <-.
Qed.

(** X11. In the built index a document and a position determine the
    term and the posting: two terms never share a position of one
    document. *)
Theorem position_determines_term (d : folder) (t1 t2 : string) (r1 r2 : posting) :
  r1 ∈ default [] (inverted_index (build_index d init) !! t1) →
  r2 ∈ default [] (inverted_index (build_index d init) !! t2) →
  p_id r1 = p_id r2 → p_pos r1 = p_pos r2 →
  t1 = t2 ∧ r1 = r2.
Proof. apply built_position_unique. Qed.

Global Instance string_leb_antisym :
  AntiSymm eq (λ a b : string, String.leb a b = true).
Proof. intros a b. apply String.leb_antisym. Qed.

(** X12. The index does not depend on the order in which the folder
    lists its entries. *)
Theorem build_index_listing_order (names names' : list string)
    (files : string → option (list string)) (st : state) :
  names ≡ₚ names' →
  build_index (Folder names files) st = build_index (Folder names' files) st.
Proof.
  intros Hperm. unfold build_index. cbn [listdir].
  assert (Hsorted : sorted names = sorted names'); [|by rewrite Hsorted].
  apply (StronglySorted_unique (λ a b : string, String.leb a b = true));
    [apply sorted_names_StronglySorted..|].
  unfold sorted. by rewrite !stable_sort_perm.
Qed.
End PostingFacts.

(** ** The spread of a combination *)

Lemma sum_intervals_telescope (x : Z) (l : list Z) :
  SearchEngine.sum_intervals (x :: l) =
  default x (last (x :: l)) - x - Z.of_nat (length l).
Proof.
  revert x. induction l as [|y l IH]; intros x.
  { cbn. lia. }
  change (SearchEngine.sum_intervals (x :: y :: l)) with
    ((y - x - 1) + SearchEngine.sum_intervals (y :: l)).
  rewrite IH. change (last (x :: y :: l)) with (last (y :: l)).
  destruct (last (y :: l)) as [z|] eqn:Hlast; cbn [default length]; [lia|].
  by apply last_None in Hlast.
Qed.

Lemma sorted_last_max (x : Z) (l : list Z) :
  StronglySorted Z.le (x :: l) →
  ∀ y, y ∈ x :: l → y ≤ default x (last (x :: l)).
Proof.
  revert x. induction l as [|z l IH]; intros x Hs y Hy.
  { apply list_elem_of_singleton in Hy as ->. cbn. lia. }
  apply StronglySorted_inv in Hs as [Hs Hx].
  change (last (x :: z :: l)) with (last (z :: l)).
  assert (Hz : z ≤ default z (last (z :: l))) by (apply IH; [done|left]).
  assert (Hd : default x (last (z :: l)) = default z (last (z :: l))).
  { destruct (last (z :: l)) eqn:Hl; [done|]. by apply last_None in Hl. }
  rewrite Hd. apply elem_of_cons in Hy as [->|Hy]; [|by apply IH].
  apply Forall_cons in Hx as [Hxz _]. lia.
Qed.

(** X13. The spread of a combination is the width of its window less
    the number of chosen positions plus one: with [lo] the least and
    [hi] the greatest position chosen, it is [hi - lo - (n - 1)]. *)
Theorem spread_is_window_width (c : list Z) :
  c ≠ [] →
  ∃ lo hi, lo ∈ c ∧ hi ∈ c ∧ (∀ x, x ∈ c → lo ≤ x ≤ hi) ∧
           SearchEngine.sum_intervals (stable_sort Z.leb c) =
           hi - lo - (Z.of_nat (length c) - 1).
Proof.
  intros Hc. destruct (sorted_positions c) as [Hs Hp].
  destruct (stable_sort Z.leb c) as [|lo l] eqn:Hsort.
  { apply Permutation_nil_l in Hp. by subst. }
  assert (Hlast : default lo (last (lo :: l)) ∈ lo :: l).
  { destruct (last (lo :: l)) as [z|] eqn:Hl; [|by apply last_None in Hl].
    cbn [default]. by apply last_Some_elem_of. }
  exists lo, (default lo (last (lo :: l))). split_and!.
  - rewrite <- Hp. left.
  - by rewrite <- Hp.
  - intros x Hx. rewrite <- Hp in Hx. split; [|by apply sorted_last_max].
    apply StronglySorted_inv in Hs as [_ Hlo]. rewrite Forall_forall in Hlo.
    apply elem_of_cons in Hx as [->|Hx]; [lia|by apply Hlo].
  - rewrite sum_intervals_telescope.
    apply Permutation_length in Hp. cbn [length] in Hp. lia.
Qed.

Lemma sum_intervals_nonneg (l : list Z) :
  StronglySorted Z.lt l → 0 ≤ SearchEngine.sum_intervals l.
Proof.
  induction 1 as [|x l Hl IH Hx]; [done|].
  destruct l as [|y l]; [done|].
  change (SearchEngine.sum_intervals (x :: y :: l)) with
    ((y - x - 1) + SearchEngine.sum_intervals (y :: l)).
  apply Forall_cons in Hx as [Hxy _]. lia.
Qed.

(** X14. A combination of pairwise distinct positions has a spread
    that is not negative. *)
Theorem spread_nonneg (c : list Z) :
  NoDup c → 0 ≤ SearchEngine.sum_intervals (stable_sort Z.leb c).
Proof.
  intros Hnd. destruct (sorted_positions c) as [Hs Hp].
  apply sum_intervals_nonneg, StronglySorted_le_NoDup; [done|by rewrite Hp].
Qed.

(** ** What a query retrieves and prints *)

Lemma update_keys {V} (k : string) (dflt : V) (f : V → V) (d : list (string * V)) :
  Dict.keys (Dict.update k dflt f d) =
  if decide (k ∈ Dict.keys d) then Dict.keys d else (Dict.keys d ++ [k])%list.
Proof.
  unfold Dict.keys. induction d as [|[k' v] d IH].
  { cbn. destruct (decide (k ∈ [])) as [Hin|_]; [by apply elem_of_nil in Hin|done]. }
  cbn [Dict.update]. destruct (decide (k' = k)) as [->|Hne].
  - rewrite !fmap_cons. cbn [fst].
    destruct (decide (k ∈ k :: d.*1)) as [_|Hn]; [done|]. destruct Hn. left.
  - rewrite !fmap_cons, IH. cbn [fst].
    destruct (decide (k ∈ d.*1)) as [Hin|Hin];
      destruct (decide (k ∈ k' :: d.*1)) as [Hin'|Hin']; try done.
    + destruct Hin'. by right.
    + apply elem_of_cons in Hin' as [?|?]; [congruence|done].
Qed.

Lemma update_keys_elem {V} (k k' : string) (dflt : V) (f : V → V) (d : list (string * V)) :
  k' ∈ Dict.keys (Dict.update k dflt f d) ↔ k' ∈ Dict.keys d ∨ k' = k.
Proof.
  rewrite update_keys. destruct (decide (k ∈ Dict.keys d)) as [Hin|Hin].
  - split; [by left|]. by intros [?| ->].
  - rewrite elem_of_app, list_elem_of_singleton. done.
Qed.

Section QueryFacts.
Context `{NLTK} `{HashOrder}.
Import SearchEngine.

Lemma add_matches_keys (t : string) (rows : list posting) (m : match_dict) (id : string) :
  id ∈ Dict.keys (foldl (add_match t) m rows) ↔
  id ∈ Dict.keys m ∨ ∃ r, r ∈ rows ∧ p_id r = id.
Proof.
  revert m. induction rows as [|r rows IH]; intros m; cbn [foldl].
  { split; [by left|]. intros [?|(r & ?%elem_of_nil & _)]; done. }
  rewrite IH. unfold add_match. rewrite update_keys_elem. split.
  - intros [[Hin| ->]|(r' & Hr' & Hid)].
    + by left.
    + right. exists r. split; [left|done].
    + right. exists r'. split; [by right|done].
  - intros [Hin|(r' & [->|Hr']%elem_of_cons & Hid)].
    + left. by left.
    + left. by right.
    + right. by exists r'.
Qed.

Lemma group_matches_keys (self : engine) (Q : list string) (id : string) :
  id ∈ Dict.keys (group_matches self Q) ↔
  ∃ t r, t ∈ Q ∧ r ∈ default [] (inverted_index self !! t) ∧ p_id r = id.
Proof.
  unfold group_matches.
  assert (Hgen : ∀ l (m : match_dict),
    id ∈ Dict.keys (foldl (λ m t, match inverted_index self !! t with
                                  | Some rows => foldl (add_match t) m rows
                                  | None => m
                                  end) m l) ↔
    id ∈ Dict.keys m ∨
    ∃ t r, t ∈ l ∧ r ∈ default [] (inverted_index self !! t) ∧ p_id r = id).
  { induction l as [|t l IH]; intros m; cbn [foldl].
    { split; [by left|]. intros [?|(? & ? & ?%elem_of_nil & _)]; done. }
    rewrite IH. split.
    - intros [Hin|(t' & r & Ht' & Hr)].
      + destruct (inverted_index self !! t) as [rows|] eqn:Hrows; [|by left].
        apply add_matches_keys in Hin as [Hin|(r & Hr & Hid)]; [by left|].
        right. exists t, r. rewrite Hrows. split; [left|done].
      + right. exists t', r. split; [by right|done].
    - intros [Hin|(t' & r & [->|Ht']%elem_of_cons & Hr & Hid)].
      + left. destruct (inverted_index self !! t); [|done].
        apply add_matches_keys. by left.
      + left. destruct (inverted_index self !! t) as [rows|]; [|by apply elem_of_nil in Hr].
        apply add_matches_keys. right. by exists r.
      + right. by exists t', r. }
  rewrite Hgen. split; [|by right].
  intros [?%elem_of_nil|?]; done.
Qed.

Lemma score_document_id (Q : list string) (id : string)
    (pos : list (string * list (Z * Z))) (x : entry) :
  score_document Q id pos = Ok x → x.1.1 = id.
Proof.
  unfold score_document.
  destruct (int_truediv _ _) as [coverage|e]; [|done]. cbn [mbind result_bind].
  destruct (window_score Q pos) as [[[cur pn] ch]|e]; [|done]. cbn [mbind result_bind].
  destruct (float_of_int pn) as [pairs|e]; [|done]. cbn [mbind result_bind].
  intros Hx. by injection Hx as <-.
Qed.

Lemma score_all_ids (Q : list string) (m : match_dict) (temp_rank : list entry) :
  score_all Q m = Ok temp_rank → ids temp_rank = Dict.keys m.
Proof.
  revert temp_rank. induction m as [|[id pos] m IH]; intros temp_rank; cbn [score_all].
  { by intros [= <-]. }
  destruct (score_document Q id pos) as [x|e] eqn:Hx; [|done].
  destruct (score_all Q m) as [tr|e]; [|done].
  intros [= <-]. unfold ids, Dict.keys. rewrite !fmap_cons. cbn [fst].
  f_equal; [by eapply score_document_id|]. by apply IH.
Qed.

Lemma dedup_ids_elem (temp_rank : list entry) (id : string) :
  id ∈ ids (dedup temp_rank) ↔ id ∈ ids temp_rank.
Proof.
  unfold dedup.
  assert (Hgen : ∀ l unique,
    id ∈ ids (foldl (λ unique x, unique_put x unique) unique l) ↔
    id ∈ ids unique ∨ id ∈ ids l).
  { induction l as [|x l IH]; intros unique; cbn [foldl].
    { change (ids []) with (@nil string). rewrite elem_of_nil. naive_solver. }
    rewrite IH, unique_put_ids.
    change (ids (x :: l)) with (x.1.1 :: ids l). rewrite elem_of_cons.
    destruct (decide (x.1.1 ∈ ids unique)) as [Hin|Hin].
    - split; [intros [?|?]; auto|]. intros [?|[->|?]]; auto.
    - rewrite elem_of_app, list_elem_of_singleton. split.
      + intros [[?|?]|?]; auto.
      + intros [?|[?|?]]; auto. }
  rewrite Hgen. change (ids []) with (@nil string). rewrite elem_of_nil. naive_solver.
Qed.

(** How [search] came to return [ranked]. *)
Lemma search_inv (self : engine) (origin_query : string)
    (out : list string) (ranked : list entry) :
  search self origin_query = (out, Ok ranked) →
  let Q := preprocess_sentence (query_of origin_query) in
  (Q = [] ∧ out = [] ∧ ranked = []) ∨
  (Q ≠ [] ∧ ∃ temp_rank,
     score_all Q (group_matches self Q) = Ok temp_rank ∧
     sort_ranked (dedup temp_rank) = Ok ranked ∧
     output self (Py.startswith_char ">" origin_query) ∅ ranked = (out, Ok ())).
Proof.
  unfold search. fold (query_of origin_query).
  destruct (preprocess_sentence (query_of origin_query)) as [|t Q] eqn:HQ; cbv zeta.
  { intros [= <- <-]. by left. }
  intros Hs. right. split; [done|].
  destruct (score_all (t :: Q) (group_matches self (t :: Q))) as [temp_rank|e]; [|done].
  exists temp_rank. split; [done|].
  destruct (sort_ranked (dedup temp_rank)) as [ranked'|e]; [|done].
  destruct (output self (Py.startswith_char ">" origin_query) ∅ ranked')
    as [out' [[]|e]] eqn:Hout; [|done].
  injection Hs as <- <-. done.
Qed.

(** X15. When [search] returns, the documents in the result are
    exactly the documents that have a posting for some term of the
    normalized query. *)
Theorem retrieved_documents (self : engine) (origin_query : string)
    (out : list string) (ranked : list entry) :
  search self origin_query = (out, Ok ranked) →
  ∀ id, id ∈ ids ranked ↔
        ∃ t r, t ∈ preprocess_sentence (query_of origin_query) ∧
               r ∈ default [] (inverted_index self !! t) ∧ p_id r = id.
Proof.
  intros [(HQ & _ & ->)|(_ & temp_rank & Hscore & Hsort & _)]%search_inv id.
  - rewrite HQ. change (ids []) with (@nil string). rewrite elem_of_nil. split; [done|].
    by intros (? & ? & ?%elem_of_nil & _).
  - apply sort_ranked_perm in Hsort as [Hperm _].
    unfold ids at 1. rewrite Hperm. fold (ids (dedup temp_rank)).
    rewrite dedup_ids_elem, (score_all_ids _ _ _ Hscore).
    apply group_matches_keys.
Qed.

Lemma group_matches_none (self : engine) (Q : list string) :
  (∀ t, t ∈ Q → default [] (inverted_index self !! t) = []) →
  group_matches self Q = [].
Proof.
  unfold group_matches. generalize ([] : match_dict).
  induction Q as [|t Q IH]; intros m Hnone; [done|].
  cbn [foldl].
  assert (Hstep : match inverted_index self !! t with
                  | Some rows => foldl (add_match t) m rows
                  | None => m
                  end = m).
  { specialize (Hnone t). destruct (inverted_index self !! t) as [rows|]; [|done].
    change (default [] (Some rows)) with rows in Hnone. rewrite Hnone; [done|left]. }
  rewrite Hstep. apply IH. intros t' Ht'. apply Hnone. by right.
Qed.

(** X16. When no term of the normalized query has a posting, [search]
    returns the empty list and prints nothing, with or without the
    preview marker. *)
Theorem unmatched_query (self : engine) (origin_query : string) :
  (∀ t, t ∈ preprocess_sentence (query_of origin_query) →
        default [] (inverted_index self !! t) = []) →
  search self origin_query = ([], Ok []).
Proof.
  intros Hnone. unfold search. fold (query_of origin_query).
  destruct (preprocess_sentence (query_of origin_query)) as [|t Q] eqn:HQ; [done|].
  by rewrite (group_matches_none self (t :: Q) Hnone).
Qed.

(** What the output loop prints for one element of [ranked]. *)
Definition entry_output (self : engine) (match_line : bool) (x : entry) : list string :=
  if match_line then
    ("> " ++ x.1.1 ++ nl)%string ::
    match print_match self x.1.1 x.2 with
    | Ok ls => ls
    | Raise _ => []
    end
  else [(x.1.1 ++ nl)%string].

Lemma output_Ok (self : engine) (match_line : bool) (ranked : list entry) :
  ∀ (printed : gset string) (out : list string),
  output self match_line printed ranked = (out, Ok ()) →
  out = flat_map (entry_output self match_line) ranked.
Proof.
  induction ranked as [|[[id score] chosen] ranked IH]; intros printed out.
  { by intros [= <-]. }
  cbn [output flat_map]. unfold entry_output at 1. cbn [fst snd].
  destruct (decide (id ∈ printed)); [done|].
  destruct match_line.
  - destruct (print_match self id chosen) as [ls|e]; [|done].
    destruct (output self true ({[id]} ∪ printed) ranked) as [out' r] eqn:Hrest.
    intros [= <- ->]. by rewrite (IH _ _ Hrest).
  - destruct (output self false ({[id]} ∪ printed) ranked) as [out' r] eqn:Hrest.
    intros [= <- ->]. by rewrite (IH _ _ Hrest).
Qed.

(** X17. When [search] returns, what it printed is, for each element
    of the result in order, the line of its id (after "> " when the
    preview is requested) followed, when the preview is requested, by
    its preview lines. *)
Theorem printed_output (self : engine) (origin_query : string)
    (out : list string) (ranked : list entry) :
  search self origin_query = (out, Ok ranked) →
  out = flat_map (entry_output self (Py.startswith_char ">" origin_query)) ranked.
Proof.
  intros [(_ & -> & ->)|(_ & temp_rank & _ & _ & Hout)]%search_inv; [done|].
  by eapply output_Ok.
Qed.
End QueryFacts.

(** ** The chosen positions *)

Lemma update_elem {V} (k : string) (dflt : V) (f : V → V)
    (d : list (string * V)) (k' : string) (v' : V) :
  (k', v') ∈ Dict.update k dflt f d →
  (k', v') ∈ d ∨ (k' = k ∧ ∃ v0, v' = f v0 ∧ ((k, v0) ∈ d ∨ v0 = dflt)).
Proof.
  induction d as [|[k0 v0] d IH]; cbn [Dict.update].
  { intros [= -> ->]%list_elem_of_singleton. right. split; [done|].
    exists dflt. split; [done|by right]. }
  destruct (decide (k0 = k)) as [->|Hne].
  - intros [[= -> ->]|Hin]%elem_of_cons.
    + right. split; [done|]. exists v0. split; [done|]. left. left.
    + left. by right.
  - intros [[= -> ->]|Hin]%elem_of_cons; [left; left|].
    destruct (IH Hin) as [Hold|(-> & v1 & -> & [Hv1| ->])].
    + left. by right.
    + right. split; [done|]. exists v1. split; [done|]. left. by right.
    + right. split; [done|]. exists dflt. split; [done|]. by right.
Qed.

Lemma dict_zip_lookup (mw : list string) (c : list Z) (t : string) (p : Z) :
  SearchEngine.dict_zip mw c !! t = Some p → (t, p) ∈ zip mw c.
Proof.
  unfold SearchEngine.dict_zip.
  assert (Hgen : ∀ (l : list (string * Z)) (d : gmap string Z),
    foldl (λ d kv, <[kv.1 := kv.2]> d) d l !! t = Some p →
    d !! t = Some p ∨ (t, p) ∈ l).
  { induction l as [|[k v] l IH]; intros d; cbn [foldl]; [by left|].
    intros [Hd|Hin]%IH; [|right; by right].
    cbn [fst snd] in Hd. destruct (decide (k = t)) as [->|Hne].
    - rewrite lookup_insert_eq in Hd. injection Hd as ->. right. left.
    - rewrite lookup_insert_ne in Hd by done. by left. }
  intros [Hd|Hin]%Hgen; [|done]. by rewrite lookup_empty in Hd.
Qed.

Lemma zip_Forall2_elem (g : string → list Z) (mw : list string) (c : list Z)
    (t : string) (p : Z) :
  Forall2 (λ x l, x ∈ l) c (g <$> mw) → (t, p) ∈ zip mw c → t ∈ mw ∧ p ∈ g t.
Proof.
  revert c. induction mw as [|t0 mw IH]; intros c Hc; cbn [zip zip_with].
  { by intros ?%elem_of_nil. }
  rewrite fmap_cons in Hc. apply Forall2_cons_inv_r in Hc as (x & c' & Hx & Hc' & ->).
  cbn [zip_with]. intros [[= -> ->]|Hin]%elem_of_cons.
  - split; [left|done].
  - destruct (IH c' Hc' Hin) as [? ?]. split; [by right|done].
Qed.

(** The combination [shortest_distance] settles on, when there is one. *)
Lemma shortest_distance_combination (Q : list string) (position : gmap string (list Z))
    (avg : spec_float) (pn : Z) (chosen : gmap string Z) :
  SearchEngine.shortest_distance Q position = SearchEngine.Ok (avg, pn, Some chosen) →
  (match_word Q position = [] ∧ chosen = ∅ ∧ avg = Float.inf) ∨
  (match_word Q position ≠ [] ∧
   ∃ c, c ∈ SearchEngine.product (match_list Q position) ∧
        chosen = SearchEngine.dict_zip (match_word Q position) c ∧
        pn = pairs Q position c ∧
        SearchEngine.int_truediv (spread c)
          (Z.max (Z.of_nat (length (match_word Q position)) - 1) 1)
        = SearchEngine.Ok avg).
Proof.
  destruct (decide (match_word Q position = [])) as [Hnil|Hmw].
  - unfold SearchEngine.shortest_distance. fold (match_word Q position).
    rewrite Hnil. intros Hr. injection Hr as <- <- <-. left. by split_and!.
  - rewrite shortest_distance_matched by done. cbv zeta.
    destruct (loop_keeps_invariant Q position
                (SearchEngine.product (match_list Q position))
                (SearchEngine.Best None (-1) None) []) as [[_ Hb]|(c & [Hin _] & Hb)].
    { by left. }
    { rewrite Hb. cbn [SearchEngine.best_distance SearchEngine.best_position
        SearchEngine.max_number].
      destruct (SearchEngine.float_of_int _) as [y|e]; [|done].
      cbn [mbind SearchEngine.result_bind].
      destruct (SearchEngine.float_truediv Float.inf y) as [a|e]; [|done]. done. }
    rewrite Hb. unfold of_combination. cbn [SearchEngine.best_position
      SearchEngine.best_distance SearchEngine.max_number].
    destruct (SearchEngine.int_truediv _ _) as [a|e] eqn:Hdiv; [|done].
    cbn [mbind SearchEngine.result_bind].
    intros Hr. injection Hr as <- <- <-. right. split; [done|].
    exists c. by split_and!.
Qed.

Lemma shortest_chosen_occurrence (Q : list string) (position : gmap string (list Z))
    (r : spec_float * Z * option (gmap string Z))
    (chosen : gmap string Z) (t : string) (p : Z) :
  SearchEngine.shortest_distance Q position = SearchEngine.Ok r →
  r.2 = Some chosen →
  chosen !! t = Some p →
  t ∈ Q ∧ p ∈ default [] (position !! t).
Proof.
  destruct r as [[avg pn] ch]. cbn [snd]. intros Hr -> Ht.
  apply shortest_distance_combination in Hr
    as [(_ & -> & _)|(_ & c & Hc & -> & _)].
  { by rewrite lookup_empty in Ht. }
  apply dict_zip_lookup in Ht. apply elem_of_product in Hc.
  destruct (zip_Forall2_elem (λ t, default [] (position !! t)) _ _ _ _ Hc Ht)
    as [Hmw Hp].
  split; [|done]. by apply list_elem_of_filter in Hmw as [_ ?].
Qed.

(** X18. Each position [shortest_distance] chooses belongs to a term
    of the query and is one of the occurrences given for that term. *)
Theorem chosen_is_an_occurrence (Q : list string) (position : gmap string (list Z))
    (r : spec_float * Z * option (gmap string Z))
    (chosen : gmap string Z) (t : string) (p : Z) :
  SearchEngine.shortest_distance Q position = SearchEngine.Ok r →
  r.2 = Some chosen →
  chosen !! t = Some p →
  t ∈ Q ∧ p ∈ default [] (position !! t).
Proof. apply shortest_chosen_occurrence. Qed.

Section ChosenFacts.
Context `{NLTK} `{HashOrder}.
Import SearchEngine.

(** Every occurrence recorded for document [id] is a posting of the
    index, under a term of the query. *)
Definition pos_sound (idx : gmap string (list posting)) (Q : list string)
    (id : string) (pos : list (string * list (Z * Z))) : Prop :=
  ∀ t occ p l, (t, occ) ∈ pos → (p, l) ∈ occ →
               t ∈ Q ∧ Posting id p l ∈ default [] (idx !! t).

Definition match_sound (idx : gmap string (list posting)) (Q : list string)
    (m : match_dict) : Prop :=
  ∀ id pos, (id, pos) ∈ m → pos_sound idx Q id pos.

Lemma add_match_sound idx Q (t : string) (m : match_dict) (r : posting) :
  t ∈ Q → r ∈ default [] (idx !! t) →
  match_sound idx Q m → match_sound idx Q (add_match t m r).
Proof.
  intros Ht Hr Hm id pos Hin t' occ p l Hocc Hpl. unfold add_match in Hin.
  apply update_elem in Hin as [Hold|(-> & pos0 & -> & Hpos0)].
  { by eapply Hm. }
  apply update_elem in Hocc as [Hold|(-> & occ0 & -> & Hocc0)].
  - destruct Hpos0 as [Hpos0| ->]; [by eapply Hm|by apply elem_of_nil in Hold].
  - apply elem_of_app in Hpl as [Hpl|[= -> ->]%list_elem_of_singleton].
    + destruct Hocc0 as [Hocc0| ->]; [|by apply elem_of_nil in Hpl].
      destruct Hpos0 as [Hpos0| ->]; [by eapply Hm|by apply elem_of_nil in Hocc0].
    + split; [done|]. by destruct r.
Qed.

Lemma group_matches_sound (self : engine) (Q : list string) :
  match_sound (inverted_index self) Q (group_matches self Q).
Proof.
  unfold group_matches.
  assert (Hgen : ∀ l (m : match_dict),
    (∀ t, t ∈ l → t ∈ Q) →
    match_sound (inverted_index self) Q m →
    match_sound (inverted_index self) Q
      (foldl (λ m t, match inverted_index self !! t with
                     | Some rows => foldl (add_match t) m rows
                     | None => m
                     end) m l)).
  { induction l as [|t l IH]; intros m Hl Hm; cbn [foldl]; [done|].
    apply IH; [intros t' Ht'; apply Hl; by right|].
    destruct (inverted_index self !! t) as [rows|] eqn:Hrows; [|done].
    assert (Hrows' : ∀ r, r ∈ rows → r ∈ default [] (inverted_index self !! t))
      by (by rewrite Hrows).
    clear Hrows IH. revert m Hm.
    induction rows as [|r rows IHr]; intros m Hm; cbn [foldl]; [done|].
    apply IHr; [intros r' Hr'; apply Hrows'; by right|].
    apply add_match_sound; [apply Hl; left|apply Hrows'; left|done]. }
  apply Hgen; [done|]. intros id pos Hin. by apply elem_of_nil in Hin.
Qed.

Lemma position_lookup (pos : list (string * list (Z * Z))) (t : string) (p : Z) :
  p ∈ default [] (positions_of pos !! t) →
  ∃ occ l, (t, occ) ∈ pos ∧ (p, l) ∈ occ.
Proof.
  rewrite positions_of_lookup.
  destruct (decide (t ∈ Dict.keys pos)) as [Hin|_]; [|by intros ?%elem_of_nil].
  destruct (get_elem pos t Hin) as (occ & -> & Hocc). cbn [default].
  intros ([p' l] & -> & Hpl)%list_elem_of_fmap. by exists occ, l.
Qed.

Lemma window_score_chosen (Q : list string)
    (pos : list (string * list (Z * Z)))
    (r : spec_float * Z * option (gmap string Z))
    (chosen : gmap string Z) (t : string) (p : Z) :
  window_score Q pos = Ok r → r.2 = Some chosen → chosen !! t = Some p →
  ∃ occ l, (t, occ) ∈ pos ∧ (p, l) ∈ occ.
Proof.
  unfold window_score.
  destruct (decide (length (Dict.keys pos) = 1%nat)) as [Hlen|Hlen].
  - destruct pos as [|[t0 [|[p0 l0] occ]] pos']; try done.
    intros Hr. injection Hr as <-. cbn [snd].
    intros Hch. injection Hch as <-. intros [<- <-]%lookup_singleton_Some.
    exists ((p0, l0) :: occ), l0. split; left.
  - pose proof (shortest_chosen_occurrence Q (positions_of pos)) as Hocc.
    destruct (shortest_distance Q (positions_of pos)) as [[[avg pn] ch]|e]; [|done].
    cbn [mbind result_bind].
    destruct (float_truediv _ _) as [cur|e]; [|done]. cbn [mbind result_bind].
    intros Hr. injection Hr as <-. cbn [snd]. intros -> Ht.
    destruct (Hocc _ chosen t p eq_refl eq_refl Ht) as [_ Hp].
    by apply position_lookup.
Qed.

Lemma score_document_chosen (Q : list string) (id : string)
    (pos : list (string * list (Z * Z))) (x : entry)
    (chosen : gmap string Z) (t : string) (p : Z) :
  score_document Q id pos = Ok x → x.2 = Some chosen → chosen !! t = Some p →
  ∃ occ l, (t, occ) ∈ pos ∧ (p, l) ∈ occ.
Proof.
  unfold score_document.
  destruct (int_truediv _ _) as [coverage|e]; [|done]. cbn [mbind result_bind].
  pose proof (window_score_chosen Q pos) as Hw.
  destruct (window_score Q pos) as [[[cur pn] ch]|e]; [|done]. cbn [mbind result_bind].
  destruct (float_of_int pn) as [pairs|e]; [|done]. cbn [mbind result_bind].
  intros Hx. injection Hx as <-. cbn [snd]. intros -> Ht.
  by apply (Hw _ chosen t p eq_refl eq_refl).
Qed.
End ChosenFacts.

Section RankingFacts.
Context `{NLTK} `{HashOrder}.
Import SearchEngine.

Lemma score_all_elem (Q : list string) (m : match_dict)
    (temp_rank : list entry) (x : entry) :
  score_all Q m = Ok temp_rank → x ∈ temp_rank →
  ∃ pos, (x.1.1, pos) ∈ m ∧ score_document Q x.1.1 pos = Ok x.
Proof.
  revert temp_rank. induction m as [|[id pos] m IH]; intros temp_rank; cbn [score_all].
  { intros [= <-] ?%elem_of_nil. done. }
  destruct (score_document Q id pos) as [y|e] eqn:Hy; [|done].
  destruct (score_all Q m) as [tr|e]; [|done].
  intros [= <-] [->|Hin]%elem_of_cons.
  - exists pos. rewrite (score_document_id _ _ _ _ Hy). split; [left|done].
  - destruct (IH tr eq_refl Hin) as (pos' & Hpos' & Hx). exists pos'. split; [by right|done].
Qed.

Lemma dedup_elem (temp_rank : list entry) (x : entry) :
  x ∈ dedup temp_rank → x ∈ temp_rank.
Proof.
  pose proof (dedup_Forall (λ y, y ∈ temp_rank) temp_rank) as Hd.
  rewrite !Forall_forall in Hd. apply Hd. done.
Qed.

(** X19. When [search] returns, every element of the result carries a
    dictionary of chosen positions, and each chosen position of a term
    is the position of a posting of that term in that document: the
    preview never looks for an occurrence that is not in the index. *)
Theorem chosen_positions_in_index (self : engine) (origin_query : string)
    (out : list string) (ranked : list entry) (x : entry) :
  search self origin_query = (out, Ok ranked) → x ∈ ranked →
  ∃ chosen, x.2 = Some chosen ∧
    ∀ t p, chosen !! t = Some p →
           t ∈ preprocess_sentence (query_of origin_query) ∧
           ∃ l, Posting x.1.1 p l ∈ default [] (inverted_index self !! t).
Proof.
  intros [(_ & _ & ->)|(_ & temp_rank & Hscore & Hsort & _)]%search_inv Hx.
  { by apply elem_of_nil in Hx. }
  set (Q := preprocess_sentence (query_of origin_query)) in *.
  apply sort_ranked_perm in Hsort as [Hperm _].
  rewrite Hperm in Hx. apply dedup_elem in Hx.
  pose proof (score_all_ok Q (group_matches self Q) (group_matches_ok self Q)) as Hok.
  rewrite Hscore in Hok. rewrite Forall_forall in Hok.
  destruct (Hok x Hx) as [[chosen Hch] _]. exists chosen. split; [done|].
  intros t p Ht.
  destruct (score_all_elem _ _ _ _ Hscore Hx) as (pos & Hpos & Hdoc).
  destruct (score_document_chosen _ _ _ _ _ _ _ Hdoc Hch Ht) as (occ & l & Hocc & Hpl).
  destruct (group_matches_sound self Q _ _ Hpos _ _ _ _ Hocc Hpl) as [HQ Hpost].
  split; [done|]. by exists l.
Qed.
End RankingFacts.

(** ** The exceptions of a query *)

Lemma Forall2_elem_term (g : string → list Z) (mw : list string) (c : list Z) (x : Z) :
  Forall2 (λ x l, x ∈ l) c (g <$> mw) → x ∈ c → ∃ t, t ∈ mw ∧ x ∈ g t.
Proof.
  revert c. induction mw as [|t mw IH]; intros c Hc Hx.
  { apply Forall2_nil_inv_r in Hc as ->. by apply elem_of_nil in Hx. }
  rewrite fmap_cons in Hc. apply Forall2_cons_inv_r in Hc as (y & c' & Hy & Hc' & ->).
  apply elem_of_cons in Hx as [->|Hx].
  - exists t. split; [left|done].
  - destruct (IH c' Hc' Hx) as (t' & Ht' & Hxt'). exists t'. split; [by right|done].
Qed.

(** One position for each of several terms whose occurrences do not
    overlap: the positions are pairwise distinct. *)
Lemma combination_NoDup (g : string → list Z) (mw : list string) (c : list Z) :
  NoDup mw →
  (∀ t1 t2 x, t1 ∈ mw → t2 ∈ mw → x ∈ g t1 → x ∈ g t2 → t1 = t2) →
  Forall2 (λ x l, x ∈ l) c (g <$> mw) → NoDup c.
Proof.
  revert c. induction mw as [|t mw IH]; intros c Hnd Hdisj Hc.
  { apply Forall2_nil_inv_r in Hc as ->. constructor. }
  rewrite fmap_cons in Hc. apply Forall2_cons_inv_r in Hc as (x & c' & Hx & Hc' & ->).
  apply NoDup_cons in Hnd as [Ht Hnd]. constructor.
  - intros Hin. destruct (Forall2_elem_term g mw c' x Hc' Hin) as (t' & Ht' & Hxt').
    assert (t = t') as <-; [|done].
    apply (Hdisj t t' x); [left|by right|done..].
  - apply IH; [done| |done]. intros t1 t2 y H1 H2. apply Hdisj; by right.
Qed.

(** The spread of positions between 0 and [bound] is at most [bound]. *)
Lemma spread_upper (bound : Z) (c : list Z) :
  0 ≤ bound → (∀ x, x ∈ c → 0 ≤ x ≤ bound) → spread c ≤ bound.
Proof.
  intros Hb Hc. unfold spread. destruct (sorted_positions c) as [Hs Hp].
  destruct (stable_sort Z.leb c) as [|lo l] eqn:Hsort; [done|].
  rewrite sum_intervals_telescope.
  assert (Hlast : default lo (last (lo :: l)) ∈ lo :: l).
  { destruct (last (lo :: l)) as [z|] eqn:Hl; [|by apply last_None in Hl].
    cbn [default]. by apply last_Some_elem_of. }
  set (hi := default lo (last (lo :: l))) in *.
  assert (Hhi : hi ∈ c) by (by rewrite <- Hp).
  assert (Hlo : lo ∈ c) by (rewrite <- Hp; left).
  apply Hc in Hhi, Hlo. lia.
Qed.

Lemma adjacent_pairs_length (Q : list string) :
  (length (adjacent_pairs Q) ≤ length Q)%nat.
Proof. unfold adjacent_pairs. rewrite length_zip. lia. Qed.

Lemma pairs_upper (Q : list string) (position : gmap string (list Z)) (c : list Z) :
  0 ≤ pairs Q position c ≤ Z.of_nat (length Q).
Proof.
  unfold pairs. rewrite count_pairs_spec.
  pose proof (length_filter (λ tt, ordered (SearchEngine.dict_zip (match_word Q position) c) tt = true)
                (adjacent_pairs Q)) as Hf.
  pose proof (adjacent_pairs_length Q). lia.
Qed.

(** A document and a position determine the term. *)
Definition positions_distinct (idx : gmap string (list posting)) : Prop :=
  ∀ t1 t2 r1 r2,
    r1 ∈ default [] (idx !! t1) → r2 ∈ default [] (idx !! t2) →
    p_id r1 = p_id r2 → p_pos r1 = p_pos r2 → t1 = t2.

(** Every position of the index is a count of at most [bound]. *)
Definition positions_within (bound : Z) (idx : gmap string (list posting)) : Prop :=
  ∀ t r, r ∈ default [] (idx !! t) → 0 ≤ p_pos r ≤ bound.

Section Exceptions.
Context `{NLTK} `{HashOrder}.
Import SearchEngine.

(** No term is a key of [pos] twice. *)
Definition keys_distinct (m : match_dict) : Prop :=
  ∀ id pos, (id, pos) ∈ m → NoDup (Dict.keys pos).

Lemma update_keys_NoDup {V} (k : string) (dflt : V) (f : V → V) (d : list (string * V)) :
  NoDup (Dict.keys d) → NoDup (Dict.keys (Dict.update k dflt f d)).
Proof.
  intros Hd. rewrite update_keys. destruct (decide (k ∈ Dict.keys d)); [done|].
  apply NoDup_app. split_and!; [done| |apply NoDup_singleton].
  by intros x Hx ->%list_elem_of_singleton.
Qed.

Lemma add_match_keys_distinct (t : string) (m : match_dict) (r : posting) :
  keys_distinct m → keys_distinct (add_match t m r).
Proof.
  intros Hm id pos Hin. unfold add_match in Hin.
  apply update_elem in Hin as [Hold|(-> & pos0 & -> & Hpos0)].
  { by eapply Hm. }
  apply update_keys_NoDup. destruct Hpos0 as [Hpos0| ->]; [by eapply Hm|constructor].
Qed.

Lemma group_matches_keys_distinct (self : engine) (Q : list string) :
  keys_distinct (group_matches self Q).
Proof.
  unfold group_matches.
  assert (Hgen : ∀ l (m : match_dict),
    keys_distinct m →
    keys_distinct
      (foldl (λ m t, match inverted_index self !! t with
                     | Some rows => foldl (add_match t) m rows
                     | None => m
                     end) m l)).
  { induction l as [|t l IH]; intros m Hm; cbn [foldl]; [done|].
    apply IH. destruct (inverted_index self !! t) as [rows|]; [|done].
    clear IH. revert m Hm.
    induction rows as [|r rows IHr]; intros m Hm; cbn [foldl]; [done|].
    apply IHr. by apply add_match_keys_distinct. }
  apply Hgen. intros id pos Hin. by apply elem_of_nil in Hin.
Qed.

(** The matched terms of a document are terms of the query, each
    once: they are no more than the terms of the query. *)
Lemma matched_terms_length (idx : gmap string (list posting)) (Q : list string)
    (id : string) (pos : list (string * list (Z * Z))) :
  occurrences_ok pos → pos_sound idx Q id pos → NoDup (Dict.keys pos) →
  (length (Dict.keys pos) ≤ length Q)%nat.
Proof.
  intros Hocc Hsound Hnd. apply submseteq_length, NoDup_submseteq; [done|].
  unfold Dict.keys. intros t ([t' occ] & -> & Hin)%list_elem_of_fmap. cbn [fst].
  unfold occurrences_ok in Hocc. rewrite Forall_forall in Hocc.
  specialize (Hocc _ Hin). cbn [snd] in Hocc.
  destruct occ as [|[p l] occ]; [done|].
  by destruct (Hsound t' _ p l Hin (list_elem_of_here _ _)) as [? _].
Qed.

Section Combinations.
Context (idx : gmap string (list posting)) (Q : list string) (id : string)
  (pos : list (string * list (Z * Z))).
Hypothesis HQ : NoDup Q.
Hypothesis Hsound : pos_sound idx Q id pos.

Lemma combination_distinct (c : list Z) :
  positions_distinct idx →
  c ∈ product (match_list Q (positions_of pos)) → NoDup c.
Proof using HQ Hsound.
  intros Hdist Hc%elem_of_product.
  apply (combination_NoDup (λ t, default [] (positions_of pos !! t))
           (match_word Q (positions_of pos))); [by apply NoDup_filter| |done].
  intros t1 t2 x _ _ H1 H2.
  apply position_lookup in H1 as (occ1 & l1 & Hocc1 & Hx1).
  apply position_lookup in H2 as (occ2 & l2 & Hocc2 & Hx2).
  destruct (Hsound _ _ _ _ Hocc1 Hx1) as [_ Hp1].
  destruct (Hsound _ _ _ _ Hocc2 Hx2) as [_ Hp2].
  by apply (Hdist t1 t2 _ _ Hp1 Hp2).
Qed.

Lemma combination_within (bound : Z) (c : list Z) (x : Z) :
  positions_within bound idx →
  c ∈ product (match_list Q (positions_of pos)) → x ∈ c → 0 ≤ x ≤ bound.
Proof using Hsound.
  intros Hin Hc%elem_of_product Hx.
  destruct (Forall2_elem_term (λ t, default [] (positions_of pos !! t)) _ _ _ Hc Hx)
    as (t & _ & Hxt).
  apply position_lookup in Hxt as (occ & l & Hocc & Hpl).
  destruct (Hsound _ _ _ _ Hocc Hpl) as [_ Hp].
  exact (Hin _ _ Hp).
Qed.

(** With distinct positions the average distance is zero or above. *)
Lemma shortest_distance_nonneg (r : spec_float * Z * option (gmap string Z)) :
  positions_distinct idx → occurrences_ok pos →
  shortest_distance Q (positions_of pos) = Ok r → nonneg r.1.1.
Proof using HQ Hsound.
  intros Hdist Hocc.
  destruct (decide (match_word Q (positions_of pos) = [])) as [Hnil|Hmw].
  { unfold shortest_distance. fold (match_word Q (positions_of pos)).
    rewrite Hnil. intros Hr. by injection Hr as <-. }
  destruct (shortest_distance_best Q (positions_of pos) Hmw (positions_of_ok Q pos Hocc))
    as (c & [Hin _] & ->).
  destruct (int_truediv _ _) as [avg|e] eqn:Hdiv; [|done]. cbn [mbind result_bind].
  intros Hr. injection Hr as <-. cbn [fst].
  eapply int_truediv_nonneg; [| |exact Hdiv]; [|lia].
  unfold spread. apply sum_intervals_nonneg, StronglySorted_le_NoDup;
    [apply sorted_positions|].
  rewrite (proj2 (sorted_positions c)). by apply combination_distinct.
Qed.

(** With distinct positions that are counts within the range of a
    float, [shortest_distance] returns. *)
Lemma shortest_distance_total :
  positions_distinct idx → positions_within (2 ^ 1023) idx → occurrences_ok pos →
  ∃ r, shortest_distance Q (positions_of pos) = Ok r ∧
       nonneg r.1.1 ∧ 0 ≤ r.1.2 ≤ Z.of_nat (length Q).
Proof using HQ Hsound.
  intros Hdist Hin Hocc.
  destruct (decide (match_word Q (positions_of pos) = [])) as [Hnil|Hmw].
  { unfold shortest_distance. fold (match_word Q (positions_of pos)).
    rewrite Hnil. eexists. split; [done|]. cbn [fst snd]. split; [done|lia]. }
  destruct (shortest_distance_best Q (positions_of pos) Hmw (positions_of_ok Q pos Hocc))
    as (c & [Hc _] & ->).
  set (n := Z.max (Z.of_nat (length (match_word Q (positions_of pos))) - 1) 1).
  assert (Hlow : 0 ≤ spread c).
  { unfold spread. apply sum_intervals_nonneg, StronglySorted_le_NoDup;
      [apply sorted_positions|].
    rewrite (proj2 (sorted_positions c)). by apply combination_distinct. }
  assert (Hup : spread c ≤ 2 ^ 1023).
  { apply spread_upper; [lia|]. intros x Hx. by eapply combination_within. }
  destruct (int_truediv_total 1023 (spread c) n) as (avg & -> & Havg); [lia|done|lia|nia|].
  cbn [mbind result_bind]. eexists. split; [done|]. cbn [fst snd].
  split; [by eapply below_nonneg|]. apply pairs_upper.
Qed.
End Combinations.

Lemma float_truediv_one_plus (avg : spec_float) :
  nonneg avg →
  float_truediv Float.one (Float.add Float.one avg)
  = Ok (Float.div Float.one (Float.add Float.one avg)).
Proof.
  intros Havg. unfold float_truediv.
  by rewrite (nonzero_is_zero false _ (add_one_nonzero avg Havg)).
Qed.

(** On distinct positions the division of [window_score] is not by
    zero. *)
Lemma window_score_overflow (idx : gmap string (list posting)) (Q : list string)
    (id : string) (pos : list (string * list (Z * Z))) (e : exn) :
  NoDup Q → positions_distinct idx → occurrences_ok pos → pos_sound idx Q id pos →
  window_score Q pos = Raise e → e = OverflowError.
Proof.
  intros HQ Hdist Hocc Hsound. unfold window_score.
  destruct (decide (length (Dict.keys pos) = 1%nat)) as [Hlen|Hlen].
  { destruct pos as [|[t [|[p ln] l]] pos']; try done.
    inversion Hocc as [|? ? Hne]. done. }
  pose proof (shortest_distance_Raise Q (positions_of pos)) as Hraise.
  pose proof (shortest_distance_nonneg idx Q id pos HQ Hsound) as Hnn.
  destruct (shortest_distance Q (positions_of pos)) as [[[avg pn] ch]|e'].
  - cbn [mbind result_bind].
    rewrite float_truediv_one_plus by (by apply (Hnn _ Hdist Hocc eq_refl)). done.
  - intros He. injection He as <-. by apply Hraise; [apply positions_of_ok|].
Qed.

Lemma score_document_overflow (idx : gmap string (list posting)) (Q : list string)
    (id : string) (pos : list (string * list (Z * Z))) (e : exn) :
  NoDup Q → Q ≠ [] → positions_distinct idx →
  occurrences_ok pos → pos_sound idx Q id pos →
  score_document Q id pos = Raise e → e = OverflowError.
Proof.
  intros HQ Hne Hdist Hocc Hsound. unfold score_document.
  destruct (int_truediv _ _) as [coverage|e'] eqn:Hcov.
  - cbn [mbind result_bind].
    pose proof (window_score_overflow idx Q id pos) as Hw.
    destruct (window_score Q pos) as [[[cur pn] ch]|e'']; cbn [mbind result_bind].
    + destruct (float_of_int pn) as [pairs|e''] eqn:Hpairs; [done|].
      intros He. injection He as <-. by eapply float_of_int_Raise.
    + intros He. injection He as <-. by apply Hw.
  - intros He. injection He as <-. eapply int_truediv_Raise; [|exact Hcov].
    destruct Q; [done|]. cbn [length]. lia.
Qed.

Lemma score_all_overflow (idx : gmap string (list posting)) (Q : list string)
    (m : match_dict) (e : exn) :
  NoDup Q → Q ≠ [] → positions_distinct idx →
  Forall (λ kv, occurrences_ok kv.2) m → match_sound idx Q m →
  score_all Q m = Raise e → e = OverflowError.
Proof.
  intros HQ Hne Hdist Hocc Hsound.
  induction Hocc as [|[id pos] m Hpos Hm IH]; cbn [score_all]; [done|].
  destruct (score_document Q id pos) as [x|e'] eqn:Hx.
  - destruct (score_all Q m) as [tr|e'']; [done|].
    intros He. injection He as <-. apply IH; [|done].
    intros id' pos' Hin. apply Hsound. by right.
  - intros He. injection He as <-.
    eapply score_document_overflow; [done..| |exact Hx]. apply Hsound. left.
Qed.

(** On an index whose positions are distinct a query does not divide
    by zero. *)
Lemma search_raises (self : engine) (origin_query : string) :
  positions_distinct (inverted_index self) →
  match (search self origin_query).2 with
  | Ok _ => True
  | Raise e => e = ValueError ∨ e = OverflowError
  end.
Proof.
  intros Hdist. rewrite search_result.
  destruct (preprocess_sentence (query_of origin_query)) as [|t Q] eqn:HQ; [done|].
  assert (Hnd : NoDup (t :: Q)).
  { rewrite <- HQ. unfold preprocess_sentence. apply dict_fromkeys_NoDup. }
  unfold rank.
  set (self' := Engine (inverted_index self) (λ _, None)).
  pose proof (score_all_overflow (inverted_index self) (t :: Q)
                (group_matches self' (t :: Q))) as Hscore.
  destruct (score_all (t :: Q) (group_matches self' (t :: Q))) as [temp_rank|e].
  - destruct (sort_ranked (dedup temp_rank)) as [ranked|e] eqn:Hsort; [done|].
    left. by apply sort_ranked_Raise in Hsort.
  - right. apply Hscore; [done..| | |done].
    + apply group_matches_ok.
    + apply (group_matches_sound self').
Qed.

(** X20. On an index in which a document and a position determine the
    term, a query returns a result, or raises [ValueError] (an id that
    [int] does not convert) or [OverflowError] (a quotient or a count
    beyond the range of a float); it never divides by zero. *)
Theorem no_zero_division (self : engine) (origin_query : string) :
  positions_distinct (inverted_index self) →
  match (search self origin_query).2 with
  | Ok _ => True
  | Raise e => e = ValueError ∨ e = OverflowError
  end.
Proof. apply search_raises. Qed.

(** With positions and a query within the range of a float, every
    document gets a score. *)
Lemma score_document_total (idx : gmap string (list posting)) (Q : list string)
    (id : string) (pos : list (string * list (Z * Z))) :
  NoDup Q → Q ≠ [] → Z.of_nat (length Q) ≤ 2 ^ 1023 →
  positions_distinct idx → positions_within (2 ^ 1023) idx →
  occurrences_ok pos → pos_sound idx Q id pos → NoDup (Dict.keys pos) →
  ∃ x, score_document Q id pos = Ok x.
Proof.
  intros HQ Hne Hlen Hdist Hin Hocc Hsound Hkeys. unfold score_document.
  pose proof (matched_terms_length idx Q id pos Hocc Hsound Hkeys) as Hk.
  destruct (int_truediv_total 0 (Z.of_nat (length (Dict.keys pos)))
              (Z.of_nat (length Q))) as (coverage & -> & _); [lia|lia| |lia|].
  { destruct Q; [done|]. cbn [length]. lia. }
  cbn [mbind result_bind].
  assert (Hw : ∃ r, window_score Q pos = Ok r ∧ 0 ≤ r.1.2 ≤ Z.of_nat (length Q)).
  { unfold window_score.
    destruct (decide (length (Dict.keys pos) = 1%nat)) as [Hone|Hone].
    { destruct pos as [|[t [|[p ln] l]] pos']; [done| |].
      - inversion Hocc as [|? ? Hnil]. done.
      - eexists. split; [done|]. cbn [fst snd]. lia. }
    destruct (shortest_distance_total idx Q id pos HQ Hsound Hdist Hin Hocc)
      as ([[avg pn] ch] & -> & Havg & Hpn). cbn [fst snd] in *.
    cbn [mbind result_bind]. rewrite float_truediv_one_plus by done.
    cbn [mbind result_bind]. eexists. split; [done|]. done. }
  destruct Hw as ([[cur pn] ch] & -> & Hpn). cbn [fst snd] in Hpn.
  cbn [mbind result_bind].
  destruct (float_of_int_total pn) as (pairs & -> & _); [lia|].
  cbn [mbind result_bind]. by eexists.
Qed.

Lemma score_all_total (idx : gmap string (list posting)) (Q : list string)
    (m : match_dict) :
  NoDup Q → Q ≠ [] → Z.of_nat (length Q) ≤ 2 ^ 1023 →
  positions_distinct idx → positions_within (2 ^ 1023) idx →
  Forall (λ kv, occurrences_ok kv.2) m → match_sound idx Q m → keys_distinct m →
  ∃ temp_rank, score_all Q m = Ok temp_rank.
Proof.
  intros HQ Hne Hlen Hdist Hin Hocc Hsound Hkeys.
  induction Hocc as [|[id pos] m Hpos Hm IH]; cbn [score_all]; [by eexists|].
  destruct (score_document_total idx Q id pos HQ Hne Hlen Hdist Hin Hpos) as [x ->].
  { apply Hsound. left. }
  { apply (Hkeys id). left. }
  destruct IH as [tr ->]; [| |by eexists].
  - intros id' pos' Hin'. apply Hsound. by right.
  - intros id' pos' Hin'. apply (Hkeys id'). by right.
Qed.

(** The only exception a query of fewer than [2 ^ 1023] terms raises,
    on an index whose positions are distinct and below [2 ^ 1023], is
    the [ValueError] of the sort. *)
Lemma search_raises_ValueError_only (self : engine) (origin_query : string) :
  positions_distinct (inverted_index self) →
  positions_within (2 ^ 1023) (inverted_index self) →
  Z.of_nat (length (preprocess_sentence (query_of origin_query))) ≤ 2 ^ 1023 →
  match (search self origin_query).2 with
  | Ok _ => True
  | Raise e => e = ValueError
  end.
Proof.
  intros Hdist Hin Hlen. rewrite search_result.
  destruct (preprocess_sentence (query_of origin_query)) as [|t Q] eqn:HQ; [done|].
  assert (Hnd : NoDup (t :: Q)).
  { rewrite <- HQ. unfold preprocess_sentence. apply dict_fromkeys_NoDup. }
  unfold rank.
  set (self' := Engine (inverted_index self) (λ _, None)).
  destruct (score_all_total (inverted_index self) (t :: Q)
              (group_matches self' (t :: Q)) Hnd ltac:(done) Hlen Hdist Hin
              (group_matches_ok self' (t :: Q))
              (group_matches_sound self' (t :: Q))
              (group_matches_keys_distinct self' (t :: Q))) as [temp_rank ->].
  destruct (sort_ranked (dedup temp_rank)) as [ranked|e] eqn:Hsort; [done|].
  by apply sort_ranked_Raise in Hsort.
Qed.
End Exceptions.

(** X21. On an index that [build_index] built from files that each
    emit at most [2 ^ 1023] terms, whatever process built it, a query
    of at most [2 ^ 1023] terms returns a result or raises
    [ValueError]. *)
Theorem built_index_queries (N1 : NLTK) (O1 : HashOrder) (N2 : NLTK) (O2 : HashOrder)
    (d : FileProcess.folder) (docs : string → option (list string))
    (origin_query : string) :
  (∀ name lines, FileProcess.read_lines d name = Some lines →
     Z.of_nat (length (@file_terms N1 O1 lines)) ≤ 2 ^ 1023) →
  Z.of_nat (length (@SearchEngine.preprocess_sentence N2 O2 (query_of origin_query)))
    ≤ 2 ^ 1023 →
  match (@SearchEngine.search N2 O2
           (SearchEngine.Engine
              (FileProcess.inverted_index
                 (@FileProcess.build_index N1 O1 d FileProcess.init)) docs)
           origin_query).2 with
  | SearchEngine.Ok _ => True
  | SearchEngine.Raise e => e = SearchEngine.ValueError
  end.
Proof.
  intros Hfiles Hquery.
  apply (@search_raises_ValueError_only N2 O2); [| |done].
  - intros t1 t2 r1 r2 H1 H2 Hid Hpos.
    by destruct (@built_position_unique N1 O1 d t1 t2 r1 r2 H1 H2 Hid Hpos).
  - intros t r (name & lines & i & n & _ & Hread & Hi & ->)%built_posting_iff.
    cbn [p_pos]. apply lookup_lt_Some in Hi. specialize (Hfiles _ _ Hread). lia.
Qed.
(** ** What the preview prints *)

(** Line [i] of a file, when the file has it. *)
Definition line_at (lines : list string) (i : Z) : option string :=
  if decide (0 ≤ i) then lines !! Z.to_nat i else None.

(** A line as the preview shows it: followed by a newline when it does
    not end in one. *)
Definition terminated (line : string) : string :=
  if Py.endswith_char (ascii_of_nat 10) line then line
  else (line ++ SearchEngine.nl)%string.

(** [ls] is the preview of the ranked document [x]: nothing when its
    file is missing; otherwise the lines of the file at the matched
    line numbers, the numbers in ascending order and each once, a
    number the file has no line for giving nothing. *)
Definition preview_of (self : SearchEngine.engine) (x : SearchEngine.entry)
    (ls : list string) : Prop :=
  ∃ chosen, x.2 = Some chosen ∧
    match SearchEngine.doc self x.1.1 with
    | None => ls = []
    | Some lines =>
        ∃ numbers, StronglySorted Z.lt numbers ∧
                   (∀ i, i ∈ numbers ↔ matched_line self x.1.1 chosen i) ∧
                   ls = omap (λ i, terminated <$> line_at lines i) numbers
    end.

Section PreviewOutput.
Context `{NLTK} `{HashOrder}.
Import SearchEngine.

Lemma print_line_line_at (lines : list string) (i : Z) :
  print_line lines i =
  match terminated <$> line_at lines i with Some s => [s] | None => [] end.
Proof.
  unfold print_line, line_at, terminated.
  destruct (decide (0 ≤ i < Z.of_nat (length lines))) as [Hi|Hi].
  - destruct (decide (0 ≤ i)) as [_|Hn]; [|lia].
    by destruct (lines !! Z.to_nat i).
  - destruct (decide (0 ≤ i)) as [Hpos|_]; [|done].
    rewrite lookup_ge_None_2; [done|lia].
Qed.

Lemma flat_map_print_line (lines : list string) (numbers : list Z) :
  flat_map (print_line lines) numbers =
  omap (λ i, terminated <$> line_at lines i) numbers.
Proof.
  induction numbers as [|i numbers IH]; [done|].
  cbn [flat_map omap list_omap]. rewrite print_line_line_at, IH.
  by destruct (terminated <$> line_at lines i).
Qed.

Lemma terminated_ends (line : string) :
  Py.endswith_char (ascii_of_nat 10) (terminated line) = true.
Proof.
  unfold terminated.
  destruct (Py.endswith_char (ascii_of_nat 10) line) eqn:He; [done|].
  apply endswith_char_snoc.
Qed.

Lemma print_match_preview (self : engine) (x : entry) (ls : list string) :
  is_Some x.2 → print_match self x.1.1 x.2 = Ok ls →
  preview_of self x ls ∧
  Forall (λ s, Py.endswith_char (ascii_of_nat 10) s = true) ls.
Proof.
  destruct x as [[id score] ch]. cbn [fst snd]. intros [chosen ->].
  unfold print_match, preview_of. cbn [fst snd].
  destruct (doc self id) as [lines|].
  - intros Hls. injection Hls as <-. rewrite flat_map_print_line. split.
    + exists chosen. split; [done|].
      exists (stable_sort Z.leb (elements (collect_lines self id chosen))).
      split_and!; [| |done].
      * destruct (sorted_positions (elements (collect_lines self id chosen)))
          as [Hs Hp].
        apply StronglySorted_le_NoDup; [done|]. rewrite Hp. apply NoDup_elements.
      * intros i. rewrite stable_sort_perm, elem_of_elements.
        apply collect_lines_spec.
    + apply Forall_forall. intros s (i & _ & Hs)%list_elem_of_omap.
      destruct (line_at lines i) as [line|]; [|done].
      injection Hs as <-. apply terminated_ends.
  - intros Hls. injection Hls as <-. split; [|constructor]. by exists chosen.
Qed.

(** What the output loop prints when the preview is requested. *)
Lemma output_previews (self : engine) (ranked : list entry) :
  ∀ (printed : gset string) (out : list string),
  Forall (λ x : entry, is_Some x.2) ranked →
  output self true printed ranked = (out, Ok ()) →
  ∃ previews,
    Forall2 (preview_of self) ranked previews ∧
    Forall (Forall (λ s, Py.endswith_char (ascii_of_nat 10) s = true)) previews ∧
    out = concat (zip_with (λ (x : entry) ls, ("> " ++ x.1.1 ++ nl)%string :: ls)
                    ranked previews).
Proof.
  induction ranked as [|x ranked IH]; intros printed out Hch.
  { intros Hout. injection Hout as <-. exists []. by split_and!. }
  apply Forall_cons in Hch as [Hx Hch].
  pose proof (print_match_preview self x) as Hpm.
  destruct x as [[id score] chosen]. cbn [output]. cbn [fst snd] in Hpm.
  destruct (decide (id ∈ printed)); [done|].
  destruct (print_match self id chosen) as [ls|e]; [|done].
  destruct (output self true ({[id]} ∪ printed) ranked) as [out' r] eqn:Hrest.
  intros Hout. injection Hout as <- ->.
  destruct (IH _ _ Hch Hrest) as (previews & Hprev & Hends & ->).
  destruct (Hpm ls Hx eq_refl) as [Hls Hnl].
  exists (ls :: previews). split_and!; [by constructor|by constructor|done].
Qed.

(** Every element of the sequence [search] returns carries a
    dictionary of chosen positions. *)
Lemma search_chosen (self : engine) (origin_query : string)
    (out : list string) (ranked : list entry) :
  search self origin_query = (out, Ok ranked) →
  Forall (λ x : entry, is_Some x.2) ranked.
Proof.
  intros [(_ & _ & ->)|(_ & temp_rank & Hscore & Hsort & _)]%search_inv; [constructor|].
  set (Q := preprocess_sentence (query_of origin_query)) in *.
  apply sort_ranked_perm in Hsort as [Hperm _]. rewrite Hperm.
  apply dedup_Forall.
  pose proof (score_all_ok Q (group_matches self Q) (group_matches_ok self Q)) as Hok.
  rewrite Hscore in Hok. eapply Forall_impl; [exact Hok|]. by intros x [? _].
Qed.
End PreviewOutput.

(** C7. When [search] returns on a query that requests the preview,
    what it printed is, for each ranked document in order, the line
    "> id" followed by the preview of the document: nothing when the
    file of the document is missing; otherwise, for the line numbers
    recorded in the index for a chosen term of the document at its
    chosen position, taken in ascending order and each once, the line
    of that number when the file has it, followed by a newline when it
    does not end in one.  What [search] returns or raises depends on
    the index only, not on the document files. *)
Theorem preview_lines `{NLTK} `{HashOrder}
    (self : SearchEngine.engine) (origin_query : string) :
  (∀ out ranked,
     Py.startswith_char ">" origin_query = true →
     SearchEngine.search self origin_query = (out, SearchEngine.Ok ranked) →
     ∃ previews,
       Forall2 (preview_of self) ranked previews ∧
       Forall (Forall (λ s, Py.endswith_char (ascii_of_nat 10) s = true)) previews ∧
       out = concat (zip_with (λ (x : SearchEngine.entry) ls,
                                 ("> " ++ x.1.1 ++ SearchEngine.nl)%string :: ls)
                       ranked previews)) ∧
  (∀ self',
     SearchEngine.inverted_index self' = SearchEngine.inverted_index self →
     (SearchEngine.search self' origin_query).2 =
     (SearchEngine.search self origin_query).2).
Proof.
  split.
  - intros out ranked Hmarker Hsearch.
    pose proof (search_chosen self origin_query out ranked Hsearch) as Hch.
    apply search_inv in Hsearch as [(_ & -> & ->)|(_ & temp_rank & _ & _ & Hout)].
    { exists []. by split_and!. }
    rewrite Hmarker in Hout. by eapply output_previews.
  - intros self' Hidx. by rewrite !search_result, Hidx.
Qed.

Lemma preview_lines_witness :
  let self := SearchEngine.Engine (SearchEngine.inverted_index Example.engine)
                (λ name, if decide (name = "2") then None
                         else Example.corpus_files name) in
  let out := [("> 1" ++ SearchEngine.nl)%string; ("leaves fall" ++ SearchEngine.nl)%string;
              ("> 2" ++ SearchEngine.nl)%string;
              ("> 10" ++ SearchEngine.nl)%string; ("fall" ++ SearchEngine.nl)%string] in
  ∃ ranked,
    @SearchEngine.search Example.toy Example.first_seen self ">fall"
      = (out, SearchEngine.Ok ranked) ∧
    ids ranked = ["1"; "2"; "10"] ∧
    ∃ previews,
      Forall2 (preview_of self) ranked previews ∧
      Forall (Forall (λ s, Py.endswith_char (ascii_of_nat 10) s = true)) previews ∧
      out = concat (zip_with (λ (x : SearchEngine.entry) ls,
                                ("> " ++ x.1.1 ++ SearchEngine.nl)%string :: ls)
                      ranked previews).
Proof.
  intros self out.
  set (ranked := match (@SearchEngine.search Example.toy Example.first_seen
                          self ">fall").2 with
                 | SearchEngine.Ok r => r
                 | SearchEngine.Raise _ => []
                 end).
  assert (Hsearch : @SearchEngine.search Example.toy Example.first_seen self ">fall"
                    = (out, SearchEngine.Ok ranked)) by (vm_compute; reflexivity).
  exists ranked. split; [exact Hsearch|]. split; [vm_compute; reflexivity|].
  exact (proj1 (@preview_lines Example.toy Example.first_seen self ">fall")
           out ranked eq_refl Hsearch).
Defined.
(** ** Concrete runs of the properties above *)

Lemma normalize_token_digits_witness :
  @normalize_token Example.toy Example.first_seen "2024" = ["2024"].
Proof.
  apply (@normalize_token_digits Example.toy Example.first_seen).
  vm_compute. reflexivity.
Defined.

Lemma normalize_token_symbols_witness :
  @normalize_token Example.toy Example.first_seen "?!" = [].
Proof.
  apply (@normalize_token_symbols Example.toy Example.first_seen).
  vm_compute. reflexivity.
Defined.

Lemma find_root_size_witness :
  (1 ≤ length (@find_root Example.toy Example.first_seen "leaves") ≤ 3)%nat.
Proof.
  apply (@find_root_size Example.toy Example.first_seen "leaves").
  apply first_seen_ok.
Defined.

Lemma normalize_token_possessive_witness :
  @normalize_token Example.toy Example.first_seen ("dog" ++ "'s")
  = @normalize_token Example.toy Example.first_seen "dog".
Proof.
  apply (@normalize_token_possessive Example.toy Example.first_seen).
  vm_compute. reflexivity.
Defined.

Lemma preprocess_sentence_plain_witness :
  FileProcess.preprocess_sentence "the quick brown fox" = "the quick brown fox".
Proof.
  apply preprocess_sentence_plain; vm_compute; reflexivity.
Defined.

Lemma fall_posting :
  Posting "10" 0 0 ∈
  default [] (FileProcess.inverted_index
    (@FileProcess.build_index Example.toy Example.first_seen
       Example.corpus FileProcess.init) !! "fall").
Proof.
  assert (Hl : default [] (FileProcess.inverted_index
    (@FileProcess.build_index Example.toy Example.first_seen
       Example.corpus FileProcess.init) !! "fall")
    = [Posting "1" 2 0; Posting "10" 0 0; Posting "2" 4 1])
    by (vm_compute; reflexivity).
  rewrite Hl. right. left.
Qed.

Lemma postings_in_range_witness :
  ∃ lines, Example.corpus_files "10" = Some lines ∧
           0 ≤ 0 < Z.of_nat (length lines) ∧
           0 ≤ 0 < Z.of_nat (length (@file_terms Example.toy Example.first_seen lines)).
Proof.
  exact (@postings_in_range Example.toy Example.first_seen Example.corpus
           "fall" (Posting "10" 0 0) fall_posting).
Defined.

Lemma position_determines_term_witness :
  "fall" = "fall" ∧ Posting "10" 0 0 = Posting "10" 0 0.
Proof.
  exact (@position_determines_term Example.toy Example.first_seen Example.corpus
           "fall" "fall" (Posting "10" 0 0) (Posting "10" 0 0)
           fall_posting fall_posting eq_refl eq_refl).
Defined.

Lemma build_index_listing_order_witness :
  @FileProcess.build_index Example.toy Example.first_seen
    (FileProcess.Folder ["2"; "10"; "1"; "sub"] Example.corpus_files) FileProcess.init
  = @FileProcess.build_index Example.toy Example.first_seen
      (FileProcess.Folder ["sub"; "1"; "10"; "2"] Example.corpus_files) FileProcess.init.
Proof.
  apply (@build_index_listing_order Example.toy Example.first_seen).
  symmetry. apply (reverse_Permutation ["2"; "10"; "1"; "sub"]).
Defined.

Lemma spread_is_window_width_witness :
  ∃ lo hi, lo ∈ [7; 3; 5] ∧ hi ∈ [7; 3; 5] ∧ (∀ x, x ∈ [7; 3; 5] → lo ≤ x ≤ hi) ∧
           SearchEngine.sum_intervals (stable_sort Z.leb [7; 3; 5]) =
           hi - lo - (Z.of_nat (length [7; 3; 5]) - 1).
Proof. apply (spread_is_window_width [7; 3; 5]). discriminate. Defined.

Lemma spread_nonneg_witness :
  0 ≤ SearchEngine.sum_intervals (stable_sort Z.leb [7; 3; 5]).
Proof.
  apply (spread_nonneg [7; 3; 5]).
  apply (bool_decide_unpack _). vm_compute. reflexivity.
Defined.

Lemma retrieved_documents_witness :
  ∃ out ranked,
    @SearchEngine.search Example.toy Example.first_seen Example.engine "fall"
      = (out, SearchEngine.Ok ranked) ∧
    ("10" ∈ ids ranked ↔
     ∃ t r, t ∈ @SearchEngine.preprocess_sentence Example.toy Example.first_seen
                  (query_of "fall") ∧
            r ∈ default [] (SearchEngine.inverted_index Example.engine !! t) ∧
            p_id r = "10").
Proof.
  assert (Hok : match (@SearchEngine.search Example.toy Example.first_seen
                         Example.engine "fall").2 with
                | SearchEngine.Ok _ => True
                | SearchEngine.Raise _ => False
                end) by (vm_compute; exact I).
  destruct (@SearchEngine.search Example.toy Example.first_seen Example.engine "fall")
    as [out [ranked|e]] eqn:Hsearch; [|destruct Hok].
  exists out, ranked. split; [reflexivity|].
  exact (@retrieved_documents Example.toy Example.first_seen Example.engine
           "fall" out ranked Hsearch "10").
Defined.

Lemma unmatched_query_witness :
  @SearchEngine.search Example.toy Example.first_seen Example.engine ">zebra"
    = ([], SearchEngine.Ok []).
Proof.
  apply (@unmatched_query Example.toy Example.first_seen).
  assert (HQ : @SearchEngine.preprocess_sentence Example.toy Example.first_seen
                 (query_of ">zebra") = ["zebra"]) by (vm_compute; reflexivity).
  rewrite HQ. intros t ->%list_elem_of_singleton. vm_compute. reflexivity.
Defined.

Lemma printed_output_witness :
  ∃ out ranked,
    @SearchEngine.search Example.toy Example.first_seen Example.engine ">fall"
      = (out, SearchEngine.Ok ranked) ∧
    out = flat_map (@entry_output Example.engine true) ranked.
Proof.
  assert (Hok : match (@SearchEngine.search Example.toy Example.first_seen
                         Example.engine ">fall").2 with
                | SearchEngine.Ok _ => True
                | SearchEngine.Raise _ => False
                end) by (vm_compute; exact I).
  destruct (@SearchEngine.search Example.toy Example.first_seen Example.engine ">fall")
    as [out [ranked|e]] eqn:Hsearch; [|destruct Hok].
  exists out, ranked. split; [reflexivity|].
  exact (@printed_output Example.toy Example.first_seen Example.engine
           ">fall" out ranked Hsearch).
Defined.

Lemma chosen_is_an_occurrence_witness :
  let Q := ["quick"; "fox"] in
  let position : gmap string (list Z) := {[ "quick" := [1; 7]; "fox" := [3; 5] ]} in
  let chosen : gmap string Z := {[ "quick" := 1; "fox" := 3 ]} in
  SearchEngine.shortest_distance Q position
    = SearchEngine.Ok (Float.one, 1, Some chosen) ∧
  chosen !! "quick" = Some 1 ∧
  ("quick" ∈ Q ∧ 1 ∈ default [] (position !! "quick")).
Proof.
  intros Q position chosen.
  assert (H1 : SearchEngine.shortest_distance Q position
               = SearchEngine.Ok (Float.one, 1, Some chosen))
    by (vm_compute; reflexivity).
  assert (H2 : chosen !! "quick" = Some 1) by (vm_compute; reflexivity).
  split; [exact H1|]. split; [exact H2|].
  exact (chosen_is_an_occurrence Q position _ chosen "quick" 1 H1 eq_refl H2).
Defined.

Lemma chosen_positions_in_index_witness :
  ∃ out ranked x,
    @SearchEngine.search Example.toy Example.first_seen Example.engine "leaves fall"
      = (out, SearchEngine.Ok ranked) ∧
    x ∈ ranked ∧
    ∃ chosen, x.2 = Some chosen ∧
      ∀ t p, chosen !! t = Some p →
             t ∈ @SearchEngine.preprocess_sentence Example.toy Example.first_seen
                   (query_of "leaves fall") ∧
             ∃ l, Posting x.1.1 p l
                    ∈ default [] (SearchEngine.inverted_index Example.engine !! t).
Proof.
  assert (Hok : match (@SearchEngine.search Example.toy Example.first_seen
                         Example.engine "leaves fall").2 with
                | SearchEngine.Ok (_ :: _) => True
                | _ => False
                end) by (vm_compute; exact I).
  destruct (@SearchEngine.search Example.toy Example.first_seen Example.engine
              "leaves fall") as [out [[|x ranked]|e]] eqn:Hsearch; try destruct Hok.
  exists out, (x :: ranked), x. split; [reflexivity|]. split; [left|].
  apply (@chosen_positions_in_index Example.toy Example.first_seen Example.engine
           "leaves fall" out (x :: ranked) x Hsearch). left.
Defined.

Lemma example_positions_distinct :
  positions_distinct (SearchEngine.inverted_index Example.engine).
Proof.
  intros t1 t2 r1 r2 H1 H2 Hid Hpos.
  by destruct (@built_position_unique Example.toy Example.first_seen Example.corpus
                 t1 t2 r1 r2 H1 H2 Hid Hpos).
Qed.

Lemma no_zero_division_witness :
  match (@SearchEngine.search Example.toy Example.first_seen Example.engine
           "quick fox").2 with
  | SearchEngine.Ok _ => True
  | SearchEngine.Raise e => e = SearchEngine.ValueError ∨ e = SearchEngine.OverflowError
  end.
Proof.
  apply (@no_zero_division Example.toy Example.first_seen Example.engine "quick fox").
  apply example_positions_distinct.
Defined.

Lemma built_index_queries_witness :
  match (@SearchEngine.search Example.toy Example.last_seen
           (SearchEngine.Engine
              (FileProcess.inverted_index
                 (@FileProcess.build_index Example.toy Example.first_seen
                    Example.corpus FileProcess.init))
              Example.corpus_files)
           "leaves fall").2 with
  | SearchEngine.Ok _ => True
  | SearchEngine.Raise e => e = SearchEngine.ValueError
  end.
Proof.
  apply (built_index_queries Example.toy Example.first_seen
           Example.toy Example.last_seen Example.corpus Example.corpus_files
           "leaves fall").
  - intros name lines. cbn [FileProcess.read_lines Example.corpus].
    unfold Example.corpus_files.
    repeat case_decide; intros Hl; try discriminate Hl;
      injection Hl as <-; vm_compute; discriminate.
  - vm_compute. discriminate.
Defined.
